(** * pex: the live pipeline engine

    A shallow embedding of the two core packages of [josharian/pex]:

    - [stream] (src/stream/stream.go): the line-indexed [Buffer], the
      [Shared] source and its [Reader]s;
    - [main] (src/pex.go, src/pager.go): the controller's [updatePagers]
      pass over the list of pagers, and the cursor keys;
    - [streamview] (src/streamview/streamview.go): the scrolling of a view
      over a [Buffer].

    Go's [int] is modelled by [Z]: every integer below is an offset into a
    slice or a small window index, so no arithmetic of the program can leave
    the 64-bit range.  A run-time panic (slice or index out of range) is an
    explicit [Panic] outcome.  Locks are not modelled: the calls of the
    methods run one after the other.  The shell parser ([shell.Parse], on
    top of an external parsing library), [%q] quoting and the start of a
    process are parameters of the controller. *)

From Stdlib Require Import List ZArith Lia Bool String Strings.Byte Sorted.
From Equations Require Import Equations.
Import ListNotations.
Open Scope Z_scope.

Set Implicit Arguments.

(** ** Go run-time primitives *)

Module Go.

(** The result of running a piece of Go code: it returns, or it panics. *)
Inductive outcome (A : Type) : Type :=
| Ok (a : A)
| Panic.
Arguments Ok {A} a.
Arguments Panic {A}.

Definition bind {A B : Type} (x : outcome A) (f : A -> outcome B) : outcome B :=
  match x with
  | Ok a => f a
  | Panic => Panic
  end.

(** Go's [error] interface, by its [Error()] text; [None] is [nil]. *)
Definition error : Type := option string.

(** Remember the equation of a case analysis. *)
Definition inspect {A : Type} (a : A) : {b : A | a = b} := exist _ a eq_refl.

Definition len {A : Type} (s : list A) : Z := Z.of_nat (List.length s).

(** [s[lo:hi]]; the capacity of a slice is taken to be its length, so
    slicing past [len s] panics. *)
Definition slice {A : Type} (s : list A) (lo hi : Z) : outcome (list A) :=
  if (0 <=? lo) && (lo <=? hi) && (hi <=? len s)
  then Ok (firstn (Z.to_nat (hi - lo)) (skipn (Z.to_nat lo) s))
  else Panic.

(** [s[lo:]] *)
Definition sliceFrom {A : Type} (s : list A) (lo : Z) : outcome (list A) :=
  slice s lo (len s).

(** [s[:hi]] *)
Definition sliceTo {A : Type} (s : list A) (hi : Z) : outcome (list A) :=
  slice s 0 hi.

(** [s[i]] *)
Definition index {A : Type} (s : list A) (i : Z) : outcome A :=
  if (0 <=? i) && (i <? len s)
  then match nth_error s (Z.to_nat i) with
       | Some a => Ok a
       | None => Panic
       end
  else Panic.

(** [copy(dst, src)]: the number of elements copied and the new [dst]. *)
Definition copy {A : Type} (dst src : list A) : Z * list A :=
  let n := Z.min (len dst) (len src) in
  (n, firstn (Z.to_nat n) src ++ skipn (Z.to_nat n) dst).

(** [bytes.IndexByte]: index of the first [c] in [s], or -1. *)
Fixpoint IndexByte (s : list byte) (c : byte) : Z :=
  match s with
  | [] => -1
  | x :: rest =>
      if Byte.eqb x c then 0
      else let i := IndexByte rest c in
           if i <? 0 then -1 else i + 1
  end.

(** [bytes.LastIndexByte]: index of the last [c] in [s], or -1. *)
Fixpoint LastIndexByte (s : list byte) (c : byte) : Z :=
  match s with
  | [] => -1
  | x :: rest =>
      let i := LastIndexByte rest c in
      if 0 <=? i then i + 1
      else if Byte.eqb x c then 0 else -1
  end.

(** [[]byte(s)] *)
Definition bytes (s : string) : list byte := list_byte_of_string s.

(** [s[i] = a] *)
Definition setIndex {A : Type} (s : list A) (i : Z) (a : A) : outcome (list A) :=
  if (0 <=? i) && (i <? len s)
  then Ok (firstn (Z.to_nat i) s ++ a :: skipn (S (Z.to_nat i)) s)
  else Panic.

(** [slices.Equal] on strings. *)
Fixpoint slicesEqual (s t : list string) : bool :=
  match s, t with
  | [], [] => true
  | x :: s', y :: t' => String.eqb x y && slicesEqual s' t'
  | _, _ => false
  end.

(** [strings.HasSuffix] *)
Definition HasSuffix (s suffix : string) : bool :=
  (String.length suffix <=? String.length s)%nat
  && String.eqb
       (substring (String.length s - String.length suffix)
          (String.length suffix) s)
       suffix.

(** Code that changes a state of type [S] and may panic. *)
Definition M (S A : Type) : Type := S -> outcome (A * S).

Definition ret {S A : Type} (a : A) : M S A := fun s => Ok (a, s).

Definition bindM {S A B : Type} (x : M S A) (f : A -> M S B) : M S B :=
  fun s => match x s with
           | Ok (a, s') => f a s'
           | Panic => Panic
           end.

Definition lift {S A : Type} (o : outcome A) : M S A :=
  fun s => match o with
           | Ok a => Ok (a, s)
           | Panic => Panic
           end.

End Go.

Import Go.

Declare Scope go_scope.
Delimit Scope go_scope with go.
Notation "x <- e ;; k" := (bind e (fun x => k))
  (at level 61, e at next level, right associativity) : go_scope.
Notation "' pat <- e ;; k" := (bind e (fun x => match x with pat => k end))
  (at level 61, pat pattern, e at next level, right associativity) : go_scope.
Open Scope go_scope.

Declare Scope state_scope.
Delimit Scope state_scope with state.
Notation "x <- e ;; k" := (bindM e (fun x => k))
  (at level 61, e at next level, right associativity) : state_scope.
Notation "' pat <- e ;; k" := (bindM e (fun x => match x with pat => k end))
  (at level 61, pat pattern, e at next level, right associativity) : state_scope.
Notation "e ;;; k" := (bindM e (fun _ => k))
  (at level 61, right associativity) : state_scope.

(** ** Package stream: Buffer *)

Module Stream.

Definition LF : byte := "010"%byte.
Definition CR : byte := "013"%byte.

(** One element of [lines [][3]int]: line start / \r / \n. *)
Record entry : Type := mkEntry { at0 : Z; at1 : Z; at2 : Z }.

Record Buffer : Type := mkBuffer {
  buf : list byte;
  lines : list entry
}.

(** [new(Buffer)] *)
Definition newBuffer : Buffer := mkBuffer [] [].

(** [func (b *Buffer) lastLineEnd() int] *)
Definition lastLineEnd (b : Buffer) : outcome Z :=
  if 0 <? len (lines b)
  then e <- index (lines b) (len (lines b) - 1) ;; Ok (at2 e + 1)
  else Ok 0.

(** The closure [appendLine] of [Append]. *)
Definition appendLine (b : Buffer) (start end_ : Z) : outcome Buffer :=
  line <- slice (buf b) start end_ ;;
  let lineLen := LastIndexByte line CR in
  let lineLen := if lineLen <? 0 then len line else lineLen in
  Ok (mkBuffer (buf b)
        (lines b ++ [mkEntry start (start + lineLen) (start + len line)])).

(** The [for] loop of [Append]: one iteration per remaining newline of
    [lineBuf]. *)
Equations? scanLines (b : Buffer) (lastLineEnd j : Z) (lineBuf : list byte)
  : outcome Buffer by wf (List.length lineBuf) lt :=
  scanLines b lastLineEnd j lineBuf with Z_lt_dec (IndexByte lineBuf LF) 0 := {
    | left _ := Ok b
    | right _ with appendLine b (lastLineEnd + j)
                     (lastLineEnd + j + IndexByte lineBuf LF) := {
        | Panic := Panic
        | Ok b' with inspect (sliceFrom lineBuf (IndexByte lineBuf LF + 1)) := {
            | exist _ Panic _ := Panic
            | exist _ (Ok rest) Hrest :=
                scanLines b' lastLineEnd (j + IndexByte lineBuf LF + 1) rest } } }.
Proof.
  unfold sliceFrom, slice, len in Hrest.
  destruct (_ && _) eqn:E in Hrest; [|discriminate].
  injection Hrest as <-.
  rewrite length_firstn, length_skipn. lia.
Qed.

(** [func (b *Buffer) Append(p []byte)] *)
Definition Append (b : Buffer) (p : list byte) : outcome Buffer :=
  if len p =? 0 then Ok b
  else
    let b := if 0 <? len (lines b)
             then mkBuffer (buf b) (removelast (lines b))
             else b in
    lastLineEnd_ <- lastLineEnd b ;;
    let b := mkBuffer (buf b ++ p) (lines b) in
    lineBuf <- sliceFrom (buf b) lastLineEnd_ ;;
    b <- scanLines b lastLineEnd_ 0 lineBuf ;;
    c <- index (buf b) (len (buf b) - 1) ;;
    if negb (Byte.eqb c LF)
    then e <- lastLineEnd b ;; appendLine b e (len (buf b))
    else Ok b.

(** Successive calls [b.Append(c)], one per chunk. *)
Fixpoint AppendAll (b : Buffer) (chunks : list (list byte)) : outcome Buffer :=
  match chunks with
  | [] => Ok b
  | c :: rest => b' <- Append b c ;; AppendAll b' rest
  end.

(** [func (b *Buffer) Len() int] *)
Definition Len (b : Buffer) : Z := len (buf b).

(** [func (b *Buffer) ReadAt(p []byte, off int) (n int, err error)]; the
    error is always [nil] and is left out; the second component is [p]
    after the call. *)
Definition ReadAt (b : Buffer) (p : list byte) (off : Z)
  : outcome (Z * list byte) :=
  src <- sliceFrom (buf b) off ;;
  Ok (copy p src).

(** [func (b *Buffer) NLines() int] *)
Definition NLines (b : Buffer) : Z := len (lines b).

(** [func (b *Buffer) Line(n int) string] *)
Definition Line (b : Buffer) (n : Z) : outcome (list byte) :=
  if (n <? 0) || (n >=? len (lines b)) then Ok []
  else
    e <- index (lines b) n ;;
    slice (buf b) (at0 e) (at1 e).

(** ** Package stream: Shared and Reader *)

Section Shared.

(** The underlying [io.Reader]: [R] is its state, and [rRead r p] is the
    call [r.Read(p)]: the count, the error, [p] after the call and the
    reader after the call. *)
Variable R : Type.
Variable rRead : R -> list byte -> Z * error * list byte * R.

(** [type Shared struct]; the mutex is not modelled. *)
Record Shared : Type := mkShared {
  sbuf : Buffer;
  r : R
}.

(** [func NewShared(r io.Reader) *Shared] *)
Definition NewShared (r0 : R) : Shared := mkShared newBuffer r0.

(** [type Reader struct]; the pointer [s] to the Shared is the [Shared]
    passed to [Read]. *)
Record Reader : Type := mkReader { off : Z }.

(** [func (s *Shared) Reader() *Reader] *)
Definition newReader : Reader := mkReader 0.

(** What one call of [Read] leaves behind. *)
Record ReadResult : Type := mkReadResult {
  rr_n : Z;
  rr_err : error;
  rr_p : list byte;
  rr_shared : Shared;
  rr_reader : Reader
}.

(** The two identical branches of [Read] that serve cached data:
    [n, err := r.s.buf.ReadAt(p, r.off); r.off += n; return n, err]. *)
Definition readCached (s : Shared) (rd : Reader) (p : list byte)
  : outcome ReadResult :=
  '(n, p') <- ReadAt (sbuf s) p (off rd) ;;
  Ok (mkReadResult n None p' s (mkReader (off rd + n))).

(** The tail of [Read]: the read from the underlying reader. *)
Definition readUnderlying (s : Shared) (rd : Reader) (p : list byte)
  : outcome ReadResult :=
  let '(n, err, p', r') := rRead (r s) p in
  if 0 <? n
  then
    pn <- sliceTo p' n ;;
    b' <- Append (sbuf s) pn ;;
    Ok (mkReadResult n err p' (mkShared b' r') rd)
  else Ok (mkReadResult n err p' (mkShared (sbuf s) r') rd).

(** [func (r *Reader) Read(p []byte) (int, error)] *)
Definition Read (s : Shared) (rd : Reader) (p : list byte)
  : outcome ReadResult :=
  if off rd <? Len (sbuf s) then readCached s rd p
  else
    (* r.s.mu.Lock() *)
    if off rd <? Len (sbuf s) then readCached s rd p
    else readUnderlying s rd p.

End Shared.

End Stream.

Import Stream.

(** ** Package streamview: the scrolling of a view *)

Module Streamview.

(** [type Model struct], without the fields of rendering and of the mouse
    wheel (off since [New]).  The pointer [buffer] is the [Buffer] passed
    to each method, as it is when the method runs. *)
Record Model : Type := mkView {
  Height : Z;
  CurrentLine : Z;
  lastErr : error
}.

Definition set_CurrentLine (m : Model) (n : Z) : Model :=
  mkView (Height m) n (lastErr m).

(** [func clamp(v, low, high int) int] *)
Definition clamp (v low high : Z) : Z :=
  let '(low, high) := if high <? low then (high, low) else (low, high) in
  Z.min high (Z.max low v).

(** [func (m Model) AtTop() bool] *)
Definition AtTop (m : Model) : bool := CurrentLine m <=? 0.

(** [func (m Model) maxLine() int] *)
Definition maxLine (b : Buffer) (m : Model) : Z := NLines b + Height m - 1.

(** [func (m Model) PastBottom() bool] *)
Definition PastBottom (b : Buffer) (m : Model) : bool :=
  CurrentLine m >? maxLine b m.

(** [func (m Model) visibleLineRange() (top, bottom int)] *)
Definition visibleLineRange (b : Buffer) (m : Model) : Z * Z :=
  let top := Z.max 0 (CurrentLine m) in
  let bottom := clamp (maxLine b m) top (NLines b - 1) in
  (top, bottom).

(** [func (m Model) AtBottom() bool] *)
Definition AtBottom (b : Buffer) (m : Model) : bool :=
  CurrentLine m >=? snd (visibleLineRange b m).

(** [func (m Model) hasLines() bool] *)
Definition hasLines (b : Buffer) : bool := NLines b >? 0.

(** [for i := top; i <= bottom; i++ { lines = append(lines, m.buffer.Line(i)) }];
    [bottom - top + 1] turns are enough. *)
Fixpoint collectLines (fuel : nat) (b : Buffer) (i bottom : Z)
  (lines : list (list byte)) : outcome (list (list byte)) :=
  match fuel with
  | O => Ok lines
  | S fuel' =>
      if i <=? bottom
      then l <- Line b i ;; collectLines fuel' b (i + 1) bottom (lines ++ [l])
      else Ok lines
  end.

(** [func (m Model) visibleLines() (lines []string)] *)
Definition visibleLines (b : Buffer) (m : Model) : outcome (list (list byte)) :=
  if negb (hasLines b) then Ok []
  else
    let '(top, bottom) := visibleLineRange b m in
    collectLines (Z.to_nat (bottom - top + 1)) b top bottom [].

(** [func (m Model) VisibleLineCount() int] *)
Definition VisibleLineCount (b : Buffer) (m : Model) : Z :=
  if negb (hasLines b) then 0
  else
    let '(top, bottom) := visibleLineRange b m in
    bottom - top + 1.

(** [func (m *Model) SetCurrentLine(n int)] *)
Definition SetCurrentLine (b : Buffer) (m : Model) (n : Z) : Model :=
  set_CurrentLine m (clamp n 0 (maxLine b m)).

(** [func (m Model) shouldReadMore() bool] *)
Definition shouldReadMore (b : Buffer) (m : Model) : bool :=
  if VisibleLineCount b m >=? Height m then false
  else match lastErr m with
       | Some _ => false
       | None => true
       end.

(** [func (m *Model) LineDown(n int) (cmd tea.Cmd)]; the boolean tells
    whether a read command is returned. *)
Definition LineDown (b : Buffer) (m : Model) (n : Z) : Model * bool :=
  let next := Z.min (CurrentLine m + n) (NLines b - 1) in
  let m := SetCurrentLine b m next in
  (m, shouldReadMore b m).

(** [func (m *Model) LineUp(n int)] *)
Definition LineUp (b : Buffer) (m : Model) (n : Z) : Model :=
  let next := Z.max 0 (CurrentLine m - n) in
  SetCurrentLine b m next.

(** [func (m *Model) ViewDown() tea.Cmd] *)
Definition ViewDown (b : Buffer) (m : Model) : Model * bool :=
  LineDown b m (Height m).

(** [func (m *Model) ViewUp()] *)
Definition ViewUp (b : Buffer) (m : Model) : Model := LineUp b m (Height m).

(** [func (m *Model) HalfViewDown() tea.Cmd]; Go's [/] rounds to zero. *)
Definition HalfViewDown (b : Buffer) (m : Model) : Model * bool :=
  LineDown b m (Z.quot (Height m) 2).

(** [func (m *Model) HalfViewUp()] *)
Definition HalfViewUp (b : Buffer) (m : Model) : Model :=
  LineUp b m (Z.quot (Height m) 2).

(** [func (m *Model) GotoTop()] *)
Definition GotoTop (b : Buffer) (m : Model) : Model := SetCurrentLine b m 0.

(** [func (m *Model) GotoBottom()] *)
Definition GotoBottom (b : Buffer) (m : Model) : Model :=
  SetCurrentLine b m (maxLine b m).

(** The case [readMsg] of [Update], for a message of this view: the error
    of the read is kept, and the boolean tells whether another read
    command is returned. *)
Definition onRead (b : Buffer) (m : Model) (e : error) : Model * bool :=
  let m := mkView (Height m) (CurrentLine m) e in
  (m, shouldReadMore b m).

(** The methods that scroll a view. *)
Inductive scroll : Type :=
| DoSetCurrentLine (n : Z)
| DoLineDown (n : Z)
| DoLineUp (n : Z)
| DoViewDown
| DoViewUp
| DoHalfViewDown
| DoHalfViewUp
| DoGotoTop
| DoGotoBottom.

(** The view after a scrolling method, and whether it returned a read
    command. *)
Definition scrolled (b : Buffer) (m : Model) (op : scroll) : Model * bool :=
  match op with
  | DoSetCurrentLine n => (SetCurrentLine b m n, false)
  | DoLineDown n => LineDown b m n
  | DoLineUp n => (LineUp b m n, false)
  | DoViewDown => ViewDown b m
  | DoViewUp => (ViewUp b m, false)
  | DoHalfViewDown => HalfViewDown b m
  | DoHalfViewUp => (HalfViewUp b m, false)
  | DoGotoTop => (GotoTop b m, false)
  | DoGotoBottom => (GotoBottom b m, false)
  end.

(** The scrolling methods applied one after the other, each with the
    buffer as it is then; the booleans tell which returned a read
    command. *)
Fixpoint scrolledAll (m : Model) (steps : list (Buffer * scroll))
  : Model * list bool :=
  match steps with
  | [] => (m, [])
  | (b, op) :: rest =>
      let '(m1, cmd) := scrolled b m op in
      let '(m2, cmds) := scrolledAll m1 rest in
      (m2, cmd :: cmds)
  end.

End Streamview.

(** ** Package shell: commands *)

Module Shell.

(** [type Command struct] *)
Record Command : Type := mkCommand {
  Argv : list string;
  Raw : string
}.

(** [func (p Command) Equal(q Command) bool] *)
Definition Equal (p q : Command) : bool := slicesEqual (Argv p) (Argv q).

(** [func (p Command) Empty() bool] *)
Definition Empty (p : Command) : bool := len (Argv p) =? 0.

(** [func (p Command) Name() string] *)
Definition Name (p : Command) : string :=
  if Empty p then EmptyString
  else match Argv p with
       | a :: _ => a
       | [] => EmptyString
       end.

(** [func (p Command) Args() []string] *)
Definition Args (p : Command) : list string :=
  if Empty p then []
  else match Argv p with
       | _ :: rest => rest
       | [] => []
       end.

End Shell.

Import Shell.

(** ** Package main: pagers and the controller *)

Module Pex.

Local Open Scope state_scope.

Definition maxPagers : Z := 3.

(** What a pager's Shared reads from. *)
Inductive Source : Type :=
| FromInput                   (* newReadPager: stdin or the files *)
| FromString (s : string)     (* strings.NewReader(s) *)
| FromProcess (ctx : nat).    (* the stdout pipe of a started process *)

(** [type pager struct].  A [*stream.Shared] is named by a number, its
    address; [cmd] keeps what the subprocess reads ([cmd.Stdin]), and
    [cancel] the context its cancel function cancels.  The view is
    rendering state and is left out. *)
Record pager : Type := mkPager {
  isErr : bool;
  command : Command;
  cmd : option nat;
  shared : nat;
  source : Source;
  cancel : option nat
}.

(** What the controller does to the outside world. *)
Inductive event : Type :=
| Started (ctx : nat) (argv : list string) (stdin : nat)
| Cancelled (ctx : nat).

(** The outside world: the next unused address and what happened so far,
    oldest first. *)
Record world : Type := mkWorld {
  fresh : nat;
  events : list event
}.

Definition alloc : M world nat :=
  fun w => Ok (fresh w, mkWorld (S (fresh w)) (events w)).

Definition emit (e : event) : M world unit :=
  fun w => Ok (tt, mkWorld (fresh w) (events w ++ [e])).

(** [type model struct], without the rendering fields; [inputValue] and
    [inputPos] are [bottomTextInput.Value()] and
    [bottomTextInput.Position()]. *)
Record model : Type := mkModel {
  pagers : list pager;
  inputValue : string;
  inputPos : Z;
  errText : string;
  commands : list Command;
  pipes : list Z;
  minPager : Z;
  maxPager : Z;
  focusedPager : Z;
  err : error
}.

Definition set_pagers (m : model) (ps : list pager) : model :=
  mkModel ps (inputValue m) (inputPos m) (errText m) (commands m) (pipes m)
    (minPager m) (maxPager m) (focusedPager m) (err m).

Definition set_parse (m : model) (cs : list Command) (ps : list Z) : model :=
  mkModel (pagers m) (inputValue m) (inputPos m) (errText m) cs ps
    (minPager m) (maxPager m) (focusedPager m) (err m).

Definition set_window (m : model) (lo hi : Z) : model :=
  mkModel (pagers m) (inputValue m) (inputPos m) (errText m) (commands m)
    (pipes m) lo hi (focusedPager m) (err m).

Definition set_focused (m : model) (f : Z) : model :=
  mkModel (pagers m) (inputValue m) (inputPos m) (errText m) (commands m)
    (pipes m) (minPager m) (maxPager m) f (err m).

Definition set_input (m : model) (value : string) (pos : Z) : model :=
  mkModel (pagers m) value pos (errText m) (commands m) (pipes m)
    (minPager m) (maxPager m) (focusedPager m) (err m).

(** [func (m *model) SetErr(err error)] *)
Definition SetErr (m : model) (e : error) : model :=
  mkModel (pagers m) (inputValue m) (inputPos m)
    (match e with Some text => text | None => errText m end)
    (commands m) (pipes m) (minPager m) (maxPager m) (focusedPager m) e.

(** [sort.SearchInts] of the Go standard library: binary search for the
    least index whose element is at least [x]; [i <= h < j <= len a]
    throughout, so [a[h]] is in range. *)
Equations? search (a : list Z) (x : Z) (i j : Z) : Z
  by wf (Z.to_nat (j - i)) lt :=
  search a x i j with Z_lt_dec i j := {
    | left _ with Z_lt_dec (nth (Z.to_nat ((i + j) / 2)) a 0) x := {
        | left _ := search a x ((i + j) / 2 + 1) j
        | right _ := search a x i ((i + j) / 2) }
    | right _ := i }.
Proof.
  all: assert (i <= (i + j) / 2 < j)
    by (split; [apply Z.div_le_lower_bound | apply Z.div_lt_upper_bound]; lia);
    lia.
Qed.

Definition SearchInts (a : list Z) (x : Z) : Z := search a x 0 (len a).

(** [func newPager(r io.Reader, name string) *pager] *)
Definition newPager (src : Source) : M world pager :=
  id <- alloc ;;
  ret (mkPager false (mkCommand [] EmptyString) None id src None).

(** The pager [newEmptyPager] makes at address [id]. *)
Definition placeholder (id : nat) : pager :=
  mkPager false (mkCommand [] EmptyString) None id (FromString EmptyString) None.

(** [func newEmptyPager() *pager] *)
Definition newEmptyPager : M world pager := newPager (FromString EmptyString).

(** [func newReadPager(r io.Reader) *pager] *)
Definition newReadPager : M world pager := newPager FromInput.

(** [func newErrorPager(err error, command shell.Command) *pager] *)
Definition newErrorPager (text : string) (c : Command) : M world pager :=
  p <- newPager (FromString text) ;;
  ret (mkPager true c (cmd p) (shared p) (source p) (cancel p)).

(** [func (p *pager) close()] *)
Definition close (p : pager) : M world unit :=
  match cancel p with
  | Some ctx => emit (Cancelled ctx)
  | None => ret tt
  end.

(** [p.Init()]: the read command of the pager's view, named by the Shared
    it reads. *)
Definition Init (p : pager) : nat := shared p.



Section Controller.

(** [shell.Parse], whose parser is an external library. *)
Variable Parse : string -> list Command * list Z * error.

(** [fmt.Sprintf("%q", s)] *)
Variable quote : string -> string.

(** Starting the process of a command under the context [ctx]:
    [cmd.StdoutPipe()] then [cmd.Start()]; [Some text] is the error of
    the one that failed. *)
Variable startProcess : nat -> Command -> error.

(** [func newCommandPager(r *stream.Shared, command shell.Command) *pager] *)
Definition newCommandPager (r : nat) (c : Command) : M world pager :=
  if Empty c then newEmptyPager
  else
    ctx <- alloc ;;
    match startProcess ctx c with
    | Some text =>
        emit (Cancelled ctx) ;;;
        newErrorPager text c
    | None =>
        emit (Started ctx (Name c :: Args c) r) ;;;
        p <- newPager (FromProcess ctx) ;;
        ret (mkPager (isErr p) c (Some r) (shared p) (source p) (Some ctx))
    end.

(** [fmt.Errorf("to execute %q without args, press space", name)] *)
Definition bareError (name : string) : string :=
  ("to execute " ++ quote name ++ " without args, press space")%string.

(** The first statements of [updatePagers]: parse, and refuse a last
    command that is a bare name not followed by a space. *)
Definition parseInput (rawShell : string)
  : outcome (list Command * list Z * error) :=
  let '(shellCommands, pipeOffsets, e) := Parse rawShell in
  let pipeOffsets := 0 :: pipeOffsets in
  match e with
  | None =>
      if 0 <? len shellCommands
      then (last <- index shellCommands (len shellCommands - 1) ;;
            if negb (String.eqb (Name last) EmptyString)
               && (len (Args last) =? 0)
               && negb (HasSuffix rawShell " ")
            then Ok (shellCommands, pipeOffsets, Some (bareError (Name last)))
            else Ok (shellCommands, pipeOffsets, e))%go
      else Ok (shellCommands, pipeOffsets, e)
  | Some _ => Ok (shellCommands, pipeOffsets, e)
  end.

(** [for nPagers > len(m.pagers) { ... }]; each turn makes the list one
    longer, so [nPagers - len(m.pagers)] turns are enough. *)
Fixpoint growPagers (fuel : nat) (nPagers : Z) (m : model) (cmds : list nat)
  : M world (model * list nat) :=
  match fuel with
  | O => ret (m, cmds)
  | S fuel' =>
      if nPagers >? len (pagers m)
      then
        p <- newEmptyPager ;;
        growPagers fuel' nPagers (set_pagers m (pagers m ++ [p]))
          (cmds ++ [Init p])
      else ret (m, cmds)
  end.

(** [for _, p := range ps { p.close() }] *)
Fixpoint closeAll (ps : list pager) : M world unit :=
  match ps with
  | [] => ret tt
  | p :: rest => close p ;;; closeAll rest
  end.

(** The loop that looks for [rebuildIdx], from index [i] on; -1 when no
    pager differs from its command. *)
Fixpoint findRebuildIdx (ps : list pager) (i : Z) (cs : list Command)
  : outcome Z :=
  match ps with
  | [] => Ok (-1)
  | p :: rest =>
      if i =? 0 then findRebuildIdx rest (i + 1) cs
      else (c <- index cs (i - 1) ;;
            if negb (Equal (command p) c) then Ok i
            else findRebuildIdx rest (i + 1) cs)%go
  end.

(** [for i := rebuildIdx; i < len(m.pagers); i++ { ... }]; the body keeps
    the length of [m.pagers], so [len(m.pagers) - rebuildIdx] turns are
    enough. *)
Fixpoint rebuildLoop (fuel : nat) (i : Z) (m : model) (cmds : list nat)
  : M world (model * list nat) :=
  match fuel with
  | O => ret (m, cmds)
  | S fuel' =>
      if i <? len (pagers m)
      then
        old <- lift (index (pagers m) i) ;;
        close old ;;;
        prev <- lift (index (pagers m) (i - 1)) ;;
        c <- lift (index (commands m) (i - 1)) ;;
        p <- newCommandPager (shared prev) c ;;
        ps <- lift (setIndex (pagers m) i p) ;;
        rebuildLoop fuel' (i + 1) (set_pagers m ps) (cmds ++ [Init p])
      else ret (m, cmds)
  end.

(** The last statements of [updatePagers]: the focused pager and the
    window of visible pagers. *)
Definition updateWindow (m : model) : model :=
  let pos := inputPos m in
  let m := set_focused m (SearchInts (pipes m) pos) in
  let m := set_window m (minPager m)
             (Z.min (maxPager m) (len (pagers m) - 1)) in
  let m := if focusedPager m >? maxPager m
           then set_window m (Z.max 0 (focusedPager m - maxPagers + 1))
                  (focusedPager m)
           else m in
  let m := if focusedPager m <? minPager m
           then set_window m (focusedPager m)
                  (Z.min (focusedPager m + maxPagers - 1) (len (pagers m)))
           else m in
  m.

(** [func (m *model) updatePagers() []tea.Cmd] *)
Definition updatePagers (m : model) : M world (model * list nat) :=
  let rawShell := inputValue m in
  '(shellCommands, pipeOffsets, e) <- lift (parseInput rawShell) ;;
  (* on err, keep last good shell parse, display error in help area *)
  let m := SetErr m None in
  let m := match e with
           | Some _ => SetErr m e
           | None => set_parse m shellCommands pipeOffsets
           end in
  let nPagers := len (commands m) + 1 in
  '(m, cmds) <- growPagers (Z.to_nat (nPagers - len (pagers m))) nPagers m [] ;;
  (* rebuild pagers as necessary *)
  excess <- lift (sliceFrom (pagers m) nPagers) ;;
  closeAll excess ;;;
  kept <- lift (sliceTo (pagers m) nPagers) ;;
  let m := set_pagers m kept in
  rebuildIdx <- lift (findRebuildIdx (pagers m) 0 (commands m)) ;;
  '(m, cmds) <- (if rebuildIdx >? 0
                 then rebuildLoop (Z.to_nat (len (pagers m) - rebuildIdx))
                        rebuildIdx m cmds
                 else ret (m, cmds)) ;;
  ret (updateWindow m, cmds).

(** [func newModel(args []string)], once the files are open. *)
Definition newModel : M world model :=
  p0 <- newReadPager ;;
  p1 <- newEmptyPager ;;
  ret (mkModel [p0; p1] EmptyString 0 EmptyString [] [] 0 0 0 None).

(** One edit: the text input takes a new value and cursor position, and
    [Update] runs [updatePagers]. *)
Definition edit (value : string) (pos : Z) (m : model)
  : M world (model * list nat) :=
  updatePagers (set_input m value pos).

End Controller.

End Pex.

Import Pex.

(** * Fixtures *)

(** A reader over a byte sequence, as [bytes.Reader] of the standard
    library: the state is what is still unread. *)
Definition bytesRead (unread p : list byte)
  : Z * error * list byte * list byte :=
  if len unread =? 0 then (0, Some "EOF"%string, p, unread)
  else let '(n, p') := copy p unread in
       (n, None, p', skipn (Z.to_nat n) unread).

(** [make([]byte, n)] *)
Definition make (n : nat) : list byte := repeat "000"%byte n.

(** The buffer of [TestBufferBasic]. *)
Definition helloWorld : Buffer :=
  Eval vm_compute in
    match Append newBuffer (bytes "hello" ++ [LF] ++ bytes "world" ++ [LF]) with
    | Ok b => b
    | Panic => newBuffer
    end.

Definition a_ : Command := mkCommand ["a"%string] "a".
Definition b_ : Command := mkCommand ["b"%string] "b".
Definition bx_ : Command := mkCommand ["b"%string; "x"%string] "b x".
Definition c_ : Command := mkCommand ["c"%string] "c".
Definition d_ : Command := mkCommand ["d"%string] "d".

(** The command [shell.Parse] adds for a text that ends in a pipe. *)
Definition open_ (raw : string) : Command := mkCommand [] raw.

(** What [shell.Parse] returns on the texts typed below. *)
Definition parseTable : list (string * (list Command * list Z * error)) :=
  [ ("", ([], [], None));
    ("a", ([a_], [], None));
    ("a ", ([a_], [], None));
    ("a |", ([a_; open_ ""], [2], None));
    ("a | ", ([a_; open_ " "], [2], None));
    ("a | b", ([a_; b_], [2], None));
    ("a | b ", ([a_; b_], [2], None));
    ("a | b |", ([a_; b_; open_ ""], [2; 6], None));
    ("a | b | ", ([a_; b_; open_ " "], [2; 6], None));
    ("a | b | c", ([a_; b_; c_], [2; 6], None));
    ("a | b | c ", ([a_; b_; c_], [2; 6], None));
    ("a | b | c |", ([a_; b_; c_; open_ ""], [2; 6; 10], None));
    ("a | b | c | ", ([a_; b_; c_; open_ " "], [2; 6; 10], None));
    ("a | b | c | d", ([a_; b_; c_; d_], [2; 6; 10], None));
    ("a | b | c | d ", ([a_; b_; c_; d_], [2; 6; 10], None));
    ("a | b x | c ", ([a_; bx_; c_], [2; 8], None));
    ("|", ([], [], Some "1:0: missing statement before |")) ]%string.

Fixpoint lookupParse (t : list (string * (list Command * list Z * error)))
  (s : string) : list Command * list Z * error :=
  match t with
  | [] => ([], [], Some "1:1: not a valid shell pipeline"%string)
  | (k, v) :: rest => if String.eqb k s then v else lookupParse rest s
  end.

Definition parseFixture (s : string) : list Command * list Z * error :=
  lookupParse parseTable s.

Definition dquote : string := String (Ascii.ascii_of_nat 34) EmptyString.

Definition quoteFixture (s : string) : string := (dquote ++ s ++ dquote)%string.

(** Every process starts. *)
Definition startOk (ctx : nat) (c : Command) : error := None.

Definition world0 : world := mkWorld 0 [].

Definition editF : string -> Z -> model -> M world (model * list nat) :=
  edit parseFixture quoteFixture startOk.

(** The texts typed one after the other, the cursor at the end of each. *)
Fixpoint typeAll (texts : list string) (m : model) : M world model :=
  match texts with
  | [] => ret m
  | t :: rest =>
      bindM (editF t (Z.of_nat (String.length t)) m)
        (fun r => typeAll rest (fst r))
  end.

(** The model [newModel] builds in the world [world0], and that world. *)
Definition model0 : model :=
  mkModel [mkPager false (mkCommand [] EmptyString) None 0 FromInput None;
           placeholder 1]
    EmptyString 0 EmptyString [] [] 0 0 0 None.

Definition world1 : world := mkWorld 2 [].

(** The model, the commands and the world once [a ] is typed. *)
Definition afterA : model * list nat * world :=
  Eval vm_compute in
    match editF "a " 2 model0 world1 with
    | Ok r => r
    | Panic => ((model0, []), world1)
    end.

Definition modelA : model := fst (fst afterA).
Definition worldA : world := snd afterA.

(** The model and the world once [a | b | c ] is typed: three running
    stages after the input. *)
Definition afterABC : model * list nat * world :=
  Eval vm_compute in
    match editF "a | b | c " 10 model0 world1 with
    | Ok r => r
    | Panic => ((model0, []), world1)
    end.

Definition modelABC : model := fst (fst afterABC).
Definition worldABC : world := snd afterABC.

(** The keys of a session: [a | b | c | d ] typed key by key, then
    deleted from the end, key by key, down to [a ]. *)
Definition typedThenDeleted : list string :=
  [ "a"; "a "; "a |"; "a | "; "a | b"; "a | b "; "a | b |"; "a | b | ";
    "a | b | c"; "a | b | c "; "a | b | c |"; "a | b | c | ";
    "a | b | c | d"; "a | b | c | d ";
    "a | b | c | d"; "a | b | c | "; "a | b | c |"; "a | b | c ";
    "a | b | c"; "a | b | "; "a | b |"; "a | b "; "a | b"; "a | "; "a |";
    "a " ]%string.

Unset Implicit Arguments.

(** * Predicates of the specification *)

(** The entry [appendLine] records for the line [B[s:e]]. *)
Definition entryOf (B : list byte) (s e : Z) : entry :=
  let line := firstn (Z.to_nat (e - s)) (skipn (Z.to_nat s) B) in
  let lineLen := LastIndexByte line CR in
  mkEntry s (s + (if lineLen <? 0 then len line else lineLen)) (s + len line).

(** The index of the next newline at or after [pos]. *)
Definition nextLF (B : list byte) (pos : Z) : Z :=
  IndexByte (skipn (Z.to_nat pos) B) LF.

(** [Chain B pos T pos']: starting at offset [pos] of [B], the loop of
    [Append] records the entries [T], one per newline, and stands at
    [pos'] afterwards. *)
Inductive Chain (B : list byte) : Z -> list entry -> Z -> Prop :=
| Chain_nil (pos : Z) : Chain B pos [] pos
| Chain_cons (pos : Z) (T : list entry) (pos' : Z) :
    0 <= pos ->
    0 <= nextLF B pos ->
    Chain B (pos + nextLF B pos + 1) T pos' ->
    Chain B pos (entryOf B pos (pos + nextLF B pos) :: T) pos'.

(** No newline is left at or after [pos]: the loop of [Append] stops. *)
Definition Done (B : list byte) (pos : Z) : Prop := nextLF B pos < 0.

(** The entry of the unterminated last line, when there is one. *)
Definition trailing (B : list byte) (pos : Z) : list entry :=
  if Byte.eqb (last B LF) LF then [] else [entryOf B pos (len B)].

(** [Indexed b]: the line index of [b] is the one a scan of all of its
    bytes gives: one entry per newline, then one for the unterminated
    rest. *)
Definition Indexed (b : Buffer) : Prop :=
  exists T pos,
    Chain (buf b) 0 T pos /\ Done (buf b) pos /\
    lines b = T ++ trailing (buf b) pos.

(** The segments of a byte sequence between its newlines, the newlines
    left out; bytes after the last newline are a segment of their own. *)
Fixpoint splitLF (s : list byte) : list (list byte) :=
  match s with
  | [] => []
  | x :: rest =>
      if Byte.eqb x LF then [] :: splitLF rest
      else match splitLF rest with
           | [] => [[x]]
           | seg :: segs => (x :: seg) :: segs
           end
  end.

(** A line cut before its last carriage return, when it has one. *)
Definition cutAtCR (line : list byte) : list byte :=
  if LastIndexByte line CR <? 0 then line
  else firstn (Z.to_nat (LastIndexByte line CR)) line.

(** The bytes of [B] an entry spans, from its start to its newline. *)
Definition rawOf (B : list byte) (e : entry) : list byte :=
  firstn (Z.to_nat (at2 e - at0 e)) (skipn (Z.to_nat (at0 e)) B).

(** The events of closing a list of pagers. *)
Definition closeEvents (ps : list pager) : list event :=
  flat_map (fun p => match cancel p with
                     | Some ctx => [Cancelled ctx]
                     | None => []
                     end) ps.

(** The contexts the cancel functions of [ps] cancel. *)
Definition ctxs (ps : list pager) : list nat :=
  flat_map (fun p => match cancel p with
                     | Some ctx => [ctx]
                     | None => []
                     end) ps.

(** The context an event is about. *)
Definition ctxOf (ev : event) : nat :=
  match ev with
  | Started ctx _ _ => ctx
  | Cancelled ctx => ctx
  end.

(** Along [prev :: ps], the Shared addresses go up, and a pager with a
    subprocess has it read the Shared of the pager just before. *)
Fixpoint wired (prev : pager) (ps : list pager) : Prop :=
  match ps with
  | [] => True
  | p :: rest =>
      (shared prev < shared p)%nat
      /\ (forall x, cmd p = Some x -> x = shared prev)
      /\ wired p rest
  end.

(** The number of leading pagers of [ps] whose command is the command of
    [cs] at the same place. *)
Fixpoint matching (ps : list pager) (cs : list Command) : nat :=
  match ps, cs with
  | p :: ps', c :: cs' =>
      if Equal (command p) c then S (matching ps' cs') else 0%nat
  | _, _ => 0%nat
  end.

(** Pager by pager, the commands are those of [cs]. *)
Definition aligned (ps : list pager) (cs : list Command) : Prop :=
  Forall2 (fun p c => Equal (command p) c = true) ps cs.

(** The model once the result of [parseInput] is recorded. *)
Definition applyParse (m : model) (cs : list Command) (ps : list Z) (e : error)
  : model :=
  match e with
  | Some _ => SetErr (SetErr m None) e
  | None => set_parse (SetErr m None) cs ps
  end.

Section ControllerStates.

Variable Parse : string -> list Command * list Z * error.
Variable quote : string -> string.
Variable startProcess : nat -> Command -> error.

(** The three ways [newCommandPager r c] ends in the world [w]. *)
Inductive Launched (r : nat) (c : Command) (w : world) : pager -> world -> Prop :=
| Launched_empty :
    Empty c = true ->
    Launched r c w (placeholder (fresh w)) (mkWorld (S (fresh w)) (events w))
| Launched_failed (text : string) :
    Empty c = false ->
    startProcess (fresh w) c = Some text ->
    Launched r c w
      (mkPager true c None (S (fresh w)) (FromString text) None)
      (mkWorld (S (S (fresh w))) (events w ++ [Cancelled (fresh w)]))
| Launched_started :
    Empty c = false ->
    startProcess (fresh w) c = None ->
    Launched r c w
      (mkPager false c (Some r) (S (fresh w)) (FromProcess (fresh w))
         (Some (fresh w)))
      (mkWorld (S (S (fresh w)))
         (events w ++ [Started (fresh w) (Name c :: Args c) r])).

(** [Rebuilt r olds cs w news w']: from the world [w], the pagers [olds]
    are closed and replaced one after the other, in order, by the pagers
    [news] of the commands [cs]; the first new pager reads the Shared [r],
    each later one the Shared of the new pager before it. *)
Inductive Rebuilt : nat -> list pager -> list Command -> world ->
                    list pager -> world -> Prop :=
| Rebuilt_nil (r : nat) (w : world) : Rebuilt r [] [] w [] w
| Rebuilt_cons (r : nat) (old : pager) (olds : list pager) (c : Command)
    (cs : list Command) (w w1 w' : world) (p : pager) (news : list pager) :
    Launched r c (mkWorld (fresh w) (events w ++ closeEvents [old])) p w1 ->
    Rebuilt (shared p) olds cs w1 news w' ->
    Rebuilt r (old :: olds) (c :: cs) w (p :: news) w'.

(** The model [newModel] builds, and every model an edit leads to. *)
Inductive Reachable : model -> world -> Prop :=
| Reachable_new (w0 : world) (m : model) (w : world) :
    newModel w0 = Ok (m, w) -> Reachable m w
| Reachable_edit (m : model) (w : world) (value : string) (pos : Z)
    (m' : model) (cmds : list nat) (w' : world) :
    Reachable m w ->
    edit Parse quote startProcess value pos m w = Ok ((m', cmds), w') ->
    Reachable m' w'.

(** A session: [newModel] in the world [w0], then edits. *)
Inductive Session (w0 : world) : model -> world -> Prop :=
| Session_new (m : model) (w : world) :
    newModel w0 = Ok (m, w) -> Session w0 m w
| Session_edit (m : model) (w : world) (value : string) (pos : Z)
    (m' : model) (cmds : list nat) (w' : world) :
    Session w0 m w ->
    edit Parse quote startProcess value pos m w = Ok ((m', cmds), w') ->
    Session w0 m' w'.

End ControllerStates.

(** The first pager reads the input, the pagers after it have the
    commands of the last good parse, the pagers beyond those have nothing
    to cancel, and the contexts are distinct and older than the world's
    next address. *)
Definition Inv (m : model) (w : world) : Prop :=
  (exists p0 rest excess,
      pagers m = p0 :: rest ++ excess
      /\ source p0 = FromInput
      /\ aligned rest (commands m)
      /\ ctxs excess = [])
  /\ NoDup (ctxs (pagers m))
  /\ Forall (fun ctx => (ctx < fresh w)%nat) (ctxs (pagers m)).

(** * Facts about the Go primitives *)

Section GoFacts.

Context {A : Type}.

Lemma len_nonneg (s : list A) : 0 <= len s.
Proof. unfold len. lia. Qed.

Lemma len_app (s t : list A) : len (s ++ t) = len s + len t.
Proof. unfold len. rewrite length_app. lia. Qed.

Lemma len_nil_iff (s : list A) : len s = 0 <-> s = [].
Proof.
  unfold len. destruct s; simpl; split; intro H; try reflexivity;
    try discriminate; lia.
Qed.

Lemma slice_ok (s : list A) (lo hi : Z) :
  0 <= lo -> lo <= hi -> hi <= len s ->
  slice s lo hi = Ok (firstn (Z.to_nat (hi - lo)) (skipn (Z.to_nat lo) s)).
Proof.
  intros H1 H2 H3. unfold slice.
  destruct (0 <=? lo) eqn:E1; [|lia].
  destruct (lo <=? hi) eqn:E2; [|lia].
  destruct (hi <=? len s) eqn:E3; [|lia].
  reflexivity.
Qed.

Lemma slice_panics (s : list A) (lo hi : Z) :
  lo < 0 \/ hi < lo \/ len s < hi -> slice s lo hi = Panic.
Proof.
  intros H. unfold slice.
  destruct (0 <=? lo) eqn:E1; simpl; [|reflexivity].
  destruct (lo <=? hi) eqn:E2; simpl; [|reflexivity].
  destruct (hi <=? len s) eqn:E3; simpl; [|reflexivity].
  lia.
Qed.

Lemma sliceFrom_ok (s : list A) (lo : Z) :
  0 <= lo -> lo <= len s -> sliceFrom s lo = Ok (skipn (Z.to_nat lo) s).
Proof.
  intros H1 H2. unfold sliceFrom. rewrite slice_ok by lia.
  f_equal. apply firstn_all2. rewrite length_skipn. unfold len in *. lia.
Qed.

Lemma index_ok (s : list A) (i : Z) (d : A) :
  0 <= i -> i < len s -> index s i = Ok (nth (Z.to_nat i) s d).
Proof.
  intros H1 H2. unfold index.
  destruct (0 <=? i) eqn:E1; [|lia].
  destruct (i <? len s) eqn:E2; [|lia].
  simpl. unfold len in H2.
  destruct (nth_error s (Z.to_nat i)) eqn:E.
  - f_equal. symmetry. apply nth_error_nth. exact E.
  - apply nth_error_None in E. lia.
Qed.

Lemma index_last (s : list A) (d : A) :
  s <> [] -> index s (len s - 1) = Ok (last s d).
Proof.
  intros H. assert (0 < len s).
  { pose proof (len_nonneg s). destruct (Z.eq_dec (len s) 0) as [E|E]; [|lia].
    apply len_nil_iff in E. contradiction. }
  rewrite index_ok with (d := d) by lia. f_equal.
  destruct (exists_last H) as [s' [a ->]].
  rewrite last_last. unfold len. rewrite length_app. simpl.
  replace (Z.to_nat (Z.of_nat (List.length s' + 1) - 1)) with (List.length s') by lia.
  rewrite app_nth2 by lia. rewrite Nat.sub_diag. reflexivity.
Qed.

End GoFacts.

Lemma IndexByte_lt (s : list byte) (c : byte) : IndexByte s c < len s.
Proof.
  induction s as [|x s IH]; unfold len in *; simpl; [lia|].
  destruct (Byte.eqb x c); [lia|].
  destruct (IndexByte s c <? 0) eqn:E; lia.
Qed.

Lemma IndexByte_ge (s : list byte) (c : byte) : -1 <= IndexByte s c.
Proof.
  induction s as [|x s IH]; simpl; [lia|].
  destruct (Byte.eqb x c); [lia|].
  destruct (IndexByte s c <? 0) eqn:E; lia.
Qed.

Lemma IndexByte_app (s t : list byte) (c : byte) :
  0 <= IndexByte s c -> IndexByte (s ++ t) c = IndexByte s c.
Proof.
  induction s as [|x s IH]; simpl; [lia|].
  destruct (Byte.eqb x c); [reflexivity|].
  destruct (IndexByte s c <? 0) eqn:E; [lia|].
  intros _. rewrite IH by lia. rewrite E. reflexivity.
Qed.

Lemma IndexByte_In (s : list byte) (c : byte) :
  In c s -> 0 <= IndexByte s c.
Proof.
  induction s as [|x s IH]; simpl; [tauto|].
  intros [->|H].
  - rewrite (byte_dec_lb eq_refl). lia.
  - destruct (Byte.eqb x c); [lia|].
    specialize (IH H). destruct (IndexByte s c <? 0) eqn:E; lia.
Qed.

(** * The line index of a Buffer *)

Lemma appendLine_ok (b : Buffer) (s e : Z) :
  0 <= s -> s <= e -> e <= len (buf b) ->
  appendLine b s e = Ok (mkBuffer (buf b) (lines b ++ [entryOf (buf b) s e])).
Proof.
  intros H1 H2 H3. unfold appendLine. rewrite slice_ok by assumption.
  reflexivity.
Qed.

Lemma len_firstn_skipn (B : list byte) (s e : Z) :
  0 <= s -> s <= e -> e <= len B ->
  len (firstn (Z.to_nat (e - s)) (skipn (Z.to_nat s) B)) = e - s.
Proof.
  intros. unfold len in *. rewrite length_firstn, length_skipn. lia.
Qed.

Lemma entryOf_at0 (B : list byte) (s e : Z) : at0 (entryOf B s e) = s.
Proof. reflexivity. Qed.

Lemma entryOf_at2 (B : list byte) (s e : Z) :
  0 <= s -> s <= e -> e <= len B -> at2 (entryOf B s e) = e.
Proof.
  intros. unfold entryOf. simpl. rewrite len_firstn_skipn by assumption. lia.
Qed.

Lemma firstn_skipn_app (S p : list byte) (s e : Z) :
  0 <= s -> s <= e -> e <= len S ->
  firstn (Z.to_nat (e - s)) (skipn (Z.to_nat s) (S ++ p)) =
  firstn (Z.to_nat (e - s)) (skipn (Z.to_nat s) S).
Proof.
  intros H1 H2 H3. unfold len in H3. rewrite skipn_app.
  rewrite firstn_app.
  replace (Z.to_nat (e - s) - List.length (skipn (Z.to_nat s) S))%nat with 0%nat
    by (rewrite length_skipn; lia).
  simpl. apply app_nil_r.
Qed.

Lemma entryOf_app (S p : list byte) (s e : Z) :
  0 <= s -> s <= e -> e <= len S -> entryOf (S ++ p) s e = entryOf S s e.
Proof.
  intros. unfold entryOf. rewrite firstn_skipn_app by assumption. reflexivity.
Qed.

Lemma nextLF_bound (B : list byte) (pos : Z) :
  0 <= pos -> 0 <= nextLF B pos -> pos + nextLF B pos < len B.
Proof.
  intros H1 H2. unfold nextLF in *.
  pose proof (IndexByte_lt (skipn (Z.to_nat pos) B) LF) as H.
  unfold len in *. rewrite length_skipn in H. lia.
Qed.

Lemma nextLF_app (S p : list byte) (pos : Z) :
  0 <= pos -> 0 <= nextLF S pos -> nextLF (S ++ p) pos = nextLF S pos.
Proof.
  intros H1 H2. unfold nextLF in *. rewrite skipn_app.
  apply IndexByte_app. exact H2.
Qed.

Lemma Chain_app (B : list byte) (a m c : Z) (T1 T2 : list entry) :
  Chain B a T1 m -> Chain B m T2 c -> Chain B a (T1 ++ T2) c.
Proof.
  induction 1 as [|pos T pos' H1 H2 H3 IH]; intro H; simpl; [exact H|].
  constructor; auto.
Qed.

Lemma Chain_snoc_inv (B : list byte) (T : list entry) (e : entry) :
  forall a c, Chain B a (T ++ [e]) c ->
              exists m, Chain B a T m /\ Chain B m [e] c.
Proof.
  induction T as [|x T IH]; intros a c H; simpl in H.
  - exists a. split; [constructor | exact H].
  - inversion H as [|? ? ? Hp Hn Hc]; subst.
    destruct (IH _ _ Hc) as [m [Ha Hb]].
    exists m. split; [constructor; assumption | exact Hb].
Qed.

Lemma Chain_bounds (B : list byte) (a c : Z) (T : list entry) :
  Chain B a T c -> 0 <= a -> a <= len B -> a <= c /\ c <= len B.
Proof.
  induction 1 as [|pos T pos' H1 H2 H3 IH]; intros Ha Hb; [lia|].
  pose proof (nextLF_bound B pos H1 H2). lia.
Qed.

Lemma Chain_prefix (S p : list byte) (a c : Z) (T : list entry) :
  Chain S a T c -> Chain (S ++ p) a T c.
Proof.
  induction 1 as [|pos T pos' H1 H2 H3 IH]; [constructor|].
  pose proof (nextLF_bound S pos H1 H2).
  rewrite <- (entryOf_app S p) by lia.
  pose proof (nextLF_app S p pos H1 H2) as E. rewrite <- E in *.
  constructor; assumption.
Qed.

Lemma Chain_det (B : list byte) (a c1 : Z) (T1 : list entry) :
  Chain B a T1 c1 -> Done B c1 ->
  forall T2 c2, Chain B a T2 c2 -> Done B c2 -> T1 = T2 /\ c1 = c2.
Proof.
  unfold Done.
  induction 1 as [|pos T pos' H1 H2 H3 IH]; intros Hd T2 c2 H' Hd'.
  - inversion H' as [|? ? ? Hp Hn Hc]; subst; [auto | lia].
  - inversion H' as [|? ? ? Hp Hn Hc]; subst; [lia|].
    destruct (IH Hd _ _ Hc Hd') as [-> ->]. auto.
Qed.

(** Where the chain stands is what [lastLineEnd] computes from its entries. *)
Lemma Chain_lastLineEnd (B B' : list byte) (T : list entry) (c : Z) :
  Chain B 0 T c -> lastLineEnd (mkBuffer B' T) = Ok c.
Proof.
  intros H. unfold lastLineEnd. simpl.
  destruct T as [|x T] using rev_ind.
  - inversion H; subst. reflexivity.
  - clear IHT. destruct (Chain_snoc_inv _ _ _ _ _ H) as [m [Ha Hb]].
    assert ((0 <? len (T ++ [x])) = true) as ->.
    { rewrite len_app. unfold len. simpl. pose proof (len_nonneg T). unfold len in *. lia. }
    rewrite index_last with (d := x) by (destruct T; discriminate).
    rewrite last_last. simpl.
    inversion Hb as [|? ? ? Hp Hn Hc]; subst. inversion Hc; subst.
    pose proof (nextLF_bound B _ Hp Hn).
    rewrite entryOf_at2 by lia. reflexivity.
Qed.

(** One turn of the loop of [Append], as the source writes it. *)
Lemma scanLines_eq (b : Buffer) (lle j : Z) (lineBuf : list byte) :
  scanLines b lle j lineBuf =
  if IndexByte lineBuf LF <? 0 then Ok b
  else b' <- appendLine b (lle + j) (lle + j + IndexByte lineBuf LF) ;;
       rest <- sliceFrom lineBuf (IndexByte lineBuf LF + 1) ;;
       scanLines b' lle (j + IndexByte lineBuf LF + 1) rest.
Proof.
  simp scanLines.
  destruct (Z_lt_dec (IndexByte lineBuf LF) 0) as [Hlt|Hge]; simpl.
  - destruct (IndexByte lineBuf LF <? 0) eqn:E; [reflexivity | lia].
  - destruct (IndexByte lineBuf LF <? 0) eqn:E; [lia|].
    destruct (appendLine b _ _) as [b'|]; simpl; [|reflexivity].
    destruct (sliceFrom lineBuf (IndexByte lineBuf LF + 1)); reflexivity.
Qed.

(** The loop of [Append] never panics when it starts inside the buffer; it
    appends a chain of entries and stops where no newline is left. *)
Lemma scanLines_chain (n : nat) :
  forall (b : Buffer) (lle j : Z),
    0 <= lle -> 0 <= j -> lle + j <= len (buf b) ->
    (List.length (skipn (Z.to_nat (lle + j)) (buf b)) <= n)%nat ->
    exists T pos,
      scanLines b lle j (skipn (Z.to_nat (lle + j)) (buf b))
      = Ok (mkBuffer (buf b) (lines b ++ T))
      /\ Chain (buf b) (lle + j) T pos /\ Done (buf b) pos.
Proof.
  induction n as [|n IH]; intros b lle j Hl Hj Hb Hn;
    rewrite scanLines_eq;
    fold (nextLF (buf b) (lle + j));
    destruct (nextLF (buf b) (lle + j) <? 0) eqn:E.
  1, 3: exists [], (lle + j); rewrite app_nil_r; destruct b; simpl in *;
        split; [reflexivity | split; [apply Chain_nil | unfold Done; lia]].
  - pose proof (IndexByte_lt (skipn (Z.to_nat (lle + j)) (buf b)) LF) as H.
    unfold nextLF, len in *. lia.
  - assert (0 <= nextLF (buf b) (lle + j)) as Hi by lia.
    pose proof (nextLF_bound (buf b) (lle + j) ltac:(lia) Hi) as Hlt.
    set (i := nextLF (buf b) (lle + j)) in *.
    rewrite appendLine_ok by lia. simpl.
    rewrite sliceFrom_ok; [| lia |].
    2:{ unfold len in *. rewrite length_skipn. lia. }
    cbn [bind]. rewrite skipn_skipn.
    replace (Z.to_nat (i + 1) + Z.to_nat (lle + j))%nat
      with (Z.to_nat (lle + (j + i + 1))) by lia.
    set (b' := mkBuffer (buf b) (lines b ++ [entryOf (buf b) (lle + j) (lle + j + i)])).
    destruct (IH b' lle (j + i + 1)) as [T [pos [HT [HC HD]]]];
      try (simpl; lia).
    { simpl. rewrite length_skipn in *. unfold len in *. lia. }
    exists (entryOf (buf b) (lle + j) (lle + j + i) :: T), pos.
    change (buf b') with (buf b) in *.
    split; [|split].
    + rewrite HT. simpl. rewrite <- app_assoc. reflexivity.
    + constructor; [lia | exact Hi |].
      fold i. replace (lle + j + i + 1) with (lle + (j + i + 1)) by lia.
      exact HC.
    + exact HD.
Qed.

Lemma Indexed_newBuffer : Indexed newBuffer.
Proof.
  exists [], 0. split; [constructor|]. split; [|reflexivity].
  unfold Done, nextLF. simpl. lia.
Qed.

Lemma Indexed_unique (b1 b2 : Buffer) :
  Indexed b1 -> Indexed b2 -> buf b1 = buf b2 -> b1 = b2.
Proof.
  intros (T1 & c1 & HC1 & HD1 & HL1) (T2 & c2 & HC2 & HD2 & HL2) E.
  destruct b1 as [B1 L1], b2 as [B2 L2]. simpl in *. subst B2.
  destruct (Chain_det _ _ _ _ HC1 HD1 _ _ HC2 HD2) as [-> ->]. congruence.
Qed.

(** Dropping the last entry of an indexed buffer leaves a chain. *)
Lemma Indexed_removelast (b : Buffer) :
  Indexed b ->
  exists T1 m,
    (if 0 <? len (lines b) then removelast (lines b) else lines b) = T1
    /\ Chain (buf b) 0 T1 m.
Proof.
  intros (T & pos & HC & HD & HL). rewrite HL. unfold trailing.
  destruct (Byte.eqb (last (buf b) LF) LF).
  - rewrite app_nil_r. destruct T as [|x T] using rev_ind.
    + exists [], 0. split; [reflexivity | constructor].
    + clear IHT. destruct (Chain_snoc_inv _ _ _ _ _ HC) as [m [Ha Hb]].
      exists T, m. split; [|exact Ha].
      rewrite len_app. pose proof (len_nonneg T). unfold len at 2. simpl.
      destruct (0 <? len T + 1) eqn:E; [|lia].
      apply removelast_last.
  - exists T, pos. split; [|exact HC].
    rewrite len_app. pose proof (len_nonneg T). unfold len at 2. simpl.
    destruct (0 <? len T + 1) eqn:E; [|lia].
    apply removelast_last.
Qed.

(** [Append] never panics on an indexed buffer, and the result is the
    indexed buffer of the longer byte sequence. *)
Lemma Append_Indexed (b : Buffer) (p : list byte) :
  Indexed b ->
  exists b', Append b p = Ok b' /\ Indexed b' /\ buf b' = buf b ++ p.
Proof.
  intros HI. unfold Append.
  destruct (len p =? 0) eqn:Ep.
  - exists b. apply Z.eqb_eq, len_nil_iff in Ep. subst p.
    rewrite app_nil_r. auto.
  - assert (p <> []) as Hp.
    { intros ->. unfold len in Ep. simpl in Ep. discriminate. }
    destruct (Indexed_removelast b HI) as (T1 & m & HT1 & HC1).
    assert ((if 0 <? len (lines b)
             then mkBuffer (buf b) (removelast (lines b)) else b)
            = mkBuffer (buf b) T1) as ->.
    { rewrite <- HT1. destruct (0 <? len (lines b)); [reflexivity|].
      destruct b; reflexivity. }
    rewrite (Chain_lastLineEnd _ (buf b) _ _ HC1). cbn [bind buf lines].
    destruct (Chain_bounds _ _ _ _ HC1) as [Hm0 Hm1]; [lia | apply len_nonneg |].
    set (B' := buf b ++ p).
    assert (len B' = len (buf b) + len p) as HlenB by apply len_app.
    pose proof (len_nonneg p) as Hp0.
    assert (0 < len p) as Hp1.
    { destruct (Z.eq_dec (len p) 0) as [E|E]; [|lia].
      apply len_nil_iff in E. contradiction. }
    rewrite sliceFrom_ok by lia. cbn [bind].
    destruct (scanLines_chain (List.length B') (mkBuffer B' T1) m 0)
      as (T2 & pos' & HS & HC2 & HD2); try (simpl; lia).
    { simpl. rewrite length_skipn. lia. }
    rewrite Z.add_0_r in HS, HC2. simpl in HS, HC2, HD2.
    rewrite HS. cbn [bind buf lines].
    assert (Chain B' 0 (T1 ++ T2) pos') as HC.
    { eapply Chain_app; [|exact HC2]. apply Chain_prefix. exact HC1. }
    destruct (Chain_bounds _ _ _ _ HC) as [Hq0 Hq1]; [lia | apply len_nonneg |].
    rewrite index_last with (d := LF).
    2:{ intros E. apply (f_equal (@List.length byte)) in E.
        unfold B', len in *. rewrite length_app in E. simpl in E. lia. }
    cbn [bind].
    destruct (Byte.eqb (last B' LF) LF) eqn:El; cbn [negb].
    + exists (mkBuffer B' (T1 ++ T2)). split; [reflexivity|].
      split; [|reflexivity].
      exists (T1 ++ T2), pos'. simpl. unfold trailing. rewrite El.
      rewrite app_nil_r. auto.
    + rewrite (Chain_lastLineEnd _ B' _ _ HC). cbn [bind].
      rewrite appendLine_ok by (simpl; lia). cbn [buf lines].
      exists (mkBuffer B' ((T1 ++ T2) ++ [entryOf B' pos' (len B')])).
      split; [reflexivity|]. split; [|reflexivity].
      exists (T1 ++ T2), pos'. simpl. unfold trailing. rewrite El. auto.
Qed.

Lemma AppendAll_Indexed (chunks : list (list byte)) :
  forall b, Indexed b ->
  exists b', AppendAll b chunks = Ok b' /\ Indexed b'
             /\ buf b' = buf b ++ List.concat chunks.
Proof.
  induction chunks as [|c chunks IH]; intros b Hb; simpl.
  - exists b. rewrite app_nil_r. auto.
  - destruct (Append_Indexed b c Hb) as (b1 & -> & H1 & E1). simpl.
    destruct (IH b1 H1) as (b2 & -> & H2 & E2).
    exists b2. rewrite E2, E1, app_assoc. auto.
Qed.

(** * Buffer: chunking *)

(** C4.  Appending a byte sequence in any number of chunks, of any sizes,
    never panics and gives the buffer that one [Append] of the whole
    sequence gives: [Len], [NLines] and every [Line n] agree. *)
Theorem Append_chunking_invariant (chunks : list (list byte)) :
  exists b1 b2,
    AppendAll newBuffer chunks = Ok b1 /\
    Append newBuffer (List.concat chunks) = Ok b2 /\
    Len b1 = Len b2 /\
    NLines b1 = NLines b2 /\
    forall n, Line b1 n = Line b2 n.
Proof.
  destruct (AppendAll_Indexed chunks _ Indexed_newBuffer) as (b1 & H1 & I1 & E1).
  destruct (Append_Indexed _ (List.concat chunks) Indexed_newBuffer)
    as (b2 & H2 & I2 & E2).
  assert (b1 = b2) as <- by (apply Indexed_unique; congruence).
  exists b1, b1. auto.
Qed.

(** A [\r\n] pair cut between two calls. *)
Example Append_split_CRLF :
  AppendAll newBuffer [bytes "ab" ++ [CR]; [LF] ++ bytes "c"]
  = Append newBuffer (bytes "ab" ++ [CR; LF] ++ bytes "c").
Proof. vm_compute. reflexivity. Qed.

(** The cases of src/stream/buffer_test.go. *)
Example TestBufferBasic :
  (b <- Append newBuffer (bytes "hello" ++ [LF] ++ bytes "world" ++ [LF]) ;;
   Ok (Len b, NLines b, Line b 0, Line b 1))
  = Ok (12, 2, Ok (bytes "hello"), Ok (bytes "world")).
Proof. vm_compute. reflexivity. Qed.

Example TestBufferLineFeeds :
  (b <- Append newBuffer
          (bytes "hello" ++ [CR; LF] ++ bytes "world" ++ [LF]
           ++ bytes "line feeds" ++ [CR; LF; CR; LF]) ;;
   Ok (NLines b, Line b 0, Line b 1, Line b 2, Line b 3))
  = Ok (4, Ok (bytes "hello"), Ok (bytes "world"), Ok (bytes "line feeds"),
        Ok []).
Proof. vm_compute. reflexivity. Qed.

(** * Buffer: the content of a line *)

(** What [Line] returns for the entry [appendLine] records: the line up to
    its last carriage return, wherever that is. *)
Lemma entryOf_content (B : list byte) (s e : Z) :
  0 <= s -> s <= e -> e <= len B ->
  let line := firstn (Z.to_nat (e - s)) (skipn (Z.to_nat s) B) in
  slice B (at0 (entryOf B s e)) (at1 (entryOf B s e))
  = Ok (if LastIndexByte line CR <? 0 then line
        else firstn (Z.to_nat (LastIndexByte line CR)) line).
Proof.
  intros H1 H2 H3 line. unfold entryOf. fold line. simpl.
  assert (len line = e - s) as Hlen by (apply len_firstn_skipn; assumption).
  assert (LastIndexByte line CR < len line) as Hlt.
  { clear. induction line as [|x l IH]; unfold len in *; simpl; [lia|].
    destruct (0 <=? LastIndexByte l CR) eqn:E; [lia|].
    destruct (Byte.eqb x CR); lia. }
  destruct (LastIndexByte line CR <? 0) eqn:E.
  - rewrite slice_ok by lia. f_equal. rewrite Hlen.
    replace (s + (e - s) - s) with (e - s) by lia.
    reflexivity.
  - rewrite slice_ok by lia. f_equal.
    replace (s + LastIndexByte line CR - s) with (LastIndexByte line CR) by lia.
    transitivity (firstn (Z.to_nat (LastIndexByte line CR))
                    (firstn (Z.to_nat (e - s)) (skipn (Z.to_nat s) B)));
      [|reflexivity].
    rewrite firstn_firstn. f_equal. lia.
Qed.

(** C5.  The line [a\rb] followed by a newline: [Line 0] is [a], the
    carriage return inside the line and the [b] after it are cut off. *)
Theorem Line_cuts_at_inner_CR :
  exists b,
    Append newBuffer (bytes "a" ++ [CR] ++ bytes "b" ++ [LF]) = Ok b
    /\ NLines b = 1
    /\ Line b 0 = Ok (bytes "a")
    /\ Line b 0 <> Ok (bytes "a" ++ [CR] ++ bytes "b").
Proof.
  exists (mkBuffer (bytes "a" ++ [CR] ++ bytes "b" ++ [LF]) [mkEntry 0 1 3]).
  repeat split; try (vm_compute; reflexivity).
  vm_compute. discriminate.
Qed.

(** * Buffer: queries out of range *)

(** [ReadAt] past the end of the buffer panics. *)
Lemma ReadAt_past_end_panics : ReadAt newBuffer (make 4) 1 = Panic.
Proof. vm_compute. reflexivity. Qed.

(** C8, amended.  [Line n] is empty for every [n] out of range, on any
    buffer; [ReadAt] returns for every offset of [[0, Len()]], with no
    byte at [Len()], and panics for every other offset. *)
Theorem invalid_queries (b : Buffer) (p : list byte) (n off : Z) :
  (n < 0 \/ NLines b <= n -> Line b n = Ok []) /\
  (0 <= off <= Len b ->
   ReadAt b p off = Ok (copy p (skipn (Z.to_nat off) (buf b)))) /\
  (off = Len b -> ReadAt b p off = Ok (0, p)) /\
  (off < 0 \/ Len b < off -> ReadAt b p off = Panic).
Proof.
  unfold NLines, Len, Line, ReadAt. repeat split.
  - intros H. destruct (n <? 0) eqn:E1; [reflexivity|].
    destruct (n >=? len (lines b)) eqn:E2; [reflexivity | lia].
  - intros H. rewrite sliceFrom_ok by lia. reflexivity.
  - intros ->. rewrite sliceFrom_ok by (pose proof (len_nonneg (buf b)); lia).
    simpl. rewrite skipn_all2 by (unfold len; lia).
    unfold copy. change (len (@nil byte)) with 0.
    pose proof (len_nonneg p). rewrite Z.min_r by lia. reflexivity.
  - intros H. unfold sliceFrom. rewrite slice_panics; [reflexivity | lia].
Qed.

Lemma invalid_queries_witness :
  Line newBuffer 0 = Ok [] /\
  ReadAt newBuffer (make 4) 0 = Ok (0, make 4).
Proof.
  split.
  - apply (invalid_queries newBuffer (make 4) 0 0). right. vm_compute. discriminate.
  - apply (invalid_queries newBuffer (make 4) 0 0). vm_compute. reflexivity.
Defined.

(** * Reader: the offset *)

(** C1.  A Shared over the three bytes [abc] and one Reader with a buffer
    of four bytes.  The first [Read] fetches [abc] from the underlying
    reader and returns 3, but leaves the Reader's offset at 0; the second
    [Read] serves the cached bytes from offset 0 and returns [abc] again. *)
Theorem Read_fetch_keeps_offset :
  exists s1 s2 p1 p2,
    Read bytesRead (NewShared (bytes "abc")) (newReader) (make 4)
    = Ok (mkReadResult 3 None p1 s1 (mkReader 0))
    /\ firstn 3 p1 = bytes "abc"
    /\ Read bytesRead s1 (mkReader 0) (make 4)
       = Ok (mkReadResult 3 None p2 s2 (mkReader 3))
    /\ firstn 3 p2 = bytes "abc".
Proof.
  exists (mkShared (mkBuffer (bytes "abc") [mkEntry 0 3 3]) []).
  exists (mkShared (mkBuffer (bytes "abc") [mkEntry 0 3 3]) []).
  exists (bytes "abc" ++ make 1), (bytes "abc" ++ make 1).
  repeat split; vm_compute; reflexivity.
Qed.

(** The fetching branch of [Read] never moves the offset. *)
Lemma readUnderlying_offset (R : Type)
  (rRead : R -> list byte -> Z * error * list byte * R)
  (s : Shared R) (rd : Reader) (p : list byte) (res : ReadResult R) :
  readUnderlying rRead s rd p = Ok res -> rr_reader res = rd.
Proof.
  unfold readUnderlying. destruct (rRead (r s) p) as [[[n e] p'] r'].
  destruct (0 <? n).
  - destruct (sliceTo p' n) as [pn|]; simpl; [|discriminate].
    destruct (Append (sbuf s) pn); simpl; [|discriminate].
    intros [= <-]. reflexivity.
  - intros [= <-]. reflexivity.
Qed.

(** * Reader: errors of the underlying reader *)

Section ReaderErrors.

Variable R : Type.
Variable rRead : R -> list byte -> Z * error * list byte * R.

(** The contract of [io.Reader]: [Read] returns at most [len(p)] bytes. *)
Hypothesis rRead_count :
  forall r p n e p' r', rRead r p = (n, e, p', r') -> n <= len p'.

(** A [Read] whose offset the buffer does not cover returns what the
    underlying reader returns and appends the bytes read. *)
Lemma Read_uncovered (s : Shared R) (rd : Reader) (p : list byte)
  (n : Z) (e : error) (p' : list byte) (r' : R) :
  Indexed (sbuf s) ->
  Len (sbuf s) <= off rd ->
  rRead (r s) p = (n, e, p', r') ->
  exists b',
    Read rRead s rd p = Ok (mkReadResult n e p' (mkShared b' r') rd)
    /\ Indexed b'
    /\ buf b' = buf (sbuf s) ++ firstn (Z.to_nat n) p'.
Proof.
  intros HI Hoff HR. unfold Read.
  destruct (off rd <? Len (sbuf s)) eqn:E; [lia|].
  unfold readUnderlying. rewrite HR.
  pose proof (rRead_count _ _ _ _ _ _ HR) as Hn.
  destruct (0 <? n) eqn:En.
  - unfold sliceTo. rewrite slice_ok by lia. cbn [bind].
    rewrite Z.sub_0_r. cbn [skipn Z.to_nat].
    destruct (Append_Indexed _ (firstn (Z.to_nat n) p') HI) as (b' & -> & HI' & Hb).
    exists b'. auto.
  - exists (sbuf s). replace (Z.to_nat n) with 0%nat by lia.
    simpl. rewrite app_nil_r. auto.
Qed.

(** C9.  When the buffer does not cover a Reader's offset, [Read] returns
    the error of the underlying reader together with the count it
    returned, and the bytes read are appended to the buffer.  The Shared
    keeps the buffer and the underlying reader only: a later [Read] by any
    Reader the buffer does not cover reads the underlying reader again and
    returns what that call returns. *)
Theorem Read_error_not_cached (s : Shared R) (rd : Reader) (p : list byte)
  (n : Z) (e : string) (p' : list byte) (r' : R) :
  Indexed (sbuf s) ->
  Len (sbuf s) <= off rd ->
  rRead (r s) p = (n, Some e, p', r') ->
  exists s',
    Read rRead s rd p = Ok (mkReadResult n (Some e) p' s' rd)
    /\ r s' = r'
    /\ buf (sbuf s') = buf (sbuf s) ++ firstn (Z.to_nat n) p'
    /\ forall (rd2 : Reader) (p2 : list byte),
         Len (sbuf s') <= off rd2 ->
         exists res,
           Read rRead s' rd2 p2 = Ok res
           /\ (rr_n res, rr_err res, rr_p res, r (rr_shared res))
              = rRead r' p2.
Proof.
  intros HI Hoff HR.
  destruct (Read_uncovered s rd p _ _ _ _ HI Hoff HR)
    as (b' & HRead & HI' & Hb).
  exists (mkShared b' r'). repeat split; try assumption.
  intros rd2 p2 Hoff2.
  destruct (rRead r' p2) as [[[n2 e2] p2'] r2] eqn:HR2.
  destruct (Read_uncovered (mkShared b' r') rd2 p2 _ _ _ _ HI' Hoff2 HR2)
    as (b2 & HRead2 & _ & _).
  eexists. split; [exact HRead2 | reflexivity].
Qed.

End ReaderErrors.

Lemma bytesRead_count (unread p : list byte) (n : Z) (e : error)
  (p' unread' : list byte) :
  bytesRead unread p = (n, e, p', unread') -> n <= len p'.
Proof.
  unfold bytesRead. destruct (len unread =? 0).
  - intros [= <- _ <- _]. apply len_nonneg.
  - unfold copy. intros [= <- _ <- _].
    rewrite len_app. unfold len.
    rewrite length_firstn, length_skipn. lia.
Qed.

(** An exhausted reader: every uncovered [Read] returns [EOF]. *)
Lemma Read_error_not_cached_witness :
  exists s',
    Read bytesRead (NewShared []) newReader (make 4)
    = Ok (mkReadResult 0 (Some "EOF"%string) (make 4) s' newReader)
    /\ r s' = []
    /\ buf (sbuf s') = [] ++ firstn (Z.to_nat 0) (make 4)
    /\ forall (rd2 : Reader) (p2 : list byte),
         Len (sbuf s') <= off rd2 ->
         exists res,
           Read bytesRead s' rd2 p2 = Ok res
           /\ (rr_n res, rr_err res, rr_p res, r (rr_shared res))
              = bytesRead [] p2.
Proof.
  apply (Read_error_not_cached (list byte) bytesRead bytesRead_count
           (NewShared []) newReader (make 4) 0 "EOF"%string (make 4) []).
  - exact Indexed_newBuffer.
  - vm_compute. discriminate.
  - reflexivity.
Defined.

(** * The controller: phases of [updatePagers] *)

Lemma bindM_ok {S A B : Type} (x : M S A) (f : A -> M S B) (s s' : S) (a : A) :
  x s = Ok (a, s') -> bindM x f s = f a s'.
Proof. intros H. unfold bindM. rewrite H. reflexivity. Qed.

Lemma lift_ok {S A : Type} (a : A) (s : S) : lift (Ok a) s = Ok (a, s).
Proof. reflexivity. Qed.

Lemma newEmptyPager_ok (w : world) :
  newEmptyPager w = Ok (placeholder (fresh w), mkWorld (S (fresh w)) (events w)).
Proof. reflexivity. Qed.

Lemma close_ok (p : pager) (w : world) :
  close p w = Ok (tt, mkWorld (fresh w) (events w ++ closeEvents [p])).
Proof.
  unfold close, closeEvents. simpl. destruct (cancel p); simpl.
  - reflexivity.
  - rewrite !app_nil_r. destruct w; reflexivity.
Qed.

Lemma closeAll_ok (ps : list pager) :
  forall w, closeAll ps w
            = Ok (tt, mkWorld (fresh w) (events w ++ closeEvents ps)).
Proof.
  induction ps as [|p ps IH]; intros w; simpl.
  - unfold ret. rewrite app_nil_r. destruct w; reflexivity.
  - rewrite (bindM_ok _ _ _ _ _ (close_ok p w)). rewrite IH. simpl.
    rewrite app_nil_r, <- app_assoc. reflexivity.
Qed.

Lemma growPagers_ok (fuel : nat) :
  forall (n : Z) (m : model) (cmds : list nat) (w : world),
    (Z.to_nat (n - len (pagers m)) <= fuel)%nat ->
    let k := Z.to_nat (n - len (pagers m)) in
    growPagers fuel n m cmds w
    = Ok ((set_pagers m (pagers m ++ map placeholder (seq (fresh w) k)),
           cmds ++ seq (fresh w) k),
          mkWorld (fresh w + k) (events w)).
Proof.
  induction fuel as [|fuel IH]; intros n m cmds w Hf k; simpl.
  - assert (k = 0%nat) as -> by lia. simpl. unfold ret.
    rewrite !app_nil_r, Nat.add_0_r. destruct m, w; reflexivity.
  - destruct (n >? len (pagers m)) eqn:E.
    + rewrite (bindM_ok _ _ _ _ _ (newEmptyPager_ok w)).
      rewrite IH; simpl; rewrite len_app; unfold len at 2 || idtac; simpl.
      2:{ unfold len in *. simpl. lia. }
      assert (k = S (Z.to_nat (n - (len (pagers m) + 1)))) as Hk
        by (unfold k, len in *; lia).
      rewrite Hk. simpl. rewrite <- !app_assoc. simpl.
      unfold len. simpl.
      replace (fresh w + S (Z.to_nat (n - (Z.of_nat (List.length (pagers m)) + 1))))%nat
        with (S (fresh w + Z.to_nat (n - (Z.of_nat (List.length (pagers m)) + 1))))%nat by lia.
      reflexivity.
    + assert (k = 0%nat) as -> by (unfold k; lia). simpl. unfold ret.
      rewrite !app_nil_r, Nat.add_0_r. destruct m, w; reflexivity.
Qed.

Lemma index_app_mid {A : Type} (front suf : list A) (a : A) :
  index (front ++ a :: suf) (len front) = Ok a.
Proof.
  rewrite index_ok with (d := a).
  - unfold len. rewrite Nat2Z.id, nth_middle. reflexivity.
  - apply len_nonneg.
  - rewrite len_app. unfold len. simpl. lia.
Qed.

Lemma index_app_prev {A : Type} (front suf : list A) (a : A) :
  index ((front ++ [a]) ++ suf) (len front) = Ok a.
Proof. rewrite <- app_assoc. apply index_app_mid. Qed.

Lemma setIndex_app_mid {A : Type} (front suf : list A) (a b : A) :
  setIndex (front ++ a :: suf) (len front) b = Ok (front ++ b :: suf).
Proof.
  unfold setIndex.
  assert ((0 <=? len front) && (len front <? len (front ++ a :: suf)) = true)
    as ->.
  { rewrite len_app. unfold len. simpl.
    apply andb_true_intro. split; [apply Z.leb_le | apply Z.ltb_lt]; lia. }
  unfold len. rewrite Nat2Z.id. f_equal.
  rewrite firstn_app, firstn_all, Nat.sub_diag, firstn_0, app_nil_r.
  f_equal. f_equal. rewrite skipn_app, skipn_all2 by lia.
  replace (S (List.length front) - List.length front)%nat with 1%nat by lia.
  reflexivity.
Qed.

Lemma slicesEqual_refl (s : list string) : slicesEqual s s = true.
Proof.
  induction s as [|x s IH]; simpl; [reflexivity|].
  rewrite String.eqb_refl. exact IH.
Qed.

Lemma Equal_refl (c : Command) : Equal c c = true.
Proof. apply slicesEqual_refl. Qed.

(** [Equal] is equality of the argument vectors, token by token. *)
Lemma Equal_iff (p q : Command) : Equal p q = true <-> Argv p = Argv q.
Proof.
  unfold Equal. generalize (Argv p) (Argv q). clear.
  induction l as [|x s IH]; intros [|y t]; simpl; split; intro H;
    try reflexivity; try discriminate.
  - apply andb_prop in H. destruct H as [H1 H2].
    apply String.eqb_eq in H1. apply IH in H2. congruence.
  - injection H as -> ->. rewrite String.eqb_refl. apply slicesEqual_refl.
Qed.

Lemma matching_le (ps : list pager) :
  forall cs, (matching ps cs <= List.length ps)%nat.
Proof.
  induction ps as [|p ps IH]; intros [|c cs]; simpl; try lia.
  destruct (Equal (command p) c); [specialize (IH cs)|]; lia.
Qed.

Lemma matching_aligned (ps : list pager) :
  forall cs, aligned (firstn (matching ps cs) ps) (firstn (matching ps cs) cs).
Proof.
  induction ps as [|p ps IH]; intros [|c cs]; simpl; try constructor.
  destruct (Equal (command p) c) eqn:E; simpl; constructor; [exact E | apply IH].
Qed.

Lemma matching_mismatch (ps : list pager) :
  forall cs, List.length ps = List.length cs ->
    (matching ps cs < List.length ps)%nat ->
    exists p c, nth_error ps (matching ps cs) = Some p
                /\ nth_error cs (matching ps cs) = Some c
                /\ Equal (command p) c = false.
Proof.
  induction ps as [|p ps IH]; intros [|c cs] Hlen Hlt; simpl in *; try lia.
  destruct (Equal (command p) c) eqn:E.
  - apply IH; lia.
  - exists p, c. auto.
Qed.

Lemma aligned_matching (ps : list pager) :
  forall cs, aligned ps cs -> matching ps cs = List.length ps.
Proof.
  intros cs H. induction H as [|p c ps cs E H IH]; simpl; [reflexivity|].
  rewrite E, IH. reflexivity.
Qed.

(** The scan for the rebuild index, on pagers and commands side by side. *)
Lemma findRebuildIdx_from (rest : list pager) :
  forall (cs cpre : list Command) (i : Z),
    i = len cpre + 1 ->
    List.length rest = List.length cs ->
    findRebuildIdx rest i (cpre ++ cs)
    = Ok (if (matching rest cs <? List.length rest)%nat
          then i + Z.of_nat (matching rest cs) else -1).
Proof.
  induction rest as [|p rest IH]; intros [|c cs] cpre i Hi Hlen;
    simpl in *; try discriminate; [reflexivity|].
  pose proof (len_nonneg cpre) as H0.
  destruct (i =? 0) eqn:E0; [lia|].
  replace (i - 1) with (len cpre) by lia.
  rewrite index_app_mid. cbn [bind].
  destruct (Equal (command p) c) eqn:E; cbn [negb].
  - change (cpre ++ c :: cs) with (cpre ++ [c] ++ cs). rewrite app_assoc.
    rewrite IH; [| rewrite len_app; unfold len in *; simpl; lia | lia].
    change (S (matching rest cs) <? S (List.length rest))%nat
      with (matching rest cs <? List.length rest)%nat.
    destruct (matching rest cs <? List.length rest)%nat; [f_equal; lia | reflexivity].
  - simpl. f_equal. lia.
Qed.

Lemma findRebuildIdx_ok (p0 : pager) (rest : list pager) (cs : list Command) :
  List.length rest = List.length cs ->
  findRebuildIdx (p0 :: rest) 0 cs
  = Ok (if (matching rest cs <? List.length rest)%nat
        then Z.of_nat (matching rest cs) + 1 else -1).
Proof.
  intros Hlen.
  change (findRebuildIdx (p0 :: rest) 0 cs)
    with (findRebuildIdx rest (0 + 1) ([] ++ cs)).
  rewrite (findRebuildIdx_from rest cs [] (0 + 1) eq_refl Hlen).
  destruct (matching rest cs <? List.length rest)%nat; [f_equal; lia | reflexivity].
Qed.

Section ControllerFacts.

Variable Parse : string -> list Command * list Z * error.
Variable quote : string -> string.
Variable startProcess : nat -> Command -> error.

Local Abbreviation newCommandPager := (newCommandPager startProcess).
Local Abbreviation rebuildLoop := (rebuildLoop startProcess).
Local Abbreviation parseInput := (parseInput Parse quote).
Local Abbreviation updatePagers := (updatePagers Parse quote startProcess).
Local Abbreviation edit := (edit Parse quote startProcess).
Local Abbreviation Launched := (Launched startProcess).
Local Abbreviation Rebuilt := (Rebuilt startProcess).
Local Abbreviation Reachable := (Reachable Parse quote startProcess).

Lemma newCommandPager_ok (r : nat) (c : Command) (w : world) :
  exists p w', newCommandPager r c w = Ok (p, w') /\ Launched r c w p w'.
Proof.
  unfold Pex.newCommandPager. destruct (Empty c) eqn:E.
  - eexists _, _. split; [apply newEmptyPager_ok | constructor; exact E].
  - unfold bindM, alloc. destruct (startProcess (fresh w) c) as [text|] eqn:Es.
    + eexists _, _. split; [reflexivity|].
      apply (Launched_failed startProcess r c w text E Es).
    + eexists _, _. split; [reflexivity|].
      apply (Launched_started startProcess r c w E Es).
Qed.

Lemma Empty_Argv (c : Command) : Empty c = true -> Argv c = [].
Proof. unfold Empty. intros H. apply Z.eqb_eq, len_nil_iff in H. exact H. Qed.

Lemma Launched_Equal (r : nat) (c : Command) (w : world) (p : pager) (w' : world) :
  Launched r c w p w' -> Equal (command p) c = true.
Proof.
  intros [H | text H _ | H _]; simpl; try apply Equal_refl.
  unfold Equal. simpl. rewrite (Empty_Argv c H). reflexivity.
Qed.

Lemma set_pagers_same (m : model) : set_pagers m (pagers m) = m.
Proof. destruct m; reflexivity. Qed.

Lemma set_pagers_twice (m : model) (ps qs : list pager) :
  set_pagers (set_pagers m ps) qs = set_pagers m qs.
Proof. reflexivity. Qed.

(** The rebuild loop, started at the first pager of [suf]. *)
Lemma rebuildLoop_ok (suf : list pager) :
  forall (front : list pager) (prev : pager) (cpre csuf : list Command)
         (m : model) (cmds : list nat) (w : world),
    pagers m = (front ++ [prev]) ++ suf ->
    commands m = cpre ++ csuf ->
    len front = len cpre ->
    List.length suf = List.length csuf ->
    exists news w',
      rebuildLoop (List.length suf) (len (front ++ [prev])) m cmds w
      = Ok ((set_pagers m ((front ++ [prev]) ++ news), cmds ++ map Init news), w')
      /\ Rebuilt (shared prev) suf csuf w news w'.
Proof.
  induction suf as [|old suf IH];
    intros front prev cpre [|c csuf] m cmds w Hp Hc Hf Hs;
    try discriminate; simpl.
  - exists [], w. split; [|constructor].
    unfold ret. rewrite !app_nil_r in *. rewrite <- Hp, set_pagers_same.
    reflexivity.
  - rewrite Hp.
    assert ((len (front ++ [prev]) <? len ((front ++ [prev]) ++ old :: suf))
            = true) as ->.
    { apply Z.ltb_lt. rewrite (len_app (front ++ [prev])).
      unfold len at 3. simpl. lia. }
    unfold bindM at 1. rewrite index_app_mid, lift_ok.
    unfold bindM at 1. rewrite close_ok.
    unfold bindM at 1.
    replace (len (front ++ [prev]) - 1) with (len front)
      by (rewrite len_app; unfold len; simpl; lia).
    rewrite index_app_prev, lift_ok.
    unfold bindM at 1. rewrite Hc, Hf, index_app_mid, lift_ok.
    destruct (newCommandPager_ok (shared prev) c
                (mkWorld (fresh w) (events w ++ closeEvents [old])))
      as (p & w1 & Hn & HL).
    unfold bindM at 1. rewrite Hn.
    unfold bindM at 1.
    rewrite setIndex_app_mid, lift_ok.
    destruct (IH (front ++ [prev]) p (cpre ++ [c]) csuf
                (set_pagers m ((front ++ [prev]) ++ p :: suf))
                (cmds ++ [Init p]) w1)
      as (news & w' & HR & HB).
    + cbn [pagers set_pagers]. rewrite <- (app_assoc (front ++ [prev])).
      reflexivity.
    + cbn [commands set_pagers]. rewrite Hc, <- app_assoc. reflexivity.
    + rewrite !len_app, Hf. reflexivity.
    + simpl in Hs. lia.
    + exists (p :: news), w'. split.
      * replace (len (front ++ [prev]) + 1) with (len ((front ++ [prev]) ++ [p]))
          by (rewrite (len_app (front ++ [prev])); unfold len; simpl; lia).
        rewrite HR. rewrite set_pagers_twice. simpl.
        rewrite <- !app_assoc. reflexivity.
      * econstructor; eassumption.
Qed.

Lemma pagers_applyParse (m : model) (cs : list Command) (ps : list Z) (e : error) :
  pagers (applyParse m cs ps e) = pagers m.
Proof. destruct e; reflexivity. Qed.

Lemma pagers_updateWindow (m : model) : pagers (updateWindow m) = pagers m.
Proof.
  unfold updateWindow. cbv zeta.
  repeat match goal with |- context [if ?c then _ else _] => destruct c end;
    reflexivity.
Qed.

Lemma commands_updateWindow (m : model) : commands (updateWindow m) = commands m.
Proof.
  unfold updateWindow. cbv zeta.
  repeat match goal with |- context [if ?c then _ else _] => destruct c end;
    reflexivity.
Qed.

Lemma pipes_updateWindow (m : model) : pipes (updateWindow m) = pipes m.
Proof.
  unfold updateWindow. cbv zeta.
  repeat match goal with |- context [if ?c then _ else _] => destruct c end;
    reflexivity.
Qed.

Lemma err_updateWindow (m : model) :
  err (updateWindow m) = err m /\ errText (updateWindow m) = errText m.
Proof.
  unfold updateWindow. cbv zeta.
  repeat match goal with |- context [if ?c then _ else _] => destruct c end;
    split; reflexivity.
Qed.

(** One pass of [updatePagers], phase by phase. *)
Lemma pass_ok (m : model) (w : world) (pc : list Command) (pp : list Z)
  (e : error) (p0 : pager) (old : list pager) :
  parseInput (inputValue m) = Ok (pc, pp, e) ->
  pagers m = p0 :: old ->
  let m1 := applyParse m pc pp e in
  let cs := commands m1 in
  let g := Z.to_nat (len cs - len old) in
  let all := old ++ map placeholder (seq (fresh w) g) in
  let rest := firstn (List.length cs) all in
  let excess := skipn (List.length cs) all in
  let k := matching rest cs in
  let w2 := mkWorld (fresh w + g) (events w ++ closeEvents excess) in
  exists news w',
    Rebuilt (shared (last (p0 :: firstn k rest) p0)) (skipn k rest) (skipn k cs)
      w2 news w'
    /\ updatePagers m w
       = Ok ((updateWindow (set_pagers m1 (p0 :: firstn k rest ++ news)),
              seq (fresh w) g ++ map Init news), w').
Proof.
  intros HP Hp m1 cs g all rest excess k w2.
  unfold Pex.updatePagers.
  unfold bindM at 1. rewrite HP, lift_ok. fold (applyParse m pc pp e). fold m1.
  fold cs.
  unfold bindM at 1.
  rewrite growPagers_ok by apply Nat.le_refl.
  cbv zeta.
  assert (pagers m1 = p0 :: old) as Hp1
    by (unfold m1; rewrite pagers_applyParse; exact Hp).
  rewrite Hp1.
  replace (Z.to_nat (len cs + 1 - len (p0 :: old))) with g
    by (unfold g, len; simpl; lia).
  cbn [pagers set_pagers commands app].
  change (old ++ map placeholder (seq (fresh w) g)) with all.
  assert (List.length cs <= List.length all)%nat as Hall.
  { unfold all, g, len. rewrite length_app, length_map, length_seq. lia. }
  assert (Z.to_nat (len cs + 1) = S (List.length cs)) as E1
    by (unfold len; lia).
  assert (List.length rest = List.length cs) as Hrest
    by (unfold rest; rewrite length_firstn; lia).
  unfold bindM at 1.
  rewrite sliceFrom_ok, lift_ok;
    [| unfold len; lia | unfold len; simpl; lia ].
  rewrite E1. cbn [skipn]. fold excess.
  unfold bindM at 1. rewrite closeAll_ok. cbn [fresh events]. fold w2.
  unfold bindM at 1. unfold sliceTo.
  rewrite slice_ok, lift_ok; [| lia | unfold len; lia | unfold len; simpl; lia ].
  rewrite Z.sub_0_r, E1. cbn [skipn Z.to_nat firstn]. fold rest.
  unfold bindM at 1.
  replace (commands m1) with cs by reflexivity.
  rewrite (findRebuildIdx_ok p0 rest cs Hrest), lift_ok. fold k.
  rewrite set_pagers_twice.
  pose proof (matching_le rest cs) as Hk. fold k in Hk.
  destruct (k <? List.length rest)%nat eqn:Ek.
  - apply Nat.ltb_lt in Ek.
    assert ((Z.of_nat k + 1 >? 0) = true) as -> by lia.
    set (F := p0 :: firstn k rest).
    assert (F = removelast F ++ [last F p0]) as HF
      by (apply app_removelast_last; discriminate).
    assert (List.length (removelast F) = k) as HlenF.
    { rewrite removelast_firstn_len, length_firstn. unfold F.
      cbn [List.length]. rewrite length_firstn. lia. }
    destruct (rebuildLoop_ok (skipn k rest) (removelast F) (last F p0)
                (firstn k cs) (skipn k cs) (set_pagers m1 (p0 :: rest))
                (seq (fresh w) g) w2)
      as (news & w' & HR & HB).
    + cbn [pagers set_pagers]. rewrite <- HF. unfold F. simpl.
      rewrite firstn_skipn. reflexivity.
    + cbn [commands set_pagers]. symmetry. apply firstn_skipn.
    + unfold len. rewrite HlenF, length_firstn. fold cs. lia.
    + rewrite !length_skipn. lia.
    + exists news, w'. split; [exact HB|].
      rewrite <- HF in HR.
      replace (List.length (skipn k rest))
        with (Z.to_nat (len (p0 :: rest) - (Z.of_nat k + 1))) in HR
        by (rewrite length_skipn; unfold len; cbn [List.length]; lia).
      replace (len F) with (Z.of_nat k + 1) in HR
        by (unfold F, len; cbn [List.length]; rewrite length_firstn; lia).
      unfold bindM. rewrite HR. rewrite set_pagers_twice. reflexivity.
  - apply Nat.ltb_ge in Ek. assert (k = List.length rest) as Ek' by lia.
    exists [], w2. rewrite Ek'. rewrite firstn_all, skipn_all.
    rewrite skipn_all2 by lia. split; [constructor|].
    rewrite app_nil_r. cbn [map]. rewrite app_nil_r. reflexivity.
Qed.

(** ** Facts about [parseInput] *)

Lemma parseInput_total (raw : string) :
  exists pc pp e, parseInput raw = Ok (pc, pp, e).
Proof.
  unfold Pex.parseInput. destruct (Parse raw) as [[pc pp] [text|]].
  - eexists _, _, _. reflexivity.
  - destruct (0 <? len pc) eqn:E; [|eexists _, _, _; reflexivity].
    destruct pc as [|c pc] using rev_ind; [discriminate|].
    rewrite index_last with (d := c) by (destruct pc; discriminate).
    cbn [bind]. destruct (_ && _); eexists _, _, _; reflexivity.
Qed.

Lemma parseInput_error (raw : string) (pc : list Command) (pp : list Z)
  (text : string) :
  Parse raw = (pc, pp, Some text) ->
  parseInput raw = Ok (pc, 0 :: pp, Some text).
Proof. intros H. unfold Pex.parseInput. rewrite H. reflexivity. Qed.

Lemma parseInput_bare (raw : string) (pp : list Z)
  (init : list Command) (c : Command) (name : string) :
  Parse raw = (init ++ [c], pp, None) ->
  Argv c = [name] ->
  name <> EmptyString ->
  HasSuffix raw " " = false ->
  parseInput raw = Ok (init ++ [c], 0 :: pp, Some (bareError quote name)).
Proof.
  intros H Ha Hn Hs. unfold Pex.parseInput. rewrite H.
  assert ((0 <? len (init ++ [c])) = true) as ->.
  { rewrite len_app. pose proof (len_nonneg init). unfold len at 2. simpl. lia. }
  rewrite index_last with (d := c) by (destruct init; discriminate).
  rewrite last_last. cbn [bind].
  unfold Name, Args, Empty. rewrite Ha. simpl.
  destruct (String.eqb name EmptyString) eqn:E.
  - apply String.eqb_eq in E. contradiction.
  - rewrite Hs. reflexivity.
Qed.

(** ** The contexts of pagers and the events of a rebuild *)

Lemma ctxs_app (ps qs : list pager) : ctxs (ps ++ qs) = ctxs ps ++ ctxs qs.
Proof. apply flat_map_app. Qed.

Lemma ctxs_placeholders (ids : list nat) : ctxs (map placeholder ids) = [].
Proof. induction ids as [|i ids IH]; simpl; [reflexivity | exact IH]. Qed.

Lemma ctxs_In (ps : list pager) (ctx : nat) :
  In ctx (ctxs ps) <-> exists p, In p ps /\ cancel p = Some ctx.
Proof.
  unfold ctxs. rewrite in_flat_map. split; intros (p & Hp & H); exists p;
    (split; [exact Hp|]).
  - destruct (cancel p); simpl in H; [|contradiction].
    destruct H as [->|[]]. reflexivity.
  - rewrite H. left. reflexivity.
Qed.

Lemma closeEvents_ctxs (ps : list pager) :
  closeEvents ps = map Cancelled (ctxs ps).
Proof.
  unfold closeEvents, ctxs. induction ps as [|p ps IH]; simpl; [reflexivity|].
  rewrite map_app, IH. destruct (cancel p); reflexivity.
Qed.

Lemma closeEvents_In (ps : list pager) (ev : event) :
  In ev (closeEvents ps) <-> exists ctx, ev = Cancelled ctx /\ In ctx (ctxs ps).
Proof.
  rewrite closeEvents_ctxs, in_map_iff.
  split; intros (ctx & H1 & H2); exists ctx; auto.
Qed.

Lemma Launched_facts (r : nat) (c : Command) (w : world) (p : pager) (w' : world) :
  Launched r c w p w' ->
  exists L,
    events w' = events w ++ L
    /\ (fresh w < fresh w')%nat
    /\ (forall ctx, In (Cancelled ctx) L -> ctx = fresh w)
    /\ (ctxs [p] = [] \/ ctxs [p] = [fresh w])
    /\ (forall x, cmd p = Some x -> x = r)
    /\ (fresh w <= shared p < fresh w')%nat.
Proof.
  intros [H | text H Hs | H Hs]; cbn [events fresh cmd shared].
  - exists []. rewrite app_nil_r.
    split; [reflexivity|]. split; [lia|]. split; [intros ctx []|].
    split; [left; reflexivity|]. split; [discriminate | simpl; lia].
  - exists [Cancelled (fresh w)].
    split; [reflexivity|]. split; [lia|].
    split; [intros ctx [[= <-] | []]; reflexivity|].
    split; [left; reflexivity|]. split; [discriminate | simpl; lia].
  - exists [Started (fresh w) (Name c :: Args c) r].
    split; [reflexivity|]. split; [lia|].
    split; [intros ctx [[=] | []]|].
    split; [right; reflexivity|].
    split; [intros x [= <-]; reflexivity | lia].
Qed.

Lemma Rebuilt_aligned (r : nat) (olds : list pager) (cs : list Command)
  (w : world) (news : list pager) (w' : world) :
  Rebuilt r olds cs w news w' ->
  aligned news cs /\ List.length news = List.length olds.
Proof.
  induction 1 as [|r old olds c cs w w1 w' p news HL HR [IH1 IH2]].
  - split; [constructor | reflexivity].
  - split; [constructor; [eapply Launched_Equal; exact HL | exact IH1]|].
    simpl. rewrite IH2. reflexivity.
Qed.

Lemma Rebuilt_events (r : nat) (olds : list pager) (cs : list Command)
  (w : world) (news : list pager) (w' : world) :
  Rebuilt r olds cs w news w' ->
  exists E,
    events w' = events w ++ E
    /\ (fresh w <= fresh w')%nat
    /\ (forall ctx, In (Cancelled ctx) E ->
                    In ctx (ctxs olds) \/ (fresh w <= ctx)%nat)
    /\ (forall ctx, In ctx (ctxs olds) -> In (Cancelled ctx) E)
    /\ Forall (fun ctx => (fresh w <= ctx < fresh w')%nat) (ctxs news)
    /\ NoDup (ctxs news).
Proof.
  induction 1 as [|r old olds c cs w w1 w' p news HL HR IH].
  - exists []. rewrite app_nil_r.
    split; [reflexivity|]. split; [lia|].
    split; [intros ctx []|]. split; [intros ctx []|].
    split; constructor.
  - destruct IH as (E & HE & Hf & Hc & Ho & Hn & Hd).
    destruct (Launched_facts _ _ _ _ _ HL) as (L & HL1 & HL2 & HL3 & HL4 & _ & _).
    cbn [fresh events] in *.
    exists (closeEvents [old] ++ L ++ E).
    split; [rewrite HE, HL1, <- !app_assoc; reflexivity|].
    split; [lia|].
    change (old :: olds) with ([old] ++ olds).
    change (p :: news) with ([p] ++ news).
    rewrite !ctxs_app.
    split; [|split; [|split]].
    + intros ctx. rewrite !in_app_iff. intros [H | [H | H]].
      * left. left. apply closeEvents_In in H.
        destruct H as (ctx' & [= <-] & H). exact H.
      * right. rewrite (HL3 ctx H). lia.
      * destruct (Hc ctx H) as [H' | H']; [left; right; exact H' | right; lia].
    + intros ctx. rewrite !in_app_iff. intros [H | H].
      * left. apply closeEvents_In. eexists; eauto.
      * right. right. apply Ho, H.
    + apply Forall_app. split.
      * destruct HL4 as [-> | ->]; constructor; [lia | constructor].
      * eapply Forall_impl; [|exact Hn]. simpl. intros; lia.
    + destruct HL4 as [-> | ->]; simpl; [exact Hd|].
      constructor; [|exact Hd].
      intros Hin. rewrite Forall_forall in Hn. specialize (Hn _ Hin). lia.
Qed.

Lemma NoDup_app_disjoint {A : Type} (l l' : list A) (x : A) :
  NoDup (l ++ l') -> In x l -> In x l' -> False.
Proof.
  induction l as [|a l IH]; simpl; intros Hn Hl Hl'; [contradiction|].
  inversion Hn as [|? ? Hnot Hn']; subst.
  destruct Hl as [-> | Hl].
  - apply Hnot, in_or_app. right. exact Hl'.
  - exact (IH Hn' Hl Hl').
Qed.

(** What one pass does to the pagers and to the world, for a model whose
    pagers have distinct contexts, all of them older than the world's
    next address. *)
Lemma pass_facts (m : model) (w : world) (pc : list Command) (pp : list Z)
  (e : error) (p0 : pager) (old : list pager) :
  parseInput (inputValue m) = Ok (pc, pp, e) ->
  pagers m = p0 :: old ->
  NoDup (ctxs (pagers m)) ->
  Forall (fun ctx => (ctx < fresh w)%nat) (ctxs (pagers m)) ->
  let m1 := applyParse m pc pp e in
  let cs := commands m1 in
  let g := Z.to_nat (len cs - len old) in
  let all := old ++ map placeholder (seq (fresh w) g) in
  let rest := firstn (List.length cs) all in
  let excess := skipn (List.length cs) all in
  let k := matching rest cs in
  let w2 := mkWorld (fresh w + g) (events w ++ closeEvents excess) in
  exists news w' E,
    updatePagers m w
    = Ok ((updateWindow (set_pagers m1 (p0 :: firstn k rest ++ news)),
           seq (fresh w) g ++ map Init news), w')
    /\ Rebuilt (shared (last (p0 :: firstn k rest) p0)) (skipn k rest)
         (skipn k cs) w2 news w'
    /\ events w' = events w ++ closeEvents excess ++ E
    /\ (forall ctx, In ctx (ctxs (p0 :: firstn k rest)) ->
                    ~ In (Cancelled ctx) (closeEvents excess ++ E))
    /\ (forall ctx, In ctx (ctxs (skipn k rest)) -> In (Cancelled ctx) E)
    /\ NoDup (ctxs (p0 :: firstn k rest ++ news))
    /\ Forall (fun ctx => (ctx < fresh w')%nat)
         (ctxs (p0 :: firstn k rest ++ news))
    /\ aligned (firstn k rest ++ news) cs.
Proof.
  intros HP Hp Hnd Hlt m1 cs g all rest excess k w2.
  destruct (pass_ok m w pc pp e p0 old HP Hp) as (news & w' & HB & HU).
  fold m1 cs g all rest excess k w2 in HB, HU.
  destruct (Rebuilt_events _ _ _ _ _ _ HB) as (E & HE & Hf & Hc & Ho & Hn & Hd).
  destruct (Rebuilt_aligned _ _ _ _ _ _ HB) as [Hal _].
  change (fresh w2) with (fresh w + g)%nat in Hf, Hc, Hn.
  change (events w2) with (events w ++ closeEvents excess) in HE.
  set (A := ctxs (p0 :: firstn k rest)) in *.
  assert (ctxs (pagers m) = A ++ ctxs (skipn k rest) ++ ctxs excess) as Hsplit.
  { rewrite Hp. unfold A.
    change (p0 :: old) with ([p0] ++ old).
    change (p0 :: firstn k rest) with ([p0] ++ firstn k rest).
    rewrite !ctxs_app, <- !app_assoc. f_equal.
    rewrite (app_assoc (ctxs (firstn k rest))), <- ctxs_app, firstn_skipn.
    rewrite <- ctxs_app. unfold rest, excess. rewrite firstn_skipn.
    unfold all. rewrite ctxs_app, ctxs_placeholders, app_nil_r. reflexivity. }
  rewrite Hsplit in Hnd, Hlt.
  apply Forall_app in Hlt. destruct Hlt as [HltA _].
  rewrite Forall_forall in HltA, Hn.
  exists news, w', E.
  split; [exact HU|]. split; [exact HB|].
  split; [rewrite HE, <- app_assoc; reflexivity|].
  split; [|split; [exact Ho | split; [|split]]].
  - intros ctx HA Hin. apply in_app_or in Hin. destruct Hin as [Hin | Hin].
    + apply closeEvents_In in Hin. destruct Hin as (ctx' & [= <-] & Hin).
      apply (NoDup_app_disjoint _ _ ctx Hnd HA).
      apply in_or_app. right. exact Hin.
    + destruct (Hc ctx Hin) as [Hin' | Hge].
      * apply (NoDup_app_disjoint _ _ ctx Hnd HA).
        apply in_or_app. left. exact Hin'.
      * specialize (HltA ctx HA). lia.
  - change (p0 :: firstn k rest ++ news) with ((p0 :: firstn k rest) ++ news).
    rewrite ctxs_app. fold A. apply NoDup_app.
    + apply NoDup_app_remove_r in Hnd. exact Hnd.
    + exact Hd.
    + intros ctx HA Hin. specialize (HltA ctx HA). specialize (Hn ctx Hin). lia.
  - change (p0 :: firstn k rest ++ news) with ((p0 :: firstn k rest) ++ news).
    rewrite ctxs_app. fold A. apply Forall_app. split; apply Forall_forall.
    + intros ctx HA. specialize (HltA ctx HA). lia.
    + intros ctx Hin. specialize (Hn ctx Hin). lia.
  - rewrite <- (firstn_skipn k cs). apply Forall2_app; [|exact Hal].
    apply matching_aligned.
Qed.

(** ** The states the controller reaches *)

Lemma Inv_newModel (w0 : world) (m : model) (w : world) :
  newModel w0 = Ok (m, w) -> Inv m w.
Proof.
  unfold newModel, bindM, newReadPager, newEmptyPager, newPager, bindM, alloc,
    ret. simpl. intros [= <- <-]. split; [|split; constructor].
  eexists _, [], [_]. simpl. repeat split. constructor.
Qed.

Lemma commands_applyParse_error (m : model) (pc : list Command) (pp : list Z)
  (text : string) :
  commands (applyParse m pc pp (Some text)) = commands m.
Proof. reflexivity. Qed.

Lemma commands_applyParse_ok (m : model) (pc : list Command) (pp : list Z) :
  commands (applyParse m pc pp None) = pc.
Proof. reflexivity. Qed.

(** Every pass of [updatePagers] returns, from a state of [Inv] into a
    state of [Inv] in which no pager is left beyond the commands. *)
Lemma updatePagers_Inv (m : model) (w : world) :
  Inv m w ->
  exists m' cmds w' p0 stages,
    updatePagers m w = Ok ((m', cmds), w')
    /\ pagers m' = p0 :: stages
    /\ nth_error (pagers m) 0 = Some p0
    /\ aligned stages (commands m')
    /\ Inv m' w'.
Proof.
  intros [(p0 & rest & excess & Hp & Hs & Hal & Hex) [Hnd Hlt]].
  destruct (parseInput_total (inputValue m)) as (pc & pp & e & HP).
  destruct (pass_facts m w pc pp e p0 (rest ++ excess) HP Hp Hnd Hlt)
    as (news & w' & E & HU & _ & _ & _ & _ & Hnd' & Hlt' & Hal').
  eexists _, _, w', p0, _. split; [exact HU|].
  rewrite pagers_updateWindow, commands_updateWindow. cbn [pagers commands set_pagers].
  split; [reflexivity|]. split; [rewrite Hp; reflexivity|].
  split; [exact Hal'|].
  split; [|split; rewrite pagers_updateWindow; assumption].
  eexists p0, _, []. rewrite pagers_updateWindow, commands_updateWindow.
  cbn [pagers commands set_pagers]. rewrite app_nil_r.
  repeat split; assumption.
Qed.

Lemma pagers_set_input (m : model) (value : string) (pos : Z) :
  pagers (set_input m value pos) = pagers m.
Proof. reflexivity. Qed.

Lemma Inv_set_input (m : model) (w : world) (value : string) (pos : Z) :
  Inv m w -> Inv (set_input m value pos) w.
Proof. intros H. exact H. Qed.

Lemma Reachable_Inv (m : model) (w : world) : Reachable m w -> Inv m w.
Proof.
  induction 1 as [w0 m w H | m w value pos m' cmds w' _ IH H].
  - exact (Inv_newModel w0 m w H).
  - destruct (updatePagers_Inv _ w (Inv_set_input m w value pos IH))
      as (m2 & cmds2 & w2 & p0 & stages & HU & _ & _ & _ & HI).
    unfold Pex.edit in H. rewrite HU in H. injection H as <- <- <-. exact HI.
Qed.

Lemma aligned_length (ps : list pager) (cs : list Command) :
  aligned ps cs -> List.length ps = List.length cs.
Proof. induction 1; simpl; congruence. Qed.

(** A pass whose input is refused: the pagers of the retained commands
    stay, the pagers beyond them are dropped, and the world is as it was. *)
Lemma quiet_pass (m : model) (w : world) (pc : list Command) (pp : list Z)
  (text : string) (p0 : pager) (rest excess : list pager) :
  parseInput (inputValue m) = Ok (pc, pp, Some text) ->
  pagers m = p0 :: rest ++ excess ->
  aligned rest (commands m) ->
  ctxs excess = [] ->
  updatePagers m w
  = Ok ((updateWindow
           (set_pagers (applyParse m pc pp (Some text)) (p0 :: rest)), []), w).
Proof.
  intros HP Hp Hal Hex.
  destruct (pass_ok m w pc pp (Some text) p0 (rest ++ excess) HP Hp)
    as (news & w' & HB & HU).
  cbv zeta in HB, HU. rewrite commands_applyParse_error in HB, HU.
  pose proof (aligned_length _ _ Hal) as Hlen.
  replace (Z.to_nat (len (commands m) - len (rest ++ excess))) with 0%nat
    in HB, HU by (rewrite len_app; unfold len; lia).
  cbn [seq map] in HB, HU. rewrite app_nil_r in HB, HU.
  rewrite <- Hlen in HB, HU.
  rewrite firstn_app, firstn_all, Nat.sub_diag, firstn_0, app_nil_r in HB, HU.
  rewrite skipn_app, skipn_all, Nat.sub_diag in HB. cbn [skipn app] in HB.
  rewrite (aligned_matching _ _ Hal) in HB, HU.
  rewrite firstn_all in HB, HU. rewrite skipn_all in HB.
  rewrite Hlen, skipn_all in HB.
  inversion HB; subst.
  rewrite HU. rewrite closeEvents_ctxs, Hex, Nat.add_0_r. cbn [map].
  rewrite !app_nil_r. destruct w; reflexivity.
Qed.

(** * The controller: a refused edit *)

(** C7, amended.  Once a pass has completed, an edit whose parse fails
    changes neither the pagers nor the world (nothing is cancelled,
    started or allocated), keeps the commands and pipe offsets of the last
    good parse, and records the error and its text. *)
Theorem parse_error_keeps_pipeline (m : model) (w : world)
  (value : string) (pos : Z) (m1 : model) (cmds1 : list nat) (w1 : world)
  (value' : string) (pos' : Z) (pc : list Command) (pp : list Z)
  (text : string) :
  Reachable m w ->
  edit value pos m w = Ok ((m1, cmds1), w1) ->
  Parse value' = (pc, pp, Some text) ->
  exists m2,
    edit value' pos' m1 w1 = Ok ((m2, []), w1)
    /\ pagers m2 = pagers m1
    /\ commands m2 = commands m1
    /\ pipes m2 = pipes m1
    /\ err m2 = Some text
    /\ errText m2 = text.
Proof.
  intros HR HE HP.
  destruct (updatePagers_Inv _ w (Inv_set_input m w value pos (Reachable_Inv m w HR)))
    as (m' & cmds' & w' & p0 & stages & HU & Hp & _ & Hal & _).
  unfold Pex.edit in HE. rewrite HU in HE. injection HE as -> -> ->.
  unfold Pex.edit.
  rewrite (quiet_pass (set_input m1 value' pos') w1 pc (0 :: pp) text p0 stages []).
  - eexists. split; [reflexivity|].
    rewrite pagers_updateWindow, commands_updateWindow, pipes_updateWindow.
    destruct (err_updateWindow
                (set_pagers (applyParse (set_input m1 value' pos') pc (0 :: pp)
                               (Some text)) (p0 :: stages))) as [-> ->].
    cbn. rewrite Hp. repeat split.
  - apply parseInput_error. exact HP.
  - rewrite app_nil_r. exact Hp.
  - exact Hal.
  - reflexivity.
Qed.

(** * The controller: a bare command name *)

(** C10.  In every state the controller reaches, an edit whose parse
    succeeds but whose last command is one bare name, in a text that does
    not end with a space, is refused with the error of the bare name: the
    commands and pipe offsets stay, the world is as it was (no process
    started, none cancelled), and the pagers that remain are pagers that
    were there. *)
Theorem bare_command_not_launched (m : model) (w : world)
  (value : string) (pos : Z) (init : list Command) (c : Command)
  (pp : list Z) (name : string) :
  Reachable m w ->
  Parse value = (init ++ [c], pp, None) ->
  Argv c = [name] ->
  name <> EmptyString ->
  HasSuffix value " " = false ->
  exists m' dropped,
    edit value pos m w = Ok ((m', []), w)
    /\ err m' = Some (bareError quote name)
    /\ commands m' = commands m
    /\ pipes m' = pipes m
    /\ pagers m = pagers m' ++ dropped.
Proof.
  intros HR HP Ha Hn Hs.
  destruct (Reachable_Inv m w HR) as [(p0 & rest & excess & Hp & _ & Hal & Hex) _].
  unfold Pex.edit.
  rewrite (quiet_pass (set_input m value pos) w (init ++ [c]) (0 :: pp)
             (bareError quote name) p0 rest excess).
  - eexists _, excess. split; [reflexivity|].
    rewrite pagers_updateWindow, commands_updateWindow, pipes_updateWindow.
    destruct (err_updateWindow
                (set_pagers (applyParse (set_input m value pos) (init ++ [c])
                               (0 :: pp) (Some (bareError quote name)))
                   (p0 :: rest))) as [-> _].
    cbn. rewrite Hp. repeat split.
  - apply parseInput_bare with (name := name); assumption.
  - exact Hp.
  - exact Hal.
  - exact Hex.
Qed.

(** * The controller: the stages after an accepted edit *)

Lemma skipn_placeholders (n : nat) (ids : list nat) :
  ctxs (skipn n (map placeholder ids)) = [].
Proof. rewrite skipn_map. apply ctxs_placeholders. Qed.

(** C6, amended.  In every state the controller reaches, an accepted edit
    with the commands [pc] leaves exactly [len pc + 1] stages: the input's
    pager, which stays at index 0, then one pager per command, in order,
    with that command.  No stage is at index [len pc + 1].  The pagers
    that were beyond index [len pc] are closed: each context one of them
    had is cancelled. *)
Theorem accepted_edit_stages (m : model) (w : world) (value : string)
  (pos : Z) (pc : list Command) (pp : list Z) :
  Reachable m w ->
  parseInput value = Ok (pc, pp, None) ->
  exists m' cmds w' p0 stages E,
    edit value pos m w = Ok ((m', cmds), w')
    /\ commands m' = pc
    /\ pipes m' = pp
    /\ nth_error (pagers m) 0 = Some p0
    /\ source p0 = FromInput
    /\ pagers m' = p0 :: stages
    /\ aligned stages pc
    /\ len (pagers m') = len pc + 1
    /\ index (pagers m') (len pc + 1) = Panic
    /\ events w' = events w ++ E
    /\ forall p ctx,
         In p (skipn (S (List.length pc)) (pagers m)) ->
         cancel p = Some ctx -> In (Cancelled ctx) E.
Proof.
  intros HR HP.
  destruct (Reachable_Inv m w HR)
    as [(p0 & rest & excess & Hp & Hs & Hal & Hex) [Hnd Hlt]].
  destruct (pass_facts (set_input m value pos) w pc pp None p0 (rest ++ excess)
              HP Hp Hnd Hlt)
    as (news & w' & E & HU & HB & HE & _ & _ & _ & _ & Hal').
  cbv zeta in HU, HE, Hal'. rewrite commands_applyParse_ok in HU, HE, Hal'.
  eexists _, _, w', p0, _, _. split; [exact HU|].
  rewrite pagers_updateWindow, commands_updateWindow, pipes_updateWindow.
  cbn [pagers commands pipes set_pagers applyParse set_parse SetErr].
  match type of Hal' with
  | aligned (?K ++ news) _ => set (kept := K) in *
  end.
  pose proof (aligned_length _ _ Hal') as Hlen.
  assert (len (p0 :: kept ++ news) = len pc + 1) as Hlen'.
  { unfold len. cbn [List.length]. rewrite Hlen. lia. }
  split; [reflexivity|]. split; [reflexivity|].
  split; [rewrite Hp; reflexivity|]. split; [exact Hs|].
  split; [reflexivity|]. split; [exact Hal'|]. split; [exact Hlen'|].
  split.
  { unfold index. rewrite Hlen'.
    destruct (0 <=? len pc + 1); [|reflexivity].
    rewrite Z.ltb_irrefl. reflexivity. }
  split; [exact HE|].
  intros p ctx Hin Hc. apply in_or_app. left.
  apply closeEvents_In. exists ctx. split; [reflexivity|].
  rewrite Hp in Hin. cbn [skipn] in Hin.
  rewrite skipn_app, ctxs_app. apply in_or_app. left.
  apply ctxs_In. exists p. auto.
Qed.

(** * The controller: the diverge index and the rebuild *)

(** In a rebuilt suffix, a pager's subprocess reads the Shared of the
    pager rebuilt just before it; the first one reads [r]. *)
Lemma Rebuilt_reads_previous (r : nat) (olds : list pager) (cs : list Command)
  (w : world) (news : list pager) (w' : world) :
  Rebuilt r olds cs w news w' ->
  forall i p x,
    nth_error news i = Some p -> cmd p = Some x ->
    match i with
    | O => x = r
    | S j => exists q, nth_error news j = Some q /\ x = shared q
    end.
Proof.
  induction 1 as [|r old olds c cs w w1 w' p0 news HL HR IH];
    intros i p x Hn Hc.
  - destruct i; discriminate.
  - destruct i as [|j]; simpl in Hn.
    + injection Hn as <-.
      destruct (Launched_facts _ _ _ _ _ HL) as (_ & _ & _ & _ & _ & Hr & _).
      exact (Hr x Hc).
    + specialize (IH j p x Hn Hc). destruct j as [|j'].
      * exists p0. split; [reflexivity | exact IH].
      * destruct IH as (q & Hq & Hx). exists q. split; [exact Hq | exact Hx].
Qed.

Lemma nth_error_last_front (p0 : pager) (kept news : list pager) :
  nth_error (p0 :: kept ++ news) (List.length kept)
  = Some (last (p0 :: kept) p0).
Proof.
  revert p0. induction kept as [|q kept IH]; intros p0; [reflexivity|].
  change (nth_error (p0 :: (q :: kept) ++ news) (List.length (q :: kept)))
    with (nth_error (q :: kept ++ news) (List.length kept)).
  rewrite IH. f_equal.
  change (last (p0 :: q :: kept) p0) with (last (q :: kept) p0).
  clear. revert q. induction kept as [|q' kept IH]; intros q; [reflexivity|].
  change (last (q :: q' :: kept) q) with (last (q' :: kept) q).
  change (last (q :: q' :: kept) p0) with (last (q' :: kept) p0).
  rewrite <- (IH q'). destruct kept; [reflexivity|].
  clear. generalize (p :: kept). intros l.
  induction l as [|y l IHl]; [reflexivity|].
  destruct l; [reflexivity|]. exact IHl.
Qed.

(** C3.  In every state the controller reaches, one edit works on the
    existing stages brought to one more than the number of commands
    ([p0 :: kept ++ olds], the pagers beyond them being [dropped]).
    [kept] are the stages from index 1 on whose commands are, place by
    place, those of the new commands; the first stage of [olds], at the
    diverge index [1 + length kept], has a command that differs by
    [Equal].  The stages before the diverge index stay and none of their
    contexts is cancelled.  Every stage from the diverge index on is
    closed (each context it has is cancelled) and rebuilt, in order
    ([Rebuilt]), and the subprocess of a rebuilt stage reads the Shared of
    the stage just before it in the new list of pagers. *)
Theorem edit_rebuilds_from_diverge_index (m : model) (w : world)
  (value : string) (pos : Z) :
  Reachable m w ->
  exists m' cmds w' p0 kept olds dropped ids news w2 E,
    edit value pos m w = Ok ((m', cmds), w')
    /\ pagers m ++ map placeholder ids = (p0 :: kept ++ olds) ++ dropped
    /\ List.length (kept ++ olds) = List.length (commands m')
    /\ aligned kept (firstn (List.length kept) (commands m'))
    /\ (forall old c,
           nth_error olds 0 = Some old ->
           nth_error (commands m') (List.length kept) = Some c ->
           Equal (command old) c = false)
    /\ pagers m' = p0 :: kept ++ news
    /\ events w' = events w ++ closeEvents dropped ++ E
    /\ (forall p ctx,
           In p (p0 :: kept) -> cancel p = Some ctx ->
           ~ In (Cancelled ctx) (closeEvents dropped ++ E))
    /\ (forall p ctx,
           In p olds -> cancel p = Some ctx -> In (Cancelled ctx) E)
    /\ Rebuilt (shared (last (p0 :: kept) p0)) olds
         (skipn (List.length kept) (commands m')) w2 news w'
    /\ (forall i p x,
           (List.length kept <= i)%nat ->
           nth_error (pagers m') (S i) = Some p ->
           cmd p = Some x ->
           exists prev, nth_error (pagers m') i = Some prev /\ x = shared prev).
Proof.
  intros HR.
  destruct (Reachable_Inv m w HR)
    as [(p0 & rest0 & excess0 & Hp & _ & _ & _) [Hnd Hlt]].
  destruct (parseInput_total value) as (pc & pp & e & HP).
  destruct (pass_facts (set_input m value pos) w pc pp e p0 (rest0 ++ excess0)
              HP Hp Hnd Hlt)
    as (news & w' & E & HU & HB & HE & Hkeep & Hclose & _ & _ & Hal).
  cbv zeta in HU, HB, HE, Hkeep, Hclose, Hal.
  set (cs := commands (applyParse (set_input m value pos) pc pp e)) in *.
  set (ids := seq (fresh w) (Z.to_nat (len cs - len (rest0 ++ excess0)))) in *.
  set (all := (rest0 ++ excess0) ++ map placeholder ids) in *.
  set (rest := firstn (List.length cs) all) in *.
  set (k := matching rest cs) in *.
  assert (List.length cs <= List.length all)%nat as Hall.
  { unfold all, ids, len. rewrite length_app, length_map, length_seq. lia. }
  assert (List.length rest = List.length cs) as Hrest
    by (unfold rest; rewrite length_firstn; lia).
  pose proof (matching_le rest cs) as Hk. fold k in Hk.
  assert (List.length (firstn k rest) = k) as Hkept
    by (rewrite length_firstn; lia).
  eexists _, _, w', p0, (firstn k rest), (skipn k rest),
    (skipn (List.length cs) all), ids, news, _, E.
  split; [exact HU|].
  rewrite pagers_updateWindow, commands_updateWindow.
  cbn [pagers commands set_pagers]. fold cs. rewrite Hkept.
  split.
  { rewrite Hp. cbn [pagers set_input app]. fold all.
    rewrite firstn_skipn. unfold rest. rewrite firstn_skipn. reflexivity. }
  split; [rewrite firstn_skipn; exact Hrest|].
  split; [apply matching_aligned|].
  split.
  { intros old c Ho Hc. rewrite nth_error_skipn, Nat.add_0_r in Ho.
    assert (k < List.length rest)%nat as Hlt'.
    { apply nth_error_Some. rewrite Ho. discriminate. }
    destruct (matching_mismatch rest cs Hrest Hlt') as (p' & c' & H1 & H2 & H3).
    fold k in H1, H2. congruence. }
  split; [reflexivity|]. split; [exact HE|].
  split.
  { intros p ctx Hin Hc. apply Hkeep. apply ctxs_In. exists p. auto. }
  split.
  { intros p ctx Hin Hc. apply Hclose. apply ctxs_In. exists p. auto. }
  split; [exact HB|].
  intros i p x Hi Hn Hc.
  cbn [nth_error] in Hn. rewrite nth_error_app2 in Hn by lia.
  rewrite Hkept in Hn.
  pose proof (Rebuilt_reads_previous _ _ _ _ _ _ HB (i - k)%nat p x Hn Hc) as H.
  destruct (i - k)%nat as [|j] eqn:Ej.
  - exists (last (p0 :: firstn k rest) p0). split; [|exact H].
    assert (i = List.length (firstn k rest)) as -> by lia.
    apply nth_error_last_front.
  - destruct H as (q & Hq & Hx). exists q. split; [|exact Hx].
    destruct i as [|i']; [lia|]. cbn [nth_error].
    rewrite nth_error_app2 by lia. rewrite Hkept.
    replace (i' - k)%nat with j by lia. exact Hq.
Qed.

End ControllerFacts.

Lemma Reachable_model0 :
  Reachable parseFixture quoteFixture startOk model0 world1.
Proof. apply Reachable_new with (w0 := world0). reflexivity. Qed.

(** After [a ] is typed, the text [|] does not parse. *)
Lemma parse_error_keeps_pipeline_witness :
  exists m2,
    editF "|" 1 modelA worldA = Ok ((m2, []), worldA)
    /\ pagers m2 = pagers modelA
    /\ commands m2 = commands modelA
    /\ pipes m2 = pipes modelA
    /\ err m2 = Some "1:0: missing statement before |"%string
    /\ errText m2 = "1:0: missing statement before |"%string.
Proof.
  apply (parse_error_keeps_pipeline parseFixture quoteFixture startOk
           model0 world1 "a " 2 modelA (snd (fst afterA)) worldA "|" 1 [] []
           "1:0: missing statement before |").
  - exact Reachable_model0.
  - vm_compute. reflexivity.
  - reflexivity.
Defined.

(** The first key typed is [|], which does not parse: the first model has
    two pagers, the input's and an empty one, and the pass drops the
    empty one. *)
Lemma first_parse_error_drops_stage :
  exists m' cmds w',
    editF "|" 1 model0 world1 = Ok ((m', cmds), w')
    /\ err m' = Some "1:0: missing statement before |"%string
    /\ len (pagers model0) = 2
    /\ len (pagers m') = 1.
Proof.
  destruct (editF "|" 1 model0 world1) as [[[m' cmds] w']|] eqn:E;
    vm_compute in E; [|discriminate].
  injection E as <- <- <-.
  eexists _, _, _. split; [reflexivity|]. repeat split.
Qed.

(** The first key typed is [a]. *)
Lemma bare_command_not_launched_witness :
  exists m' dropped,
    editF "a" 1 model0 world1 = Ok ((m', []), world1)
    /\ err m' = Some (bareError quoteFixture "a")
    /\ commands m' = commands model0
    /\ pipes m' = pipes model0
    /\ pagers model0 = pagers m' ++ dropped.
Proof.
  apply (bare_command_not_launched parseFixture quoteFixture startOk
           model0 world1 "a" 1 [] a_ [] "a").
  - exact Reachable_model0.
  - reflexivity.
  - reflexivity.
  - discriminate.
  - reflexivity.
Defined.

(** After [a ] is typed from the first model. *)
Lemma accepted_edit_stages_witness :
  exists m' cmds w' p0 stages E,
    editF "a " 2 model0 world1 = Ok ((m', cmds), w')
    /\ commands m' = [a_]
    /\ pipes m' = [0]
    /\ nth_error (pagers model0) 0 = Some p0
    /\ source p0 = FromInput
    /\ pagers m' = p0 :: stages
    /\ aligned stages [a_]
    /\ len (pagers m') = len [a_] + 1
    /\ index (pagers m') (len [a_] + 1) = Panic
    /\ events w' = events world1 ++ E
    /\ forall p ctx,
         In p (skipn (S (List.length [a_])) (pagers model0)) ->
         cancel p = Some ctx -> In (Cancelled ctx) E.
Proof.
  apply (accepted_edit_stages parseFixture quoteFixture startOk
           model0 world1 "a " 2 [a_] [0]).
  - exact Reachable_model0.
  - vm_compute. reflexivity.
Defined.

(** One command is accepted: two stages, the input and the command; no
    stage at index 2. *)
Lemma accepted_edit_no_stage_after_commands :
  editF "a " 2 model0 world1 = Ok afterA
  /\ commands modelA = [a_]
  /\ len (pagers modelA) = 2
  /\ index (pagers modelA) 2 = Panic.
Proof. repeat split; vm_compute; reflexivity. Qed.

Lemma Reachable_modelABC :
  Reachable parseFixture quoteFixture startOk modelABC worldABC.
Proof.
  apply (Reachable_edit parseFixture quoteFixture startOk model0 world1
           "a | b | c " 10 modelABC (snd (fst afterABC)) worldABC).
  - exact Reachable_model0.
  - vm_compute. reflexivity.
Qed.

(** The pipeline [a | b | c] runs and the arguments of [b] are edited. *)
Lemma edit_rebuilds_from_diverge_index_witness :
  exists m' cmds w' p0 kept olds dropped ids news w2 E,
    editF "a | b x | c " 12 modelABC worldABC = Ok ((m', cmds), w')
    /\ pagers modelABC ++ map placeholder ids = (p0 :: kept ++ olds) ++ dropped
    /\ List.length (kept ++ olds) = List.length (commands m')
    /\ aligned kept (firstn (List.length kept) (commands m'))
    /\ (forall old c,
           nth_error olds 0 = Some old ->
           nth_error (commands m') (List.length kept) = Some c ->
           Equal (command old) c = false)
    /\ pagers m' = p0 :: kept ++ news
    /\ events w' = events worldABC ++ closeEvents dropped ++ E
    /\ (forall p ctx,
           In p (p0 :: kept) -> cancel p = Some ctx ->
           ~ In (Cancelled ctx) (closeEvents dropped ++ E))
    /\ (forall p ctx,
           In p olds -> cancel p = Some ctx -> In (Cancelled ctx) E)
    /\ Rebuilt startOk (shared (last (p0 :: kept) p0)) olds
         (skipn (List.length kept) (commands m')) w2 news w'
    /\ (forall i p x,
           (List.length kept <= i)%nat ->
           nth_error (pagers m') (S i) = Some p ->
           cmd p = Some x ->
           exists prev, nth_error (pagers m') i = Some prev /\ x = shared prev).
Proof.
  apply (edit_rebuilds_from_diverge_index parseFixture quoteFixture startOk
           modelABC worldABC "a | b x | c " 12).
  exact Reachable_modelABC.
Defined.

(** The same edit, computed: the pager of [a] stays as it is and is not
    cancelled; the contexts of [b] and [c] (6 and 8) are cancelled and
    both are started again, [b x] on the Shared of [a] (5) and [c] on the
    Shared of the new [b x] (11), not on that of the old [b] (7). *)
Example edit_b_of_a_b_c :
  exists m' cmds w',
    editF "a | b x | c " 12 modelABC worldABC = Ok ((m', cmds), w')
    /\ map shared (pagers modelABC) = [0; 5; 7; 9]%nat
    /\ map cancel (pagers modelABC) = [None; Some 4; Some 6; Some 8]%nat
    /\ firstn 2 (pagers m') = firstn 2 (pagers modelABC)
    /\ map shared (pagers m') = [0; 5; 11; 13]%nat
    /\ map cmd (pagers m') = [None; Some 0; Some 5; Some 11]%nat
    /\ map command (pagers m') = [mkCommand [] EmptyString; a_; bx_; c_]
    /\ events w'
       = events worldABC
         ++ [Cancelled 6; Started 10 ["b"; "x"]%string 5;
             Cancelled 8; Started 12 ["c"%string] 11].
Proof.
  destruct (editF "a | b x | c " 12 modelABC worldABC) as [[[m' cmds] w']|] eqn:E;
    vm_compute in E; [|discriminate].
  injection E as <- <- <-.
  eexists _, _, _. split; [reflexivity|].
  repeat split.
Qed.

(** * The controller: the window of visible pagers *)

Lemma search_bounds (a : list Z) (x i j : Z) :
  i <= j -> i <= Pex.search a x i j <= j.
Proof.
  funelim (Pex.search a x i j); intros Hij; try lia.
  - assert (i <= (i + j) / 2 < j)
      by (split; [apply Z.div_le_lower_bound | apply Z.div_lt_upper_bound]; lia).
    lia.
  - assert (i <= (i + j) / 2 < j)
      by (split; [apply Z.div_le_lower_bound | apply Z.div_lt_upper_bound]; lia).
    lia.
Qed.

Lemma SearchInts_bounds (a : list Z) (x : Z) :
  0 <= SearchInts a x <= len a.
Proof. apply search_bounds, len_nonneg. Qed.

(** The window after a pass holds the focused pager and is at most
    [maxPagers] wide, when it was at most that wide before the pass. *)
Lemma updateWindow_holds_focus (m : model) :
  maxPager m - minPager m < maxPagers ->
  let m' := updateWindow m in
  minPager m' <= focusedPager m' <= maxPager m'
  /\ maxPager m' - minPager m' < maxPagers.
Proof.
  intros H. unfold updateWindow, maxPagers in *. cbv zeta.
  pose proof (SearchInts_bounds (pipes m) (inputPos m)) as Hf.
  cbn [focusedPager set_focused set_window minPager maxPager pagers].
  destruct (SearchInts (pipes m) (inputPos m)
            >? Z.min (maxPager m) (len (pagers m) - 1)) eqn:E1;
    cbn [focusedPager set_focused set_window minPager maxPager pagers].
  - destruct (SearchInts (pipes m) (inputPos m)
              <? Z.max 0 (SearchInts (pipes m) (inputPos m) - 3 + 1)) eqn:E2;
      cbn [focusedPager set_focused set_window minPager maxPager pagers]; lia.
  - destruct (SearchInts (pipes m) (inputPos m) <? minPager m) eqn:E2;
      cbn [focusedPager set_focused set_window minPager maxPager pagers]; lia.
Qed.

(** C2.  [a | b | c | d ] is typed key by key and deleted from the end, key
    by key, down to [a ]: two stages are left, indices 0 and 1, and the
    window is [1, 2]: [maxPager] is the number of stages, one more than
    the last index. *)
Theorem window_exceeds_stages :
  exists m w,
    typeAll typedThenDeleted model0 world1 = Ok (m, w)
    /\ len (pagers m) = 2
    /\ minPager m = 1
    /\ focusedPager m = 1
    /\ maxPager m = 2.
Proof.
  destruct (typeAll typedThenDeleted model0 world1) as [[m w]|] eqn:E;
    vm_compute in E; [|discriminate].
  injection E as <- <-.
  eexists _, _. split; [reflexivity|]. repeat split.
Qed.

(** * More on the Buffer: bytes and lines *)

Lemma IndexByte_split (s : list byte) (c : byte) :
  0 <= IndexByte s c ->
  exists pre rest,
    s = pre ++ c :: rest /\ ~ In c pre /\ len pre = IndexByte s c.
Proof.
  induction s as [|x s IH]; simpl; [lia|].
  destruct (Byte.eqb x c) eqn:E.
  - intros _. apply byte_dec_bl in E. subst x.
    exists [], s. repeat split. intros [].
  - destruct (IndexByte s c <? 0) eqn:E'; [lia|]. intros _.
    destruct IH as (pre & rest & -> & Hn & Hl); [lia|].
    exists (x :: pre), rest. split; [reflexivity|]. split.
    + intros [-> | H]; [|exact (Hn H)].
      rewrite (byte_dec_lb eq_refl) in E. discriminate.
    + unfold len in *. simpl. lia.
Qed.

Lemma IndexByte_neg (s : list byte) (c : byte) :
  IndexByte s c < 0 -> ~ In c s.
Proof.
  intros H Hin. pose proof (IndexByte_In s c Hin). lia.
Qed.

Lemma splitLF_line (pre rest : list byte) :
  ~ In LF pre -> splitLF (pre ++ LF :: rest) = pre :: splitLF rest.
Proof.
  induction pre as [|x pre IH]; intros Hn; simpl.
  - reflexivity.
  - destruct (Byte.eqb x LF) eqn:E.
    + apply byte_dec_bl in E. subst x. exfalso. apply Hn. left. reflexivity.
    + rewrite IH; [reflexivity|]. intros H. apply Hn. right. exact H.
Qed.

Lemma splitLF_rest (s : list byte) :
  ~ In LF s -> splitLF s = match s with [] => [] | x :: r => [x :: r] end.
Proof.
  induction s as [|x s IH]; intros Hn; simpl; [reflexivity|].
  destruct (Byte.eqb x LF) eqn:E.
  - apply byte_dec_bl in E. subst x. exfalso. apply Hn. left. reflexivity.
  - rewrite IH by (intros H; apply Hn; right; exact H).
    destruct s; reflexivity.
Qed.

(** At a newline found by [nextLF], the buffer splits into the line, the
    newline and the rest. *)
Lemma nextLF_split (B : list byte) (pos : Z) :
  0 <= pos -> 0 <= nextLF B pos ->
  skipn (Z.to_nat pos) B
  = firstn (Z.to_nat (nextLF B pos)) (skipn (Z.to_nat pos) B)
    ++ LF :: skipn (Z.to_nat (pos + nextLF B pos + 1)) B
  /\ ~ In LF (firstn (Z.to_nat (nextLF B pos)) (skipn (Z.to_nat pos) B)).
Proof.
  intros Hp Hi. unfold nextLF in *.
  destruct (IndexByte_split _ _ Hi) as (pre & rest & Hs & Hn & Hl).
  set (i := IndexByte (skipn (Z.to_nat pos) B) LF) in *.
  assert (Z.to_nat i = List.length pre) as Hi' by (unfold len in Hl; lia).
  assert (firstn (Z.to_nat i) (skipn (Z.to_nat pos) B) = pre) as Hf.
  { rewrite Hs, Hi', firstn_app, firstn_all, Nat.sub_diag, firstn_0.
    apply app_nil_r. }
  assert (skipn (Z.to_nat (pos + i + 1)) B = rest) as Hr.
  { replace (Z.to_nat (pos + i + 1)) with (S (Z.to_nat i) + Z.to_nat pos)%nat
      by lia.
    rewrite <- skipn_skipn, Hs, Hi'.
    rewrite skipn_app, skipn_all2 by lia.
    replace (S (List.length pre) - List.length pre)%nat with 1%nat by lia.
    reflexivity. }
  rewrite Hf, Hr. split; [exact Hs | exact Hn].
Qed.

Lemma rawOf_entryOf (B : list byte) (s e : Z) :
  0 <= s -> s <= e -> e <= len B ->
  rawOf B (entryOf B s e) = firstn (Z.to_nat (e - s)) (skipn (Z.to_nat s) B).
Proof.
  intros H1 H2 H3. unfold rawOf. rewrite entryOf_at0, entryOf_at2 by assumption.
  reflexivity.
Qed.

(** The raw lines of a chain are the segments of the bytes it runs over. *)
Lemma Chain_splitLF (B : list byte) (a c : Z) (T : list entry) :
  Chain B a T c -> Done B c -> 0 <= a ->
  splitLF (skipn (Z.to_nat a) B)
  = map (rawOf B) T
    ++ match skipn (Z.to_nat c) B with [] => [] | x :: r => [x :: r] end.
Proof.
  induction 1 as [pos | pos T pos' H1 H2 H3 IH]; intros Hd Ha.
  - simpl. apply splitLF_rest. apply IndexByte_neg. exact Hd.
  - destruct (nextLF_split B pos H1 H2) as [Hs Hn].
    pose proof (nextLF_bound B pos H1 H2) as Hb.
    rewrite Hs, splitLF_line by exact Hn.
    rewrite IH by (assumption || lia). simpl. f_equal.
    rewrite rawOf_entryOf by lia. f_equal. f_equal. lia.
Qed.

Lemma nth_error_skipn_0 {A : Type} (l : list A) (n : nat) (x : A) (r : list A) :
  skipn n l = x :: r -> nth_error l n = Some x.
Proof.
  revert l. induction n as [|n IH]; intros [|y l] H; simpl in *;
    try discriminate.
  - injection H as -> _. reflexivity.
  - apply IH. exact H.
Qed.

(** A chain that has moved stands just after a newline. *)
Lemma Chain_end_LF (B : list byte) (a c : Z) (T : list entry) :
  Chain B a T c -> a < c -> nth_error B (Z.to_nat (c - 1)) = Some LF.
Proof.
  induction 1 as [pos | pos T pos' H1 H2 H3 IH]; intros Hlt; [lia|].
  destruct (Z.eq_dec (pos + nextLF B pos + 1) pos') as [E | E].
  - destruct (nextLF_split B pos H1 H2) as [Hs _].
    subst pos'. replace (Z.to_nat (pos + nextLF B pos + 1 - 1))
      with (Z.to_nat (nextLF B pos) + Z.to_nat pos)%nat by lia.
    apply nth_error_skipn_0 with
      (r := skipn (Z.to_nat (pos + nextLF B pos + 1)) B).
    rewrite <- skipn_skipn. rewrite Hs at 1.
    pose proof (nextLF_bound B pos H1 H2) as Hb.
    rewrite skipn_app, skipn_all2; rewrite length_firstn, length_skipn;
      unfold len in *; try lia.
    replace (Z.to_nat (nextLF B pos)
             - Nat.min (Z.to_nat (nextLF B pos))
                 (List.length B - Z.to_nat pos))%nat with 0%nat by lia.
    reflexivity.
  - apply IH.
    pose proof (nextLF_bound B pos H1 H2) as Hb.
    destruct (Chain_bounds _ _ _ _ H3) as [Hc _]; lia.
Qed.

Lemma last_nth_error {A : Type} (l : list A) (d x : A) :
  nth_error l (List.length l - 1) = Some x -> last l d = x.
Proof.
  destruct l as [|y l] using rev_ind; [discriminate|]. clear IHl.
  rewrite length_app. simpl.
  replace (List.length l + 1 - 1)%nat with (List.length l) by lia.
  rewrite nth_error_app2, Nat.sub_diag by lia. simpl.
  intros [= ->]. apply last_last.
Qed.

Lemma last_app_right {A : Type} (f r : list A) (d : A) :
  r <> [] -> last (f ++ r) d = last r d.
Proof.
  intros H. induction f as [|y f IH]; [reflexivity|].
  change ((y :: f) ++ r) with (y :: (f ++ r)).
  destruct (f ++ r) as [|z t] eqn:E.
  - destruct f; [simpl in E; contradiction | discriminate].
  - exact IH.
Qed.

Lemma last_skipn {A : Type} (l : list A) (n : nat) (d : A) :
  skipn n l <> [] -> last (skipn n l) d = last l d.
Proof.
  intros H. rewrite <- (firstn_skipn n l) at 2.
  symmetry. apply last_app_right. exact H.
Qed.

Lemma last_In {A : Type} (l : list A) (d : A) : l <> [] -> In (last l d) l.
Proof.
  induction l as [|x l IH]; intros H; [contradiction|].
  destruct l as [|y l]; [left; reflexivity|].
  right. apply IH. discriminate.
Qed.

(** The raw lines of an indexed buffer are the segments of its bytes. *)
Lemma Indexed_splitLF (b : Buffer) :
  Indexed b -> map (rawOf (buf b)) (lines b) = splitLF (buf b).
Proof.
  intros (T & c & HC & HD & HL).
  pose proof (Chain_splitLF _ _ _ _ HC HD (Z.le_refl 0)) as H.
  simpl in H. rewrite H, HL, map_app. f_equal.
  destruct (Chain_bounds _ _ _ _ HC (Z.le_refl 0) (len_nonneg _)) as [Hc0 Hc1].
  unfold trailing.
  destruct (skipn (Z.to_nat c) (buf b)) as [|x r] eqn:Es.
  - destruct (Byte.eqb (last (buf b) LF) LF) eqn:El; [reflexivity|]. exfalso.
    assert (c = len (buf b)) as Hc.
    { apply (f_equal (@List.length byte)) in Es. rewrite length_skipn in Es.
      unfold len in *. simpl in Es. lia. }
    destruct (Z.eq_dec c 0) as [E0 | E0].
    + assert (buf b = []) as Hb by (apply len_nil_iff; lia).
      rewrite Hb in El. simpl in El. discriminate.
    + pose proof (Chain_end_LF _ _ _ _ HC ltac:(lia)) as Hn.
      rewrite (last_nth_error (buf b) LF LF) in El.
      * rewrite (byte_dec_lb eq_refl) in El. discriminate.
      * rewrite <- Hn. f_equal. unfold len in Hc. lia.
  - assert (skipn (Z.to_nat c) (buf b) <> []) as Hne by (rewrite Es; discriminate).
    assert (Byte.eqb (last (buf b) LF) LF = false) as ->.
    { destruct (Byte.eqb (last (buf b) LF) LF) eqn:El; [|reflexivity].
      apply byte_dec_bl in El. exfalso.
      apply (IndexByte_neg _ _ HD). rewrite <- El at 1.
      rewrite <- (last_skipn _ (Z.to_nat c) LF Hne). apply last_In. exact Hne. }
    simpl. rewrite rawOf_entryOf by lia. f_equal.
    rewrite Es. rewrite <- Es. apply firstn_all2.
    rewrite length_skipn. unfold len. lia.
Qed.

(** The entries of an indexed buffer are entries of lines inside it. *)
Lemma Chain_entries (B : list byte) (a c : Z) (T : list entry) :
  Chain B a T c ->
  Forall (fun e => exists s t, e = entryOf B s t /\ 0 <= s /\ s <= t /\ t <= len B) T.
Proof.
  induction 1 as [pos | pos T pos' H1 H2 H3 IH]; constructor; [|exact IH].
  pose proof (nextLF_bound B pos H1 H2) as Hb.
  exists pos, (pos + nextLF B pos). repeat split; lia.
Qed.

Lemma Indexed_entries (b : Buffer) :
  Indexed b ->
  Forall (fun e => exists s t,
              e = entryOf (buf b) s t /\ 0 <= s /\ s <= t /\ t <= len (buf b))
    (lines b).
Proof.
  intros (T & c & HC & HD & HL). rewrite HL. apply Forall_app. split.
  - exact (Chain_entries _ _ _ _ HC).
  - destruct (Chain_bounds _ _ _ _ HC (Z.le_refl 0) (len_nonneg _)) as [Hc0 Hc1].
    unfold trailing. destruct (Byte.eqb (last (buf b) LF) LF); constructor;
      [|constructor].
    exists c, (len (buf b)). repeat split; lia.
Qed.

(** On an indexed buffer [Line] never panics: it is the segment of that
    number, cut before its last carriage return. *)
Lemma Line_Indexed (b : Buffer) (n : nat) :
  Indexed b ->
  Line b (Z.of_nat n) = Ok (cutAtCR (nth n (splitLF (buf b)) [])).
Proof.
  intros HI. pose proof (Indexed_splitLF b HI) as Hs.
  pose proof (Indexed_entries b HI) as He.
  unfold Line.
  destruct (Z.of_nat n <? 0) eqn:E0; [apply Z.ltb_lt in E0; lia|].
  cbn [orb].
  destruct (Z.of_nat n >=? len (lines b)) eqn:E1.
  - rewrite nth_overflow; [reflexivity|].
    rewrite <- Hs, length_map. rewrite Z.geb_le in E1. unfold len in E1. lia.
  - assert (n < List.length (lines b))%nat as Hn.
    { destruct (Z.geb_spec (Z.of_nat n) (len (lines b))) as [|Hlt];
        [discriminate|]. unfold len in Hlt. lia. }
    destruct (nth_error (lines b) n) as [e|] eqn:En;
      [| apply nth_error_None in En; lia].
    rewrite index_ok with (d := e) by (unfold len; lia). cbn [bind].
    rewrite Nat2Z.id, (nth_error_nth _ _ e En).
    rewrite Forall_forall in He.
    destruct (He e (nth_error_In _ _ En)) as (s & t & -> & H1 & H2 & H3).
    rewrite entryOf_content by assumption. cbv zeta.
    fold (cutAtCR (firstn (Z.to_nat (t - s)) (skipn (Z.to_nat s) (buf b)))).
    f_equal. f_equal. rewrite <- Hs.
    rewrite (nth_error_nth _ _ [] (map_nth_error _ _ _ En)).
    rewrite rawOf_entryOf by assumption. reflexivity.
Qed.

(** X1.  Whatever the chunks, the appends never panic; the buffer has as
    many lines as the bytes have segments between newlines, and [Line n]
    is the segment of number [n] cut before its last carriage return (the
    empty string from the number of lines on). *)
Theorem Line_is_segment (chunks : list (list byte)) :
  exists b,
    AppendAll newBuffer chunks = Ok b
    /\ buf b = List.concat chunks
    /\ NLines b = len (splitLF (List.concat chunks))
    /\ forall n : nat,
         Line b (Z.of_nat n)
         = Ok (cutAtCR (nth n (splitLF (List.concat chunks)) [])).
Proof.
  destruct (AppendAll_Indexed chunks _ Indexed_newBuffer) as (b & H & HI & Hb).
  simpl in Hb. exists b. split; [exact H|]. split; [exact Hb|]. split.
  - unfold NLines, len. rewrite <- Hb, <- (Indexed_splitLF b HI), length_map.
    reflexivity.
  - intros n. rewrite <- Hb. apply Line_Indexed. exact HI.
Qed.

Lemma splitLF_nil_iff (s : list byte) : splitLF s = [] <-> s = [].
Proof.
  split; [|intros ->; reflexivity].
  destruct s as [|x s]; [reflexivity|]. simpl.
  destruct (Byte.eqb x LF); [discriminate|].
  destruct (splitLF s); discriminate.
Qed.

(** Appending bytes leaves every segment but the last as it is. *)
Lemma splitLF_app_stable (B p : list byte) :
  forall n, (S n < List.length (splitLF B))%nat ->
            nth n (splitLF (B ++ p)) [] = nth n (splitLF B) [].
Proof.
  induction B as [|x r IH]; intros n Hn; simpl in *; [lia|].
  destruct (Byte.eqb x LF).
  - destruct n as [|n']; [reflexivity|]. simpl in *. apply IH. lia.
  - destruct (splitLF r) as [|seg segs] eqn:Er; [simpl in Hn; lia|].
    assert (r <> []) as Hr by (intros ->; discriminate).
    destruct (splitLF (r ++ p)) as [|seg' segs'] eqn:Erp.
    { apply splitLF_nil_iff in Erp. destruct r; [contradiction | discriminate]. }
    simpl in Hn.
    pose proof (IH 0%nat) as H0. simpl in H0.
    destruct n as [|n']; simpl.
    + rewrite H0 by lia. reflexivity.
    + pose proof (IH (S n')) as Hn'. simpl in Hn'. apply Hn'. lia.
Qed.

(** X2.  An append changes no line but the last: after any appends
    followed by one more of [p], every [Line n] before the last line of
    the buffer is what it was, and the bytes already there stay in front
    of [p]. *)
Theorem Append_keeps_earlier_lines (chunks : list (list byte)) (p : list byte) :
  exists b b',
    AppendAll newBuffer chunks = Ok b
    /\ Append b p = Ok b'
    /\ buf b' = buf b ++ p
    /\ Len b' = Len b + len p
    /\ forall n : nat,
         Z.of_nat n + 1 < NLines b ->
         Line b' (Z.of_nat n) = Line b (Z.of_nat n).
Proof.
  destruct (AppendAll_Indexed chunks _ Indexed_newBuffer) as (b & H & HI & _).
  destruct (Append_Indexed b p HI) as (b' & H' & HI' & Hb').
  exists b, b'. split; [exact H|]. split; [exact H'|]. split; [exact Hb'|].
  split; [unfold Len; rewrite Hb'; apply len_app|].
  intros n Hn. rewrite (Line_Indexed b' n HI'), (Line_Indexed b n HI), Hb'.
  rewrite splitLF_app_stable; [reflexivity|].
  unfold NLines, len in Hn. rewrite <- (Indexed_splitLF b HI), length_map. lia.
Qed.

(** The lines of src/stream/buffer_test.go's last case stay when text
    arrives after them. *)
Lemma Append_keeps_earlier_lines_witness :
  exists b b',
    AppendAll newBuffer [bytes "V" ++ [LF] ++ bytes "hello 1" ++ [LF] ++ bytes "he"]
    = Ok b
    /\ Append b (bytes "llo 2") = Ok b'
    /\ buf b' = buf b ++ bytes "llo 2"
    /\ Len b' = Len b + len (bytes "llo 2")
    /\ forall n : nat,
         Z.of_nat n + 1 < NLines b ->
         Line b' (Z.of_nat n) = Line b (Z.of_nat n).
Proof.
  exact (Append_keeps_earlier_lines
           [bytes "V" ++ [LF] ++ bytes "hello 1" ++ [LF] ++ bytes "he"]
           (bytes "llo 2")).
Defined.

(** * More on the Reader *)

Section ReaderSteps.

Variable R : Type.
Variable rRead : R -> list byte -> Z * error * list byte * R.

(** X3.  A [Read] at an offset the buffer covers copies the buffered bytes
    from that offset into [p], as many as fit, moves the offset by that
    count, returns no error, and leaves the Shared, the underlying reader
    included, as it was. *)
Theorem Read_cached (s : Shared R) (rd : Reader) (p : list byte) :
  0 <= off rd < Len (sbuf s) ->
  let n := Z.min (len p) (Len (sbuf s) - off rd) in
  Read rRead s rd p
  = Ok (mkReadResult n None
          (firstn (Z.to_nat n) (skipn (Z.to_nat (off rd)) (buf (sbuf s)))
           ++ skipn (Z.to_nat n) p)
          s (mkReader (off rd + n))).
Proof.
  intros [H0 H1] n. unfold Read.
  destruct (off rd <? Len (sbuf s)) eqn:E; [|apply Z.ltb_ge in E; lia].
  unfold readCached, ReadAt, Len in *.
  rewrite sliceFrom_ok by lia. cbn [bind]. unfold copy.
  assert (len (skipn (Z.to_nat (off rd)) (buf (sbuf s)))
          = len (buf (sbuf s)) - off rd) as ->.
  { unfold len in *. rewrite length_skipn. lia. }
  reflexivity.
Qed.

(** The contract of [io.Reader]: [Read] returns at most [len(p)] bytes. *)
Hypothesis rRead_count :
  forall r p n e p' r', rRead r p = (n, e, p', r') -> n <= len p'.

(** X4.  With a buffer built by [Append] and a Reader whose offset is
    inside it, [Read] never panics, and afterwards the buffer is again
    built by [Append], holds the bytes it held followed by what this call
    read from the underlying reader (nothing, when the offset was
    covered), and the Reader's offset has not gone back and is still
    inside the buffer. *)
Theorem Read_keeps_buffer (s : Shared R) (rd : Reader) (p : list byte) :
  Indexed (sbuf s) ->
  0 <= off rd <= Len (sbuf s) ->
  exists res fetched,
    Read rRead s rd p = Ok res
    /\ Indexed (sbuf (rr_shared res))
    /\ buf (sbuf (rr_shared res)) = buf (sbuf s) ++ fetched
    /\ (off rd < Len (sbuf s) -> fetched = [] /\ r (rr_shared res) = r s)
    /\ off rd <= off (rr_reader res) <= Len (sbuf (rr_shared res)).
Proof.
  intros HI [H0 H1].
  destruct (Z.lt_ge_cases (off rd) (Len (sbuf s))) as [Hlt | Hge].
  - pose proof (Read_cached s rd p (conj H0 Hlt)) as HR. cbv zeta in HR.
    eexists _, []. split; [exact HR|]. cbn [rr_shared rr_reader off].
    rewrite app_nil_r. pose proof (len_nonneg p).
    repeat split; try assumption; lia.
  - destruct (rRead (r s) p) as [[[n e] p'] r'] eqn:Hr.
    destruct (Read_uncovered R rRead rRead_count s rd p n e p' r' HI Hge Hr)
      as (b' & HR & HI' & Hb).
    eexists _, _. split; [exact HR|]. cbn [rr_shared rr_reader sbuf].
    split; [exact HI'|]. split; [exact Hb|]. split; [lia|].
    unfold Len in *. rewrite Hb, len_app.
    pose proof (len_nonneg (firstn (Z.to_nat n) p')). lia.
Qed.

End ReaderSteps.

Lemma Read_cached_witness :
  Read bytesRead (mkShared (mkBuffer (bytes "abc") [mkEntry 0 3 3]) [])
    (mkReader 1) (make 4)
  = Ok (mkReadResult 2 None
          (firstn 2 (skipn 1 (bytes "abc")) ++ skipn 2 (make 4))
          (mkShared (mkBuffer (bytes "abc") [mkEntry 0 3 3]) [])
          (mkReader 3)).
Proof.
  apply (Read_cached (list byte) bytesRead
           (mkShared (mkBuffer (bytes "abc") [mkEntry 0 3 3]) [])
           (mkReader 1) (make 4)).
  vm_compute. split; discriminate || reflexivity.
Defined.

Lemma Read_keeps_buffer_witness :
  exists res fetched,
    Read bytesRead (NewShared (bytes "abc")) newReader (make 2) = Ok res
    /\ Indexed (sbuf (rr_shared res))
    /\ buf (sbuf (rr_shared res)) = buf (sbuf (NewShared (bytes "abc"))) ++ fetched
    /\ (off newReader < Len (sbuf (NewShared (bytes "abc"))) ->
        fetched = [] /\ r (rr_shared res) = r (NewShared (bytes "abc")))
    /\ off newReader <= off (rr_reader res) <= Len (sbuf (rr_shared res)).
Proof.
  apply (Read_keeps_buffer (list byte) bytesRead bytesRead_count
           (NewShared (bytes "abc")) newReader (make 2)).
  - exact Indexed_newBuffer.
  - vm_compute. split; discriminate.
Defined.

(** * The view: scrolling *)

Module StreamviewFacts.

Import Streamview.

Lemma clamp_bounds (v low high : Z) :
  Z.min low high <= clamp v low high <= Z.max low high
  /\ (Z.min low high <= v <= Z.max low high -> clamp v low high = v).
Proof.
  unfold clamp. destruct (high <? low) eqn:E;
    [apply Z.ltb_lt in E | apply Z.ltb_ge in E]; lia.
Qed.

Lemma SetCurrentLine_range (b : Buffer) (m : Model) (n : Z) :
  0 <= maxLine b m ->
  0 <= CurrentLine (SetCurrentLine b m n) <= maxLine b (SetCurrentLine b m n).
Proof.
  intros H. unfold SetCurrentLine, set_CurrentLine, maxLine in *.
  cbn [CurrentLine Height].
  pose proof (clamp_bounds n 0 (NLines b + Height m - 1)). lia.
Qed.

(** X5.  When a view can show a line at all ([maxLine() >= 0]), every
    scrolling method leaves [CurrentLine] between 0 and [maxLine()], so
    the view is not past the bottom, and changes neither the height nor
    the recorded error. *)
Theorem scroll_keeps_line_in_range (b : Buffer) (m : Model) (op : scroll) :
  0 <= maxLine b m ->
  let m' := fst (scrolled b m op) in
  0 <= CurrentLine m' <= maxLine b m'
  /\ PastBottom b m' = false
  /\ Height m' = Height m
  /\ lastErr m' = lastErr m.
Proof.
  intros H.
  assert (forall n,
             0 <= CurrentLine (SetCurrentLine b m n)
               <= maxLine b (SetCurrentLine b m n)
             /\ PastBottom b (SetCurrentLine b m n) = false
             /\ Height (SetCurrentLine b m n) = Height m
             /\ lastErr (SetCurrentLine b m n) = lastErr m) as HS.
  { intros n. pose proof (SetCurrentLine_range b m n H) as Hr.
    split; [exact Hr|]. split; [|split; reflexivity].
    unfold PastBottom.
    destruct (Z.gtb_spec (CurrentLine (SetCurrentLine b m n))
                (maxLine b (SetCurrentLine b m n))); [lia | reflexivity]. }
  destruct op; cbn [scrolled fst ViewDown ViewUp HalfViewDown HalfViewUp
                      LineDown LineUp GotoTop GotoBottom]; apply HS.
Qed.

Lemma scroll_keeps_line_in_range_witness :
  let m' := fst (scrolled helloWorld (mkView 10 0 None) (DoLineDown 25)) in
  0 <= CurrentLine m' <= maxLine helloWorld m'
  /\ PastBottom helloWorld m' = false
  /\ Height m' = Height (mkView 10 0 None)
  /\ lastErr m' = lastErr (mkView 10 0 None).
Proof.
  apply (scroll_keeps_line_in_range helloWorld (mkView 10 0 None) (DoLineDown 25)).
  vm_compute. discriminate.
Defined.

(** X6.  [LineDown] never puts the top of the view past the last line of
    the buffer, and from a line of the buffer it never moves up when [n]
    is not negative; [LineUp] never moves down when [n] is not
    negative. *)
Theorem LineDown_LineUp_direction (b : Buffer) (m : Model) (n : Z) :
  1 <= Height m ->
  CurrentLine (fst (LineDown b m n)) <= Z.max 0 (NLines b - 1)
  /\ (0 <= n -> 0 <= CurrentLine m <= NLines b - 1 ->
      CurrentLine m <= CurrentLine (fst (LineDown b m n)))
  /\ (0 <= n -> CurrentLine (LineUp b m n) <= Z.max 0 (CurrentLine m)).
Proof.
  intros H. unfold LineDown, LineUp, SetCurrentLine, set_CurrentLine, maxLine.
  cbn [fst CurrentLine].
  pose proof (len_nonneg (lines b)) as Hn. fold (NLines b) in Hn.
  unfold clamp.
  destruct (NLines b + Height m - 1 <? 0) eqn:E;
    [apply Z.ltb_lt in E | apply Z.ltb_ge in E]; lia.
Qed.

Lemma LineDown_LineUp_direction_witness :
  CurrentLine (fst (LineDown helloWorld (mkView 10 0 None) 3))
  <= Z.max 0 (NLines helloWorld - 1)
  /\ (0 <= 3 -> 0 <= CurrentLine (mkView 10 0 None) <= NLines helloWorld - 1 ->
      CurrentLine (mkView 10 0 None)
      <= CurrentLine (fst (LineDown helloWorld (mkView 10 0 None) 3)))
  /\ (0 <= 3 ->
      CurrentLine (LineUp helloWorld (mkView 10 0 None) 3)
      <= Z.max 0 (CurrentLine (mkView 10 0 None))).
Proof.
  apply (LineDown_LineUp_direction helloWorld (mkView 10 0 None) 3).
  vm_compute. discriminate.
Defined.

Lemma shouldReadMore_after_error (b : Buffer) (m : Model) (text : string) :
  lastErr m = Some text -> shouldReadMore b m = false.
Proof.
  intros H. unfold shouldReadMore. rewrite H.
  destruct (VisibleLineCount b m >=? Height m); reflexivity.
Qed.

(** X7.  Once a read of the view has returned an error, the end of the
    stream included, the view asks for no other read: neither the
    handling of that read nor any scrolling afterwards, whatever the
    buffer holds by then, returns a read command. *)
Theorem no_read_after_error (b : Buffer) (m : Model) (text : string)
  (steps : list (Buffer * scroll)) :
  snd (onRead b m (Some text)) = false
  /\ Forall (fun cmd => cmd = false)
       (snd (scrolledAll (fst (onRead b m (Some text))) steps)).
Proof.
  split; [apply shouldReadMore_after_error with (text := text); reflexivity|].
  assert (lastErr (fst (onRead b m (Some text))) = Some text) as H
    by reflexivity.
  revert H. generalize (fst (onRead b m (Some text))). clear b m.
  induction steps as [|[b op] rest IH]; intros m H; simpl; [constructor|].
  destruct (scrolled b m op) as [m1 cmd] eqn:E1.
  assert (lastErr m1 = Some text /\ cmd = false) as [H1 ->].
  { destruct op; cbn in E1; injection E1 as <- <-;
      (split; [exact H|]); try reflexivity;
      apply shouldReadMore_after_error with (text := text); exact H. }
  specialize (IH m1 H1). destruct (scrolledAll m1 rest) as [m2 cmds].
  simpl in *. constructor; [reflexivity | exact IH].
Qed.

Lemma collectLines_ok (b : Buffer) (fuel : nat) :
  Indexed b ->
  forall (i : nat) (bottom : Z) (acc : list (list byte)),
    fuel = Z.to_nat (bottom - Z.of_nat i + 1) ->
    collectLines fuel b (Z.of_nat i) bottom acc
    = Ok (acc ++ map (fun k => cutAtCR (nth k (splitLF (buf b)) []))
                   (seq i fuel)).
Proof.
  intros HI. induction fuel as [|fuel IH]; intros i bottom acc Hf; simpl.
  - rewrite app_nil_r. reflexivity.
  - destruct (Z.of_nat i <=? bottom) eqn:E;
      [apply Z.leb_le in E | apply Z.leb_gt in E; lia].
    rewrite (Line_Indexed b i HI). cbn [bind].
    replace (Z.of_nat i + 1) with (Z.of_nat (S i)) by lia.
    rewrite IH by lia. rewrite <- app_assoc. reflexivity.
Qed.

(** X8.  On a buffer built by [Append], [visibleLines] never panics.  It
    returns the lines from the top of the view ([max(0, CurrentLine)]) on,
    [VisibleLineCount()] of them, each the segment of its number cut
    before its last carriage return. *)
Theorem visibleLines_are_segments (b : Buffer) (m : Model) :
  Indexed b ->
  exists ls,
    visibleLines b m = Ok ls
    /\ len ls = Z.max 0 (VisibleLineCount b m)
    /\ forall k : nat,
         (k < List.length ls)%nat ->
         nth k ls []
         = cutAtCR (nth (Z.to_nat (Z.max 0 (CurrentLine m)) + k)
                      (splitLF (buf b)) []).
Proof.
  intros HI. unfold visibleLines, VisibleLineCount.
  destruct (hasLines b); cbn [negb].
  2:{ exists []. repeat split. intros k Hk. simpl in Hk. lia. }
  unfold visibleLineRange. cbv beta iota zeta.
  set (top := Z.max 0 (CurrentLine m)).
  set (bottom := clamp (maxLine b m) top (NLines b - 1)).
  assert (Z.of_nat (Z.to_nat top) = top) as Ht by (unfold top; lia).
  pose proof (collectLines_ok b (Z.to_nat (bottom - top + 1)) HI
                (Z.to_nat top) bottom []) as Hc.
  rewrite Ht in Hc. rewrite Hc by reflexivity.
  eexists. split; [reflexivity|]. cbn [app]. split.
  - unfold len. rewrite length_map, length_seq. lia.
  - intros k Hk. rewrite length_map, length_seq in Hk.
    rewrite (nth_indep _ [] (cutAtCR (nth 0 (splitLF (buf b)) [])))
      by (rewrite length_map, length_seq; exact Hk).
    rewrite (map_nth (fun k => cutAtCR (nth k (splitLF (buf b)) []))).
    rewrite seq_nth by exact Hk. reflexivity.
Qed.

(** X15.  For a view of height 1 or more whose top line is in range (as
    it is after any scrolling), [VisibleLineCount] is the number of lines
    from the top of the view to the end of the buffer, not cut at the
    height, and 1 when the top is past the last line; another read is
    asked for exactly when no read has failed and that number is below the
    height. *)
Theorem reads_until_view_is_full (b : Buffer) (m : Model) :
  1 <= Height m ->
  0 <= CurrentLine m <= maxLine b m ->
  VisibleLineCount b m
  = (if NLines b =? 0 then 0 else Z.max 1 (NLines b - CurrentLine m))
  /\ shouldReadMore b m
     = match lastErr m with
       | Some _ => false
       | None =>
           if NLines b =? 0 then true
           else Z.max 1 (NLines b - CurrentLine m) <? Height m
       end.
Proof.
  intros HH HC.
  pose proof (len_nonneg (lines b)) as Hn. fold (NLines b) in Hn.
  assert (VisibleLineCount b m
          = (if NLines b =? 0 then 0 else Z.max 1 (NLines b - CurrentLine m)))
    as HV.
  { unfold VisibleLineCount, hasLines, visibleLineRange, clamp, maxLine in *.
    destruct (NLines b =? 0) eqn:E0;
      [apply Z.eqb_eq in E0 | apply Z.eqb_neq in E0].
    - assert ((NLines b >? 0) = false) as -> by lia. reflexivity.
    - assert ((NLines b >? 0) = true) as -> by lia. cbn [negb].
      destruct (NLines b - 1 <? Z.max 0 (CurrentLine m)) eqn:E1;
        [apply Z.ltb_lt in E1 | apply Z.ltb_ge in E1]; lia. }
  split; [exact HV|].
  unfold shouldReadMore. rewrite HV.
  destruct (NLines b =? 0) eqn:E0.
  - assert ((0 >=? Height m) = false) as -> by lia.
    destruct (lastErr m); reflexivity.
  - destruct (Z.max 1 (NLines b - CurrentLine m) >=? Height m) eqn:E1;
      destruct (lastErr m); try reflexivity; symmetry; lia.
Qed.

Lemma reads_until_view_is_full_witness :
  VisibleLineCount helloWorld (mkView 10 1 None)
  = (if NLines helloWorld =? 0 then 0
     else Z.max 1 (NLines helloWorld - CurrentLine (mkView 10 1 None)))
  /\ shouldReadMore helloWorld (mkView 10 1 None)
     = match lastErr (mkView 10 1 None) with
       | Some _ => false
       | None =>
           if NLines helloWorld =? 0 then true
           else Z.max 1 (NLines helloWorld - CurrentLine (mkView 10 1 None))
                <? Height (mkView 10 1 None)
       end.
Proof.
  apply (reads_until_view_is_full helloWorld (mkView 10 1 None)).
  - vm_compute. discriminate.
  - vm_compute. split; discriminate.
Defined.

End StreamviewFacts.

Lemma Indexed_helloWorld : Indexed helloWorld.
Proof.
  destruct (Append_Indexed newBuffer
              (bytes "hello" ++ [LF] ++ bytes "world" ++ [LF]) Indexed_newBuffer)
    as (b' & H & HI & _).
  vm_compute in H. injection H as <-. exact HI.
Qed.

Lemma visibleLines_are_segments_witness :
  exists ls,
    Streamview.visibleLines helloWorld (Streamview.mkView 10 1 None) = Ok ls
    /\ len ls = Z.max 0 (Streamview.VisibleLineCount helloWorld
                           (Streamview.mkView 10 1 None))
    /\ forall k : nat,
         (k < List.length ls)%nat ->
         nth k ls []
         = cutAtCR (nth (Z.to_nat (Z.max 0
                           (Streamview.CurrentLine (Streamview.mkView 10 1 None)))
                         + k)
                      (splitLF (buf helloWorld)) []).
Proof.
  apply (StreamviewFacts.visibleLines_are_segments helloWorld
           (Streamview.mkView 10 1 None)).
  exact Indexed_helloWorld.
Defined.

(** * The controller: the focused stage and the cursor keys *)

Lemma StronglySorted_le_nth (a : list Z) :
  StronglySorted Z.le a ->
  forall p q, (p <= q < List.length a)%nat -> nth p a 0 <= nth q a 0.
Proof.
  induction 1 as [|y a HS IH HF]; intros p q Hpq; simpl in Hpq; [lia|].
  destruct q as [|q]; [assert (p = 0%nat) as -> by lia; lia|].
  destruct p as [|p]; cbn [nth].
  - rewrite Forall_forall in HF. apply HF, nth_In. lia.
  - apply IH. lia.
Qed.



Lemma search_spec (a : list Z) (x i j : Z) :
  StronglySorted Z.le a ->
  0 <= i <= j -> j <= len a ->
  (forall k, (k < Z.to_nat i)%nat -> nth k a 0 < x) ->
  (forall k, (Z.to_nat j <= k < List.length a)%nat -> x <= nth k a 0) ->
  (forall k, (k < Z.to_nat (Pex.search a x i j))%nat -> nth k a 0 < x)
  /\ (forall k, (Z.to_nat (Pex.search a x i j) <= k < List.length a)%nat ->
                x <= nth k a 0).
Proof.
  intros HS. funelim (Pex.search a x i j); intros Hij Hj Hlo Hhi.
  - split; [exact Hlo|]. intros k Hk. apply Hhi. lia.
  - assert (i <= (i + j) / 2 < j)
      by (split; [apply Z.div_le_lower_bound | apply Z.div_lt_upper_bound]; lia).
    apply H; try lia; [exact HS | | exact Hhi].
    intros k Hk.
    apply Z.le_lt_trans with (m := nth (Z.to_nat ((i + j) / 2)) a 0);
      [|assumption].
    apply (StronglySorted_le_nth a HS). unfold len in Hj. lia.
  - assert (i <= (i + j) / 2 < j)
      by (split; [apply Z.div_le_lower_bound | apply Z.div_lt_upper_bound]; lia).
    apply H; try lia; [exact HS | exact Hlo |].
    intros k Hk.
    apply Z.le_trans with (m := nth (Z.to_nat ((i + j) / 2)) a 0); [lia|].
    apply (StronglySorted_le_nth a HS). lia.
Qed.

Lemma SearchInts_spec (a : list Z) (x : Z) :
  StronglySorted Z.le a ->
  (forall k, (k < Z.to_nat (SearchInts a x))%nat -> nth k a 0 < x)
  /\ (forall k, (Z.to_nat (SearchInts a x) <= k < List.length a)%nat ->
                x <= nth k a 0).
Proof.
  intros HS. unfold SearchInts.
  apply (search_spec a x 0 (len a) HS).
  - pose proof (len_nonneg a). lia.
  - lia.
  - intros k Hk. simpl in Hk. lia.
  - intros k Hk. unfold len in Hk. lia.
Qed.

Lemma focusedPager_updateWindow (m : model) :
  focusedPager (updateWindow m) = SearchInts (pipes m) (inputPos m).
Proof.
  unfold updateWindow. cbv zeta.
  repeat match goal with |- context [if ?c then _ else _] => destruct c end;
    reflexivity.
Qed.

(** X9.  When the pipe offsets are in ascending order, the stage a pass
    focuses is the number of offsets before the cursor: the offsets before
    that index are less than the cursor position, those from it on are at
    least the cursor position. *)
Theorem focus_counts_pipes_before_cursor (m : model) :
  StronglySorted Z.le (pipes m) ->
  let f := focusedPager (updateWindow m) in
  0 <= f <= len (pipes m)
  /\ Forall (fun o => o < inputPos m) (firstn (Z.to_nat f) (pipes m))
  /\ Forall (fun o => inputPos m <= o) (skipn (Z.to_nat f) (pipes m)).
Proof.
  intros HS. cbv zeta. rewrite focusedPager_updateWindow.
  pose proof (SearchInts_bounds (pipes m) (inputPos m)) as Hb.
  destruct (SearchInts_spec (pipes m) (inputPos m) HS) as [Hlo Hhi].
  unfold len in Hb.
  split; [exact Hb|]. split; apply Forall_nth; intros k d Hk.
  - rewrite length_firstn in Hk.
    rewrite nth_firstn.
    assert ((k <? Z.to_nat (SearchInts (pipes m) (inputPos m)))%nat = true)
      as -> by (apply Nat.ltb_lt; lia).
    rewrite (nth_indep _ d 0) by lia. apply Hlo. lia.
  - rewrite length_skipn in Hk. rewrite nth_skipn.
    rewrite (nth_indep _ d 0) by lia. apply Hhi. lia.
Qed.

Lemma focus_counts_pipes_before_cursor_witness :
  let f := focusedPager (updateWindow modelABC) in
  0 <= f <= len (pipes modelABC)
  /\ Forall (fun o => o < inputPos modelABC)
       (firstn (Z.to_nat f) (pipes modelABC))
  /\ Forall (fun o => inputPos modelABC <= o)
       (skipn (Z.to_nat f) (pipes modelABC)).
Proof.
  apply (focus_counts_pipes_before_cursor modelABC).
  vm_compute. repeat constructor; discriminate.
Defined.




(** * The controller: what holds in every state *)

Lemma updateWindow_window (m : model) :
  0 <= minPager m ->
  maxPager m - minPager m < maxPagers ->
  let m' := updateWindow m in
  0 <= minPager m' <= focusedPager m'
  /\ focusedPager m' <= maxPager m'
  /\ maxPager m' - minPager m' < maxPagers
  /\ focusedPager m' <= len (pipes m')
  /\ maxPager m' <= Z.max (focusedPager m') (len (pagers m')).
Proof.
  intros H0 H. cbv zeta.
  rewrite pipes_updateWindow, pagers_updateWindow.
  unfold updateWindow, maxPagers in *. cbv zeta.
  pose proof (SearchInts_bounds (pipes m) (inputPos m)) as Hf.
  cbn [focusedPager set_focused set_window minPager maxPager pagers].
  destruct (SearchInts (pipes m) (inputPos m)
            >? Z.min (maxPager m) (len (pagers m) - 1)) eqn:E1;
    cbn [focusedPager set_focused set_window minPager maxPager pagers].
  - destruct (SearchInts (pipes m) (inputPos m)
              <? Z.max 0 (SearchInts (pipes m) (inputPos m) - 3 + 1)) eqn:E2;
      cbn [focusedPager set_focused set_window minPager maxPager pagers]; lia.
  - destruct (SearchInts (pipes m) (inputPos m) <? minPager m) eqn:E2;
      cbn [focusedPager set_focused set_window minPager maxPager pagers]; lia.
Qed.

Lemma aligned_Argv (ps : list pager) (cs cs' : list Command) :
  aligned ps cs -> map Argv cs' = map Argv cs -> aligned ps cs'.
Proof.
  intros H. revert cs'. induction H as [|p c ps cs Hpc H IH]; intros cs' Hm.
  - destruct cs'; [constructor | discriminate].
  - destruct cs' as [|c' cs']; [discriminate|]. simpl in Hm.
    injection Hm as Hc Hm. constructor; [|apply IH; exact Hm].
    apply Equal_iff. apply Equal_iff in Hpc. congruence.
Qed.

Lemma Name_Args_Argv (c : Command) :
  Empty c = false -> Name c :: Args c = Argv c.
Proof.
  unfold Name, Args, Empty, len.
  destruct (Argv c) as [|x r]; simpl; [discriminate|].
  intros _. reflexivity.
Qed.

Lemma last_default {A : Type} (l : list A) (d d' : A) :
  l <> [] -> last l d = last l d'.
Proof.
  induction l as [|x l IH]; intros H; [contradiction|].
  destruct l as [|y l]; [reflexivity|].
  change (last (x :: y :: l) d) with (last (y :: l) d).
  change (last (x :: y :: l) d') with (last (y :: l) d').
  apply IH. discriminate.
Qed.

Lemma wired_app (prev : pager) (ps qs : list pager) :
  wired prev (ps ++ qs) <-> wired prev ps /\ wired (last (prev :: ps) prev) qs.
Proof.
  revert prev. induction ps as [|p ps IH]; intros prev.
  - simpl. tauto.
  - change (last (prev :: p :: ps) prev) with (last (p :: ps) prev).
    rewrite (last_default (p :: ps) prev p) by discriminate.
    cbn [app wired]. rewrite IH. tauto.
Qed.

Lemma wired_firstn (prev : pager) (ps : list pager) (n : nat) :
  wired prev ps -> wired prev (firstn n ps).
Proof.
  intros H. rewrite <- (firstn_skipn n ps) in H.
  apply wired_app in H. tauto.
Qed.

Lemma wired_nth (prev : pager) (ps : list pager) :
  wired prev ps ->
  forall i q p,
    nth_error (prev :: ps) i = Some q ->
    nth_error (prev :: ps) (S i) = Some p ->
    (shared q < shared p)%nat /\ forall x, cmd p = Some x -> x = shared q.
Proof.
  revert prev. induction ps as [|p0 ps IH]; intros prev H i q p Hq Hp.
  - destruct i; simpl in Hp; [discriminate | destruct i; discriminate].
  - destruct H as (H1 & H2 & H3). destruct i as [|i].
    + simpl in Hq, Hp. injection Hq as <-. injection Hp as <-. auto.
    + apply (IH p0 H3 i q p); assumption.
Qed.

Lemma wired_placeholders (prev : pager) (n g : nat) :
  (shared prev < n)%nat -> wired prev (map placeholder (seq n g)).
Proof.
  revert prev n. induction g as [|g IH]; intros prev n H; simpl; [exact I|].
  split; [exact H|]. split; [discriminate|]. apply IH. simpl. lia.
Qed.

Lemma last_bound (P : pager -> Prop) (ps : list pager) (d : pager) :
  ps <> [] -> Forall P ps -> P (last ps d).
Proof.
  intros Hne HF. rewrite Forall_forall in HF. apply HF.
  apply last_In. exact Hne.
Qed.

Section ControllerStatesFacts.

Variable Parse : string -> list Command * list Z * error.
Variable quote : string -> string.
Variable startProcess : nat -> Command -> error.

Local Abbreviation parseInput := (parseInput Parse quote).
Local Abbreviation updatePagers := (updatePagers Parse quote startProcess).
Local Abbreviation edit := (edit Parse quote startProcess).
Local Abbreviation Launched := (Launched startProcess).
Local Abbreviation Rebuilt := (Rebuilt startProcess).
Local Abbreviation Reachable := (Reachable Parse quote startProcess).
Local Abbreviation Session := (Session Parse quote startProcess).

Lemma Session_Reachable (w0 : world) (m : model) (w : world) :
  Session w0 m w -> Reachable m w.
Proof.
  induction 1 as [m w H | m w value pos m' cmds w' _ IH H].
  - exact (Reachable_new Parse quote startProcess w0 m w H).
  - exact (Reachable_edit Parse quote startProcess m w value pos m' cmds w' IH H).
Qed.

(** The model a pass ends in, from a state of [Inv]. *)
Lemma edit_shape (m : model) (w : world) (value : string) (pos : Z)
  (m' : model) (cmds : list nat) (w' : world) :
  Inv m w ->
  edit value pos m w = Ok ((m', cmds), w') ->
  exists m1 ps,
    m' = updateWindow (set_pagers m1 ps)
    /\ minPager m1 = minPager m
    /\ maxPager m1 = maxPager m.
Proof.
  intros [(p0 & rest & excess & Hp & _) _] HE.
  destruct (parseInput_total Parse quote value) as (pc & pp & e & HP).
  destruct (pass_ok Parse quote startProcess (set_input m value pos) w pc pp e
              p0 (rest ++ excess) HP Hp) as (news & w2 & _ & HU).
  unfold Pex.edit in HE. rewrite HU in HE. injection HE as <- _ _.
  eexists _, _. split; [reflexivity|].
  destruct e; split; reflexivity.
Qed.

(** X11.  In every state the controller reaches, the window of visible
    stages starts at 0 or later, holds the focused stage, is at most
    [maxPagers] wide, the focused stage is at most the number of pipe
    offsets, and the window ends at the focused stage or no later than the
    number of stages. *)
Theorem window_holds_focus_always (m : model) (w : world) :
  Reachable m w ->
  0 <= minPager m <= focusedPager m
  /\ focusedPager m <= maxPager m
  /\ maxPager m - minPager m < maxPagers
  /\ focusedPager m <= len (pipes m)
  /\ maxPager m <= Z.max (focusedPager m) (len (pagers m)).
Proof.
  induction 1 as [w0 m w H | m w value pos m' cmds w' HR IH H].
  - unfold newModel, bindM, newReadPager, newEmptyPager, newPager, bindM,
      alloc, ret in H. simpl in H. injection H as <- <-.
    unfold maxPagers, len. simpl. lia.
  - destruct (edit_shape m w value pos m' cmds w'
                (Reachable_Inv Parse quote startProcess m w HR) H)
      as (m1 & ps & -> & Hmin & Hmax).
    apply updateWindow_window; cbn [minPager maxPager set_pagers]; lia.
Qed.

(** A pass whose commands are, pager by pager, those of the stages: the
    pagers stay and the world is as it was. *)
Lemma quiet_pass_ok (m : model) (w : world) (pc : list Command) (pp : list Z)
  (p0 : pager) (rest : list pager) :
  parseInput (inputValue m) = Ok (pc, pp, None) ->
  pagers m = p0 :: rest ->
  aligned rest pc ->
  updatePagers m w
  = Ok ((updateWindow (set_pagers (applyParse m pc pp None) (p0 :: rest)), []),
        w).
Proof.
  intros HP Hp Hal.
  destruct (pass_ok Parse quote startProcess m w pc pp None p0 rest HP Hp)
    as (news & w' & HB & HU).
  cbv zeta in HB, HU. rewrite commands_applyParse_ok in HB, HU.
  pose proof (aligned_length _ _ Hal) as Hlen.
  replace (Z.to_nat (len pc - len rest)) with 0%nat
    in HB, HU by (unfold len; lia).
  cbn [seq map] in HB, HU. rewrite app_nil_r in HB, HU.
  rewrite <- Hlen in HB, HU.
  rewrite firstn_all in HB, HU. rewrite skipn_all in HB.
  rewrite (aligned_matching _ _ Hal) in HB, HU.
  rewrite firstn_all in HB, HU. rewrite skipn_all in HB.
  rewrite Hlen, skipn_all in HB.
  inversion HB; subst.
  rewrite HU. cbn [closeEvents flat_map]. rewrite Nat.add_0_r. cbn [map].
  rewrite !app_nil_r. destruct w; reflexivity.
Qed.

(** X12.  Once a pass has completed, an accepted edit whose commands have,
    place by place, the arguments of the current commands (the cursor
    moved, or blanks or quotes changed) restarts nothing: the pagers stay,
    no read command is returned, and the world is as it was. *)
Theorem same_commands_restart_nothing (m : model) (w : world)
  (value : string) (pos : Z) (m1 : model) (cmds1 : list nat) (w1 : world)
  (value' : string) (pos' : Z) (pc : list Command) (pp : list Z) :
  Reachable m w ->
  edit value pos m w = Ok ((m1, cmds1), w1) ->
  parseInput value' = Ok (pc, pp, None) ->
  map Argv pc = map Argv (commands m1) ->
  exists m2,
    edit value' pos' m1 w1 = Ok ((m2, []), w1)
    /\ pagers m2 = pagers m1
    /\ commands m2 = pc
    /\ pipes m2 = pp
    /\ err m2 = None.
Proof.
  intros HR HE HP HA.
  destruct (updatePagers_Inv Parse quote startProcess _ w
              (Inv_set_input m w value pos
                 (Reachable_Inv Parse quote startProcess m w HR)))
    as (m' & cmds' & w' & p0 & stages & HU & Hp & _ & Hal & _).
  unfold Pex.edit in HE. rewrite HU in HE. injection HE as -> -> ->.
  unfold Pex.edit.
  rewrite (quiet_pass_ok (set_input m1 value' pos') w1 pc pp p0 stages).
  - eexists. split; [reflexivity|].
    rewrite pagers_updateWindow, commands_updateWindow, pipes_updateWindow.
    destruct (err_updateWindow
                (set_pagers (applyParse (set_input m1 value' pos') pc pp None)
                   (p0 :: stages))) as [-> _].
    cbn. rewrite Hp. repeat split.
  - exact HP.
  - exact Hp.
  - apply aligned_Argv with (cs := commands m1); assumption.
Qed.

(** ** Processes and pagers over a session *)

Lemma In_firstn {A : Type} (l : list A) (n : nat) (x : A) :
  In x (firstn n l) -> In x l.
Proof.
  intros H. rewrite <- (firstn_skipn n l). apply in_or_app. left. exact H.
Qed.

Lemma In_skipn {A : Type} (l : list A) (n : nat) (x : A) :
  In x (skipn n l) -> In x l.
Proof.
  intros H. rewrite <- (firstn_skipn n l). apply in_or_app. right. exact H.
Qed.

Lemma Launched_events (r : nat) (c : Command) (w : world) (p : pager)
  (w' : world) :
  Launched r c w p w' ->
  exists L,
    events w' = events w ++ L
    /\ (fresh w < fresh w')%nat
    /\ (forall ev, In ev L -> ctxOf ev = fresh w)
    /\ (forall ctx argv r0, In (Started ctx argv r0) L -> cancel p = Some ctx)
    /\ (forall ctx, cancel p = Some ctx ->
          ctx = fresh w /\ cmd p = Some r
          /\ In (Started ctx (Argv (command p)) r) L
          /\ ~ In (Cancelled ctx) L)
    /\ (fresh w <= shared p < fresh w')%nat
    /\ (forall x, cmd p = Some x -> x = r).
Proof.
  intros [H | text H Hs | H Hs]; cbn [events fresh cmd shared cancel command].
  - exists []. rewrite app_nil_r.
    split; [reflexivity|]. split; [lia|]. split; [intros ev []|].
    split; [intros ? ? ? []|]. split; [discriminate|].
    split; [simpl; lia | discriminate].
  - exists [Cancelled (fresh w)].
    split; [reflexivity|]. split; [lia|].
    split; [intros ev [<- | []]; reflexivity|].
    split; [intros ? ? ? [[=] | []]|]. split; [discriminate|].
    split; [simpl; lia | discriminate].
  - exists [Started (fresh w) (Name c :: Args c) r].
    split; [reflexivity|]. split; [lia|].
    split; [intros ev [<- | []]; reflexivity|].
    split; [intros ? ? ? [[= <- _ _] | []]; reflexivity|].
    split.
    { intros ctx [= <-]. split; [reflexivity|]. split; [reflexivity|].
      rewrite <- (Name_Args_Argv c H).
      split; [left; reflexivity | intros [[=] | []]]. }
    split; [lia | intros x [= <-]; reflexivity].
Qed.

Lemma Rebuilt_news (r : nat) (olds : list pager) (cs : list Command)
  (w : world) (news : list pager) (w' : world) :
  Rebuilt r olds cs w news w' ->
  Forall (fun ctx => (ctx < fresh w)%nat) (ctxs olds) ->
  forall E, events w' = events w ++ E ->
    (forall ctx argv r0, In (Started ctx argv r0) E -> In ctx (ctxs news))
    /\ (forall p ctx, In p news -> cancel p = Some ctx ->
          exists r0, cmd p = Some r0
            /\ In (Started ctx (Argv (command p)) r0) E
            /\ ~ In (Cancelled ctx) E
            /\ (fresh w <= ctx)%nat)
    /\ Forall (fun ev => (ctxOf ev < fresh w')%nat) E.
Proof.
  induction 1 as [|r old olds c cs w w1 w' p news HL HR IH]; intros Holds E HE.
  - assert (E = []) as ->.
    { apply app_inv_head with (l := events w). rewrite app_nil_r.
      symmetry. exact HE. }
    split; [intros ? ? ? []|]. split; [intros ? ? []|constructor].
  - destruct (Rebuilt_events startProcess _ _ _ _ _ _ HR)
      as (E2 & HE2 & Hf2 & Hc2 & _ & _ & _).
    destruct (Launched_events _ _ _ _ _ HL)
      as (L & HL1 & HL2 & HL3 & HL4 & HL5 & _ & _).
    cbn [fresh events] in HL1, HL2, HL3, HL5.
    change (old :: olds) with ([old] ++ olds) in Holds.
    rewrite ctxs_app in Holds. apply Forall_app in Holds.
    destruct Holds as [Hold Holds]. rewrite Forall_forall in Hold, Holds.
    assert (E = closeEvents [old] ++ L ++ E2) as ->.
    { apply app_inv_head with (l := events w).
      rewrite <- HE, HE2, HL1, <- !app_assoc. reflexivity. }
    destruct (IH (proj2 (Forall_forall _ _)
                    (fun ctx H => Nat.lt_trans _ _ _ (Holds ctx H) HL2))
                E2 HE2) as (IH1 & IH2 & IH3).
    clear IH. rewrite Forall_forall in IH3.
    change (p :: news) with ([p] ++ news). rewrite ctxs_app.
    split; [|split].
    + intros ctx argv r0 Hin. apply in_app_or in Hin.
      destruct Hin as [Hin | Hin].
      { apply closeEvents_In in Hin. destruct Hin as (? & [=] & _). }
      apply in_app_or in Hin. apply in_or_app. destruct Hin as [Hin | Hin].
      * left. apply ctxs_In. exists p.
        split; [left; reflexivity | exact (HL4 _ _ _ Hin)].
      * right. exact (IH1 _ _ _ Hin).
    + intros p' ctx [<- | Hin] Hc.
      * destruct (HL5 ctx Hc) as (-> & Hcmd & HS & HnL).
        exists r. split; [exact Hcmd|].
        split; [apply in_or_app; right; apply in_or_app; left; exact HS|].
        split; [|lia].
        intros Hin. apply in_app_or in Hin. destruct Hin as [Hin | Hin].
        { apply closeEvents_In in Hin. destruct Hin as (ctx & [= <-] & Hin).
          specialize (Hold _ Hin). lia. }
        apply in_app_or in Hin. destruct Hin as [Hin | Hin];
          [exact (HnL Hin)|].
        destruct (Hc2 _ Hin) as [Hin' | Hge];
          [specialize (Holds _ Hin'); lia | lia].
      * destruct (IH2 p' ctx Hin Hc) as (r0 & Hcmd & HS & HnE & Hge).
        exists r0. split; [exact Hcmd|].
        split; [apply in_or_app; right; apply in_or_app; right; exact HS|].
        split; [|lia].
        intros Hin'. apply in_app_or in Hin'. destruct Hin' as [Hin' | Hin'].
        { apply closeEvents_In in Hin'. destruct Hin' as (ctx' & [= <-] & Hin').
          specialize (Hold _ Hin'). lia. }
        apply in_app_or in Hin'. destruct Hin' as [Hin' | Hin'];
          [|exact (HnE Hin')].
        specialize (HL3 _ Hin'). simpl in HL3. lia.
    + apply Forall_forall. intros ev Hin. apply in_app_or in Hin.
      destruct Hin as [Hin | Hin].
      { apply closeEvents_In in Hin. destruct Hin as (ctx & -> & Hin).
        specialize (Hold _ Hin). simpl. lia. }
      apply in_app_or in Hin. destruct Hin as [Hin | Hin].
      * rewrite (HL3 _ Hin). lia.
      * exact (IH3 _ Hin).
Qed.

Lemma Rebuilt_wired (r : nat) (olds : list pager) (cs : list Command)
  (w : world) (news : list pager) (w' : world) :
  Rebuilt r olds cs w news w' ->
  forall prev,
    shared prev = r -> (shared prev < fresh w)%nat ->
    wired prev news
    /\ Forall (fun p => (shared p < fresh w')%nat) news
    /\ (fresh w <= fresh w')%nat.
Proof.
  induction 1 as [|r old olds c cs w w1 w' p news HL HR IH];
    intros prev Hr Hlt.
  - split; [exact I|]. split; [constructor | lia].
  - destruct (Launched_events _ _ _ _ _ HL)
      as (_ & _ & HL2 & _ & _ & _ & HL6 & HL7).
    cbn [fresh events] in HL2, HL6.
    destruct (IH p eq_refl (proj2 HL6)) as (IH1 & IH2 & IH3).
    split; [|split; [|lia]].
    + cbn [wired]. split; [lia|]. split; [|exact IH1].
      intros x Hx. rewrite Hr. exact (HL7 x Hx).
    + constructor; [lia | exact IH2].
Qed.

Lemma In_grown (old : list pager) (ids : list nat) (p : pager) (ctx : nat) :
  In p (old ++ map placeholder ids) -> cancel p = Some ctx -> In p old.
Proof.
  intros Hin Hc. apply in_app_or in Hin. destruct Hin as [Hin | Hin];
    [exact Hin|].
  apply in_map_iff in Hin. destruct Hin as (x & <- & _). discriminate.
Qed.

(** One pass keeps the pagers wired and their Shared addresses below the
    next unused address. *)
Lemma pass_wired (m : model) (w : world) (p0 : pager) (old : list pager)
  (m' : model) (cmds : list nat) (w' : world) :
  pagers m = p0 :: old ->
  wired p0 old ->
  Forall (fun p => (shared p < fresh w)%nat) (p0 :: old) ->
  updatePagers m w = Ok ((m', cmds), w') ->
  exists ps,
    pagers m' = p0 :: ps
    /\ wired p0 ps
    /\ Forall (fun p => (shared p < fresh w')%nat) (p0 :: ps).
Proof.
  intros Hp Hw Hlt HU'.
  destruct (parseInput_total Parse quote (inputValue m)) as (pc & pp & e & HP).
  destruct (pass_ok Parse quote startProcess m w pc pp e p0 old HP Hp)
    as (news & w2 & HB & HU).
  rewrite HU in HU'. injection HU' as <- _ <-. clear HU.
  cbv zeta in HB.
  set (cs := commands (applyParse m pc pp e)) in *.
  set (g := Z.to_nat (len cs - len old)) in *.
  set (all := old ++ map placeholder (seq (fresh w) g)) in *.
  set (rest := firstn (List.length cs) all) in *.
  set (k := matching rest cs) in *.
  rewrite pagers_updateWindow. cbn [pagers set_pagers].
  exists (firstn k rest ++ news). split; [reflexivity|].
  assert (Forall (fun p => (shared p < fresh w + g)%nat) (p0 :: all)) as Hall.
  { change (p0 :: all) with ((p0 :: old) ++ map placeholder (seq (fresh w) g)).
    apply Forall_app. split.
    - eapply Forall_impl; [|exact Hlt]. simpl. intros; lia.
    - apply Forall_forall. intros p Hin. apply in_map_iff in Hin.
      destruct Hin as (x & <- & Hx). apply in_seq in Hx. simpl. lia. }
  assert (wired p0 all) as Hwall.
  { apply wired_app. split; [exact Hw|]. apply wired_placeholders.
    apply (last_bound (fun p => (shared p < fresh w)%nat) (p0 :: old) p0);
      [discriminate | exact Hlt]. }
  assert (wired p0 (firstn k rest)) as Hwk
    by (apply wired_firstn, wired_firstn; exact Hwall).
  assert (Forall (fun p => (shared p < fresh w + g)%nat) (p0 :: firstn k rest))
    as Hk.
  { rewrite Forall_forall in Hall. apply Forall_forall.
    intros p [<- | Hin]; apply Hall; [left; reflexivity | right].
    apply In_firstn in Hin. apply In_firstn in Hin. exact Hin. }
  destruct (Rebuilt_wired _ _ _ _ _ _ HB (last (p0 :: firstn k rest) p0) eq_refl)
    as (Hwn & Hn & Hf).
  { apply (last_bound (fun p => (shared p < fresh w + g)%nat)
             (p0 :: firstn k rest) p0); [discriminate | exact Hk]. }
  cbn [fresh] in Hf.
  split; [apply wired_app; split; assumption|].
  change (p0 :: firstn k rest ++ news) with ((p0 :: firstn k rest) ++ news).
  apply Forall_app. split; [|exact Hn].
  eapply Forall_impl; [|exact Hk]. simpl. intros; lia.
Qed.

Lemma Reachable_wired (m : model) (w : world) :
  Reachable m w ->
  exists p0 ps,
    pagers m = p0 :: ps
    /\ wired p0 ps
    /\ Forall (fun p => (shared p < fresh w)%nat) (p0 :: ps).
Proof.
  induction 1 as [w0 m w H | m w value pos m' cmds w' HR IH H].
  - unfold newModel, bindM, newReadPager, newEmptyPager, newPager, bindM,
      alloc, ret in H. simpl in H. injection H as <- <-.
    eexists _, _. split; [reflexivity|]. simpl.
    split; [split; [lia | split; [discriminate | exact I]]|].
    repeat constructor; simpl; lia.
  - destruct IH as (p0 & ps & Hp & Hw & Hlt).
    destruct (pass_wired (set_input m value pos) w p0 ps m' cmds w' Hp Hw Hlt H)
      as (ps' & Hp' & Hw' & Hlt').
    exists p0, ps'. auto.
Qed.

(** X13.  In every state the controller reaches, the Shared addresses of
    the stages go up along the pipeline, so no two stages share one, and
    the subprocess of a stage reads the Shared of the stage just before
    it. *)
Theorem pipeline_wired (m : model) (w : world) :
  Reachable m w ->
  forall i q p,
    nth_error (pagers m) i = Some q ->
    nth_error (pagers m) (S i) = Some p ->
    (shared q < shared p)%nat
    /\ forall x, cmd p = Some x -> x = shared q.
Proof.
  intros HR i q p Hq Hn.
  destruct (Reachable_wired m w HR) as (p0 & ps & Hp & Hw & _).
  rewrite Hp in Hq, Hn. exact (wired_nth p0 ps Hw i q p Hq Hn).
Qed.

(** What holds of the events of a session and of the pagers it ends
    with. *)
Lemma Session_processes (w0 : world) (m : model) (w : world) :
  Session w0 m w ->
  exists E,
    events w = events w0 ++ E
    /\ Forall (fun ev => (ctxOf ev < fresh w)%nat) E
    /\ (forall p ctx,
          In p (pagers m) -> cancel p = Some ctx ->
          exists r, cmd p = Some r
            /\ In (Started ctx (Argv (command p)) r) E
            /\ ~ In (Cancelled ctx) E)
    /\ (forall ctx argv r,
          In (Started ctx argv r) E ->
          In ctx (ctxs (pagers m)) \/ In (Cancelled ctx) E).
Proof.
  induction 1 as [m w H | m w value pos m' cmds w' HS IH H].
  - unfold newModel, bindM, newReadPager, newEmptyPager, newPager, bindM,
      alloc, ret in H. simpl in H. injection H as <- <-.
    exists []. rewrite app_nil_r. split; [reflexivity|].
    split; [constructor|]. split.
    + intros p ctx [<- | [<- | []]]; discriminate.
    + intros ? ? ? [].
  - destruct IH as (E & HE & Hlt & Hlive & Hstart).
    destruct (Reachable_Inv Parse quote startProcess m w
                (Session_Reachable w0 m w HS))
      as [(p0 & rest0 & excess0 & Hp & _ & _ & _) [Hnd Hfr]].
    destruct (parseInput_total Parse quote value) as (pc & pp & e & HP).
    destruct (pass_facts Parse quote startProcess (set_input m value pos) w
                pc pp e p0 (rest0 ++ excess0) HP Hp Hnd Hfr)
      as (news & w2 & E1 & HU & HB & HEv & Hkeep & Hclose & _ & _ & _).
    unfold Pex.edit in H. rewrite HU in H. injection H as <- _ <-. clear HU.
    cbv zeta in HB, HEv, Hkeep, Hclose.
    cbn [pagers set_input] in Hfr.
    set (old := rest0 ++ excess0) in *.
    set (cs := commands (applyParse (set_input m value pos) pc pp e)) in *.
    set (g := Z.to_nat (len cs - len old)) in *.
    set (all := old ++ map placeholder (seq (fresh w) g)) in *.
    set (rest := firstn (List.length cs) all) in *.
    set (excess := skipn (List.length cs) all) in *.
    set (k := matching rest cs) in *.
    rewrite pagers_updateWindow. cbn [pagers set_pagers].
    rewrite Forall_forall in Hlt, Hfr.
    assert (forall p ctx, In p all -> cancel p = Some ctx ->
                          In p (pagers m) /\ (ctx < fresh w)%nat) as Hall.
    { intros p ctx Hin Hc. apply In_grown with (ctx := ctx) in Hin; [|exact Hc].
      assert (In p (pagers m)) as Hin' by (rewrite Hp; right; exact Hin).
      split; [exact Hin'|]. apply Hfr. apply ctxs_In. exists p. auto. }
    destruct (Rebuilt_events startProcess _ _ _ _ _ _ HB)
      as (_ & _ & Hf2 & _). cbn [fresh] in Hf2.
    destruct (Rebuilt_news _ _ _ _ _ _ HB) with (E := E1)
      as (HN1 & HN2 & HN3).
    { apply Forall_forall. intros ctx Hin. apply ctxs_In in Hin.
      destruct Hin as (p & Hin & Hc).
      apply In_skipn, In_firstn in Hin.
      destruct (Hall p ctx Hin Hc) as [_ Hlt']. cbn [fresh]. lia. }
    { cbn [events]. rewrite HEv, app_assoc. reflexivity. }
    cbn [fresh] in HN2. rewrite Forall_forall in HN3.
    assert (forall ctx, In (Cancelled ctx) (closeEvents excess) ->
                        (ctx < fresh w)%nat) as Hex.
    { intros ctx Hin. apply closeEvents_In in Hin.
      destruct Hin as (ctx' & [= <-] & Hin). apply ctxs_In in Hin.
      destruct Hin as (p & Hin & Hc). apply In_skipn in Hin.
      exact (proj2 (Hall p ctx Hin Hc)). }
    exists (E ++ closeEvents excess ++ E1).
    split; [rewrite HEv, HE, <- app_assoc; reflexivity|].
    split; [|split].
    + apply Forall_forall. intros ev Hin.
      apply in_app_or in Hin. destruct Hin as [Hin | Hin];
        [specialize (Hlt ev Hin); lia|].
      apply in_app_or in Hin. destruct Hin as [Hin | Hin];
        [|exact (HN3 ev Hin)].
      pose proof Hin as Hin'. apply closeEvents_In in Hin'.
      destruct Hin' as (ctx & -> & _). specialize (Hex ctx Hin). simpl. lia.
    + intros p ctx Hin Hc.
      change (p0 :: firstn k rest ++ news)
        with ((p0 :: firstn k rest) ++ news) in Hin.
      apply in_app_or in Hin. destruct Hin as [Hin | Hin].
      * assert (In p (pagers m)) as Hin'.
        { destruct Hin as [<- | Hin]; [rewrite Hp; left; reflexivity|].
          apply In_firstn, In_firstn in Hin. exact (proj1 (Hall p ctx Hin Hc)). }
        destruct (Hlive p ctx Hin' Hc) as (r & Hcmd & HSt & HnC).
        exists r. split; [exact Hcmd|].
        split; [apply in_or_app; left; exact HSt|].
        intros HC. apply in_app_or in HC. destruct HC as [HC | HC];
          [exact (HnC HC)|].
        apply (Hkeep ctx); [|exact HC]. apply ctxs_In. exists p. auto.
      * destruct (HN2 p ctx Hin Hc) as (r & Hcmd & HSt & HnC & Hge).
        exists r. split; [exact Hcmd|].
        split; [apply in_or_app; right; apply in_or_app; right; exact HSt|].
        intros HC. apply in_app_or in HC. destruct HC as [HC | HC];
          [specialize (Hlt _ HC); simpl in Hlt; lia|].
        apply in_app_or in HC. destruct HC as [HC | HC];
          [specialize (Hex ctx HC); lia | exact (HnC HC)].
    + intros ctx argv r Hin.
      apply in_app_or in Hin. destruct Hin as [Hin | Hin].
      * destruct (Hstart ctx argv r Hin) as [Hc | Hc];
          [|right; apply in_or_app; left; exact Hc].
        apply ctxs_In in Hc. destruct Hc as (p & Hin' & Hc).
        rewrite Hp in Hin'. destruct Hin' as [<- | Hin'].
        { left. apply ctxs_In. exists p0. split; [left; reflexivity | exact Hc]. }
        assert (In p all) as Hin2 by (apply in_or_app; left; exact Hin').
        unfold all in Hin2. fold all in Hin2.
        rewrite <- (firstn_skipn (List.length cs) all) in Hin2.
        fold rest excess in Hin2.
        apply in_app_or in Hin2. destruct Hin2 as [Hin2 | Hin2].
        -- rewrite <- (firstn_skipn k rest) in Hin2.
           apply in_app_or in Hin2. destruct Hin2 as [Hin2 | Hin2].
           ++ left. apply ctxs_In. exists p. split; [|exact Hc].
              right. apply in_or_app. left. exact Hin2.
           ++ right. apply in_or_app. right. apply in_or_app. right.
              apply Hclose. apply ctxs_In. exists p. auto.
        -- right. apply in_or_app. right. apply in_or_app. left.
           apply closeEvents_In. exists ctx. split; [reflexivity|].
           apply ctxs_In. exists p. auto.
      * apply in_app_or in Hin. destruct Hin as [Hin | Hin].
        { apply closeEvents_In in Hin. destruct Hin as (? & [=] & _). }
        left. change (p0 :: firstn k rest ++ news)
          with ((p0 :: firstn k rest) ++ news).
        rewrite ctxs_app. apply in_or_app. right. exact (HN1 _ _ _ Hin).
Qed.

(** X14.  Over a session (the first model, then edits), every pager that
    holds a context holds the context of a process started in the session
    with the arguments of the pager's command and reading what the pager
    records, and that context has not been cancelled; every process
    started in the session is held by a pager of the last model or has
    been cancelled.  No process is left running without a pager. *)
Theorem no_process_without_pager (w0 : world) (m : model) (w : world) :
  Session w0 m w ->
  exists E,
    events w = events w0 ++ E
    /\ (forall p ctx,
          In p (pagers m) -> cancel p = Some ctx ->
          exists r, cmd p = Some r
            /\ In (Started ctx (Argv (command p)) r) E
            /\ ~ In (Cancelled ctx) E)
    /\ (forall ctx argv r,
          In (Started ctx argv r) E ->
          (exists p, In p (pagers m) /\ cancel p = Some ctx)
          \/ In (Cancelled ctx) E).
Proof.
  intros HS.
  destruct (Session_processes w0 m w HS) as (E & HE & _ & Hlive & Hstart).
  exists E. split; [exact HE|]. split; [exact Hlive|].
  intros ctx argv r Hin. destruct (Hstart ctx argv r Hin) as [H | H].
  - left. apply ctxs_In. exact H.
  - right. exact H.
Qed.

(** X16.  In every state the controller reaches, after an accepted edit
    whose parse has no more pipe offsets (the one at 0 included) than
    commands, the focused stage is a stage of the list:
    [m.pagers[m.focusedPager]] does not panic. *)
Theorem focused_stage_exists (m : model) (w : world) (value : string)
  (pos : Z) (pc : list Command) (pp : list Z) :
  Reachable m w ->
  parseInput value = Ok (pc, pp, None) ->
  len pp <= len pc ->
  exists m' cmds w' p,
    edit value pos m w = Ok ((m', cmds), w')
    /\ focusedPager m' = SearchInts pp pos
    /\ len (pagers m') = len pc + 1
    /\ index (pagers m') (focusedPager m') = Ok p.
Proof.
  intros HR HP Hlen.
  destruct (Reachable_Inv Parse quote startProcess m w HR)
    as [(p0 & rest & excess & Hp & _ & _ & _) [Hnd Hlt]].
  destruct (pass_facts Parse quote startProcess (set_input m value pos) w
              pc pp None p0 (rest ++ excess) HP Hp Hnd Hlt)
    as (news & w' & E & HU & _ & _ & _ & _ & _ & _ & Hal).
  cbv zeta in HU, Hal. rewrite commands_applyParse_ok in HU, Hal.
  match type of Hal with
  | aligned (?K ++ news) _ => set (kept := K) in *
  end.
  pose proof (aligned_length _ _ Hal) as HL.
  pose proof (SearchInts_bounds pp pos) as Hb.
  eexists _, _, w', _. split; [exact HU|].
  rewrite focusedPager_updateWindow, pagers_updateWindow.
  cbn [pagers pipes inputPos set_pagers applyParse set_parse SetErr set_input].
  assert (len (p0 :: kept ++ news) = len pc + 1) as HLen.
  { unfold len. cbn [List.length]. rewrite HL. lia. }
  split; [reflexivity|]. split; [exact HLen|].
  apply index_ok with (d := p0); lia.
Qed.

End ControllerStatesFacts.

Lemma window_holds_focus_always_witness :
  0 <= minPager modelABC <= focusedPager modelABC
  /\ focusedPager modelABC <= maxPager modelABC
  /\ maxPager modelABC - minPager modelABC < maxPagers
  /\ focusedPager modelABC <= len (pipes modelABC)
  /\ maxPager modelABC <= Z.max (focusedPager modelABC) (len (pagers modelABC)).
Proof.
  apply (window_holds_focus_always parseFixture quoteFixture startOk
           modelABC worldABC).
  exact Reachable_modelABC.
Defined.

(** After [a | b | c ] is typed, the cursor goes to the start. *)
Lemma same_commands_restart_nothing_witness :
  exists m2,
    editF "a | b | c " 0 modelABC worldABC = Ok ((m2, []), worldABC)
    /\ pagers m2 = pagers modelABC
    /\ commands m2 = [a_; b_; c_]
    /\ pipes m2 = [0; 2; 6]
    /\ err m2 = None.
Proof.
  apply (same_commands_restart_nothing parseFixture quoteFixture startOk
           model0 world1 "a | b | c " 10 modelABC (snd (fst afterABC)) worldABC
           "a | b | c " 0 [a_; b_; c_] [0; 2; 6]).
  - exact Reachable_model0.
  - vm_compute. reflexivity.
  - vm_compute. reflexivity.
  - reflexivity.
Defined.

(** The stages of [a] and [b] in the pipeline [a | b | c]. *)
Lemma pipeline_wired_witness :
  exists q p,
    nth_error (pagers modelABC) 1 = Some q
    /\ nth_error (pagers modelABC) 2 = Some p
    /\ (shared q < shared p)%nat
    /\ forall x, cmd p = Some x -> x = shared q.
Proof.
  eexists _, _. split; [reflexivity|]. split; [reflexivity|].
  apply (pipeline_wired parseFixture quoteFixture startOk modelABC worldABC
           Reachable_modelABC 1%nat); reflexivity.
Defined.

Lemma Session_modelABC :
  Session parseFixture quoteFixture startOk world0 modelABC worldABC.
Proof.
  apply (Session_edit parseFixture quoteFixture startOk world0 model0 world1
           "a | b | c " 10 modelABC (snd (fst afterABC)) worldABC).
  - apply Session_new. reflexivity.
  - vm_compute. reflexivity.
Qed.

Lemma no_process_without_pager_witness :
  exists E,
    events worldABC = events world0 ++ E
    /\ (forall p ctx,
          In p (pagers modelABC) -> cancel p = Some ctx ->
          exists r, cmd p = Some r
            /\ In (Started ctx (Argv (command p)) r) E
            /\ ~ In (Cancelled ctx) E)
    /\ (forall ctx argv r,
          In (Started ctx argv r) E ->
          (exists p, In p (pagers modelABC) /\ cancel p = Some ctx)
          \/ In (Cancelled ctx) E).
Proof.
  apply (no_process_without_pager parseFixture quoteFixture startOk
           world0 modelABC worldABC).
  exact Session_modelABC.
Defined.

Lemma focused_stage_exists_witness :
  exists m' cmds w' p,
    editF "a | b x | c " 12 modelABC worldABC = Ok ((m', cmds), w')
    /\ focusedPager m' = SearchInts [0; 2; 8] 12
    /\ len (pagers m') = len [a_; bx_; c_] + 1
    /\ index (pagers m') (focusedPager m') = Ok p.
Proof.
  apply (focused_stage_exists parseFixture quoteFixture startOk
           modelABC worldABC "a | b x | c " 12 [a_; bx_; c_] [0; 2; 8]).
  - exact Reachable_modelABC.
  - vm_compute. reflexivity.
  - vm_compute. discriminate.
Defined.
